(** * LMSDownloader-telegram-bot: job lifecycle orchestration

    A shallow embedding of [LMSDownloaderHandler.py] and of
    [BotHandler.py], with the properties of the processes watchdog, of the
    log relay thread, of the supervising process, of artifact delivery and
    of the handlers of the bot.

    Conventions of the embedding:
    - wall-clock times and durations (Python floats, in seconds) are
      rationals; float rounding is not modelled;
    - [time.time()] is an oracle [clock : nat -> Q] indexed by the number of
      readings made so far, which the state counts;
    - operating-system objects (processes, events) are integer handles, and
      what the code asks of them is recorded in the state;
    - a Python [raise] is the [Raise] constructor of [outcome]. *)

From Stdlib Require Import ZArith QArith String Ascii List Lia.
From stdpp Require Import base list gmap strings pretty.

Local Open Scope Z_scope.

(** ** Python values, classes and exceptions *)

Module Py.

(** Exception classes the code can meet. [ExceptionSubclass] stands for any
    class deriving from [Exception] (ValueError, TimeoutError,
    telegram.error.NetworkError, ...); [BaseExceptionSubclass] for any other
    class deriving from [BaseException] only (asyncio.CancelledError, ...). *)
Inductive exc_class :=
| BaseException
| Exception
| KeyboardInterrupt
| SystemExit
| ExceptionSubclass (name : string)
| BaseExceptionSubclass (name : string).

Inductive pyclass :=
| NoneType
| list_
| LogRecord
| ExcClass (c : exc_class)
| OtherClass (name : string).

#[global] Instance exc_class_eq_dec : EqDecision exc_class.
Proof. solve_decision. Defined.

#[global] Instance pyclass_eq_dec : EqDecision pyclass.
Proof. solve_decision. Defined.

(** An exception instance; [str(e)] is its message. *)
Record exn := Exn { exn_class : exc_class; exn_msg : string }.

#[global] Instance exn_eq_dec : EqDecision exn.
Proof. solve_decision. Defined.

(** Objects that travel through the multiprocessing queues. *)
Inductive value :=
| VNone
| VList (items : list string)
| VLogRecord (message : string)
| VExc (e : exn)
| VObj (cls_name : string).

(** [type(v)] *)
Definition type_of (v : value) : pyclass :=
  match v with
  | VNone => NoneType
  | VList _ => list_
  | VLogRecord _ => LogRecord
  | VExc e => ExcClass (exn_class e)
  | VObj n => OtherClass n
  end.

(** [type(v) is c] *)
Definition type_is (v : value) (c : pyclass) : bool :=
  bool_decide (type_of v = c).

(** [isinstance(e, Exception)]: what [except Exception] catches. *)
Definition is_Exception (c : exc_class) : bool :=
  match c with
  | Exception | ExceptionSubclass _ => true
  | _ => false
  end.

(** [isinstance(e, (KeyboardInterrupt, SystemExit))] *)
Definition is_interrupt (c : exc_class) : bool :=
  match c with
  | KeyboardInterrupt | SystemExit => true
  | _ => false
  end.

Definition exc_class_name (c : exc_class) : string :=
  match c with
  | BaseException => "BaseException"
  | Exception => "Exception"
  | KeyboardInterrupt => "KeyboardInterrupt"
  | SystemExit => "SystemExit"
  | ExceptionSubclass n => n
  | BaseExceptionSubclass n => n
  end.

Definition class_name (c : pyclass) : string :=
  match c with
  | NoneType => "NoneType"
  | list_ => "list"
  | LogRecord => "logging.LogRecord"
  | ExcClass c => exc_class_name c
  | OtherClass n => n
  end.

(** [str(type(v))] *)
Definition str_type (v : value) : string :=
  "<class '" +:+ class_name (type_of v) +:+ "'>".

(** Result of running a piece of Python: a returned value or a raised
    exception. *)
Inductive outcome (A : Type) :=
| Return (a : A)
| Raise (e : exn).

Arguments Return {A} a.
Arguments Raise {A} e.

#[global] Instance outcome_ret : MRet outcome := fun A a => Return a.

#[global] Instance outcome_bind : MBind outcome := fun A B k m =>
  match m with
  | Return a => k a
  | Raise e => Raise e
  end.

End Py.

Import Py.

(** ** The processes watchdog ([LMSDownloaderHandler._processes_watchdog_loop]) *)

Module Watchdog.

(** How long to wait for all processes to finish if exit requested *)
Definition EXIT_WAIT_TIME : Q := 5.0.

(** One element of [lms_downloader_processes]:
    (time started, process object, interrupt event). *)
Record entry := Entry {
  time_started : Q;
  process : Z;
  interrupt_event : Z
}.

(** Tuple equality, as [list.remove] uses it: floats by value, the process
    and the event by identity. *)
Definition entry_eqb (a b : entry) : bool :=
  Qeq_bool (time_started a) (time_started b)
  && (process a =? process b)
  && (interrupt_event a =? interrupt_event b).

Definition ValueError : exn :=
  Exn (ExceptionSubclass "ValueError") "list.remove(x): x not in list".

(** [l.remove(x)]: drops the first item equal to [x]; raises [ValueError]
    when there is none. *)
Fixpoint list_remove (x : entry) (l : list entry) : outcome (list entry) :=
  match l with
  | [] => Raise ValueError
  | y :: l' =>
      if entry_eqb y x then Return l'
      else l'' ← list_remove x l'; Return (y :: l'')
  end.

Inductive log_line :=
| InfoProcessFinished (pid : Z)
| WarnTimedOutInterrupt
| WarnTimedOutKill
| WarnErrorKilling (pid : Z)
| WarnExitInterruptAll
| WarnExitKillAll
| InfoWatchdogFinished.

(** What the watchdog thread can see and touch. *)
Record state := State {
  lms_downloader_processes : list entry;
  events_set : gset Z;          (* interrupt events that are set *)
  kills : list Z;               (* process.kill() calls, oldest first *)
  logs : list log_line;         (* oldest first *)
  exit_timer : Q;
  clock_reads : nat
}.

(** The world around one pass of the loop. *)
Record env := Env {
  process_timeout : Q;          (* config["process_timeout"] *)
  clock : nat -> Q;             (* time.time() *)
  is_alive : Z -> bool;         (* process.is_alive() *)
  kill_raises : Z -> bool       (* whether process.kill() raises *)
}.

Definition time (w : env) (st : state) : Q * state :=
  (clock w (clock_reads st),
   State (lms_downloader_processes st) (events_set st) (kills st) (logs st)
         (exit_timer st) (S (clock_reads st))).

Definition is_set (st : state) (ev : Z) : bool := bool_decide (ev ∈ events_set st).

Definition set_event (ev : Z) (st : state) : state :=
  State (lms_downloader_processes st) ({[ ev ]} ∪ events_set st) (kills st)
        (logs st) (exit_timer st) (clock_reads st).

Definition log (l : log_line) (st : state) : state :=
  State (lms_downloader_processes st) (events_set st) (kills st)
        (logs st ++ [l]) (exit_timer st) (clock_reads st).

Definition set_processes (l : list entry) (st : state) : state :=
  State l (events_set st) (kills st) (logs st) (exit_timer st) (clock_reads st).

Definition set_exit_timer (t : Q) (st : state) : state :=
  State (lms_downloader_processes st) (events_set st) (kills st) (logs st)
        t (clock_reads st).

(** [try: process.kill() except Exception as e: logging.warning(...)] *)
Definition try_kill (w : env) (pid : Z) (st : state) : state :=
  let st' := State (lms_downloader_processes st) (events_set st)
                   (kills st ++ [pid]) (logs st) (exit_timer st)
                   (clock_reads st) in
  if kill_raises w pid then log (WarnErrorKilling pid) st' else st'.

(** Body of [for time_started, process, interrupt_event in
    self.lms_downloader_processes]. *)
Definition check_process (w : env) (e : entry) (st : state) : outcome state :=
  if negb (is_alive w (process e)) then
    let st := log (InfoProcessFinished (process e)) st in
    l ← list_remove e (lms_downloader_processes st);
    Return (set_processes l st)
  else
    let '(now, st) := time w st in
    if Qle_bool (process_timeout w) (now - time_started e) then
      let st :=
        if negb (is_set st (interrupt_event e)) then
          set_event (interrupt_event e) (log WarnTimedOutInterrupt st)
        else st in
      let '(now, st) := time w st in
      if Qle_bool (process_timeout w + EXIT_WAIT_TIME) (now - time_started e)
      then Return (try_kill w (process e) (log WarnTimedOutKill st))
      else Return st
    else Return st.

(** The [for] statement over a list that its body mutates: Python's list
    iterator keeps an index [i], yields [l[i]] while [i < len(l)] on the
    list as it is at that moment, and then increments [i].  [None] is lack of
    fuel. *)
Fixpoint for_each_process (fuel : nat) (w : env) (i : nat) (st : state)
  : option (outcome state) :=
  match fuel with
  | O => None
  | S fuel =>
      match lms_downloader_processes st !! i with
      | None => Some (Return st)
      | Some e =>
          match check_process w e st with
          | Raise x => Some (Raise x)
          | Return st' => for_each_process fuel w (S i) st'
          end
      end
  end.

(** "Check each process": the whole [for] statement of one pass. *)
Definition check_processes (w : env) (st : state) : option (outcome state) :=
  for_each_process (S (length (lms_downloader_processes st))) w 0 st.

(** [for _, _, interrupt_event in ...: interrupt_event.set()] *)
Definition interrupt_all (st : state) : state :=
  fold_left (fun st e => set_event (interrupt_event e) st)
            (lms_downloader_processes st) st.

(** [for _, process, _ in ...: try: process.kill() ...] *)
Definition kill_all (w : env) (st : state) : state :=
  fold_left (fun st e => try_kill w (process e) st)
            (lms_downloader_processes st) st.

(** The "Exit requested" part of one pass; the boolean says whether the
    loop breaks. *)
Definition exit_requested (w : env) (enabled : bool) (st : state) : state * bool :=
  if negb enabled then
    if (0 <? length (lms_downloader_processes st))%nat then
      let st :=
        if Qeq_bool (exit_timer st) 0 then
          let '(now, st) := time w st in
          interrupt_all (log WarnExitInterruptAll (set_exit_timer now st))
        else st in
      let '(now, st) := time w st in
      if negb (Qle_bool (now - exit_timer st) EXIT_WAIT_TIME)
      then (kill_all w (log WarnExitKillAll st), true)
      else (st, false)
    else (st, true)
  else (st, false).

(** One pass of [while True] in [_processes_watchdog_loop]; [enabled] is
    [self._processes_watchdog_enabled] as read in this pass. *)
Definition watchdog_pass (w : env) (enabled : bool) (st : state)
  : option (outcome (state * bool)) :=
  match check_processes w st with
  | None => None
  | Some (Raise x) => Some (Raise x)
  | Some (Return st) => Some (Return (exit_requested w enabled st))
  end.

(** [while True] of [_processes_watchdog_loop], run on what successive
    passes see: the world and [self._processes_watchdog_enabled].  After
    the [break] the thread logs that it has finished; when the list runs out
    first, the thread is still looping. *)
Fixpoint _processes_watchdog_loop (passes : list (env * bool)) (st : state)
  : option (outcome state) :=
  match passes with
  | [] => Some (Return st)
  | (w, enabled) :: passes =>
      match watchdog_pass w enabled st with
      | None => None
      | Some (Raise x) => Some (Raise x)
      | Some (Return (st, true)) => Some (Return (log InfoWatchdogFinished st))
      | Some (Return (st, false)) => _processes_watchdog_loop passes st
      end
  end.

(** [start_new_process]: the new entry goes to the end of the list. *)
Definition start_new_process (e : entry) (st : state) : state :=
  set_processes (lms_downloader_processes st ++ [e]) st.

(** [interrupt_process(pid)]: sets the event of the first live process
    with this pid. *)
Fixpoint interrupt_first (w : env) (pid : Z) (l : list entry) (st : state) : state :=
  match l with
  | [] => st
  | e :: l =>
      if is_alive w (process e) && (process e =? pid)
      then set_event (interrupt_event e) st
      else interrupt_first w pid l st
  end.

Definition interrupt_process (w : env) (pid : Z) (st : state) : state :=
  interrupt_first w pid (lms_downloader_processes st) st.

End Watchdog.

(** ** [BotHandler.send_safe] *)

Module BotHandler.

(** List of markdown chars to escape with a backslash *)
Definition MARKDOWN_ESCAPE : list ascii :=
  ["_"; "*"; "["; "]"; "("; ")"; "~"; ">"; "#"; "+"; "-"; "="; "|"; "{"; "}";
   "."; "!"]%char.

Definition backslash : ascii := "\"%char.
Definition newline : ascii := ascii_of_nat 10.
Definition tab : ascii := ascii_of_nat 9.

(** [s.replace(c, by)] for a one-character pattern [c] *)
Fixpoint replace_char (c : ascii) (by_ : string) (s : string) : string :=
  match s with
  | EmptyString => EmptyString
  | String a s' =>
      if Ascii.eqb a c then by_ +:+ replace_char c by_ s'
      else String a (replace_char c by_ s')
  end.

(** [s.replace("\\" + c, by)]: the two-character pattern backslash, [c];
    matches are found left to right and do not overlap. *)
Fixpoint replace_escape (c by_ : ascii) (s : string) : string :=
  match s with
  | EmptyString => EmptyString
  | String a t =>
      match t with
      | String b rest =>
          if Ascii.eqb a backslash && Ascii.eqb b c
          then String by_ (replace_escape c by_ rest)
          else String a (replace_escape c by_ t)
      | EmptyString => String a EmptyString
      end
  end.

(** [for i in range(len(MARKDOWN_ESCAPE)): text = text.replace(...)] *)
Definition escape_markdown (text : string) : string :=
  fold_left
    (fun text escape_char =>
       replace_char escape_char (String backslash (String escape_char EmptyString)) text)
    MARKDOWN_ESCAPE text.

(** [text.replace("\\n", "\n").replace("\\t", "\t")] *)
Definition unescape_whitespace (text : string) : string :=
  replace_escape "t" tab (replace_escape "n" newline text).

Record button := Button { label : string; callback_data : string }.

(** Which [telegram.Bot] is called: [context.bot] or
    [telegram.Bot(bot_api_token)]. *)
Inductive bot :=
| ContextBot
| TokenBot (bot_api_token : string).

Inductive api_method :=
| send_message (reply_to_message_id : option Z)
| edit_message_text (message_id : Z).

(** One call to the Telegram Bot API. *)
Record api_call := ApiCall {
  call_bot : bot;
  call_method : api_method;
  call_chat_id : Z;
  call_text : string;
  call_reply_markup : option (list (list button));
  call_parse_mode : option string
}.

(** Arguments of [send_safe]; [context] is [true] for a
    [ContextTypes.DEFAULT_TYPE] object and [false] for [None]. *)
Record args := Args {
  chat_id : Z;
  text : string;
  context : bool;
  reply_to_message_id : option Z;
  reply_markup : option (list (list button));
  parse_markdown : bool;
  edit_message_id : option Z;
  bot_api_token : string
}.

(** [not edit_message_id]: true for [None] and for [0]. *)
Definition not_ (id : option Z) : bool :=
  match id with
  | None => true
  | Some i => i =? 0
  end.

(** The API call that the [try] block of [send_safe] makes. *)
Definition request (a : args) : api_call :=
  let text := if parse_markdown a then escape_markdown (text a) else text a in
  ApiCall
    (if context a then ContextBot else TokenBot (bot_api_token a))
    (if not_ (edit_message_id a) then send_message (reply_to_message_id a)
     else edit_message_text (default 0 (edit_message_id a)))
    (chat_id a)
    (unescape_whitespace text)
    (reply_markup a)
    (if parse_markdown a then Some "MarkdownV2" else None).

(** [send_safe]; [api] gives what the awaited API call does: it returns a
    message, of which [.message_id] is taken, or raises.  The result is what
    [send_safe] returns or lets through, with the lines it logs. *)
Definition send_safe (api : api_call -> outcome Z) (a : args)
  : outcome (option Z) * list string :=
  match api (request a) with
  | Return message_id => (Return (Some message_id), [])
  | Raise e =>
      if is_Exception (exn_class e)
      then (Return None,
            ["Error sending " +:+ call_text (request a) +:+ " to "
             +:+ pretty (chat_id a) +:+ "!"])
      else (Raise e, [])
  end.

End BotHandler.

(** ** The log relay thread ([logs_to_message_loop]) *)

Module Relay.

(** [s[n:]] for [0 <= n] *)
Fixpoint drop_chars (n : nat) (s : string) : string :=
  match n, s with
  | O, _ => s
  | S n', String _ s' => drop_chars n' s'
  | S _, EmptyString => EmptyString
  end.

(** Python's [s[start:]] for any integer [start]: a negative [start] counts
    from the end, and the bound is clamped to [0 .. len(s)]. *)
Definition slice_from (start : Z) (s : string) : string :=
  let len := Z.of_nat (String.length s) in
  let start := if start <? 0 then Z.max (start + len) 0 else Z.min start len in
  drop_chars (Z.to_nat start) s.

(** The entries of [config] that the relay reads. *)
Record config := Config {
  process_timeout : Q;
  send_messages_interval : Q;
  max_log_symbols : Z;
  bot_api_token : string
}.

(** What surrounds the relay.  The message templates live in the messages
    file, and [TELEGRAM_LOGS_IGNORE_PREFIX] in [LoggingHandler], so both are
    parameters:
    [log_message_format line_n log_entry] is
    [messages_["log_message_format"].format(line_n=..., log_entry=...)] and
    [format_message message_base log_rows remaining] is
    [messages_[message_base].format(log_rows[, remaining])]. *)
Record env := Env {
  cfg : config;
  log_message_format : Z -> string -> string;
  format_message : string -> string -> option Q -> string;
  btn_abort : string;
  TELEGRAM_LOGS_IGNORE_PREFIX : string;
  pid : Z;                                     (* os.getpid() *)
  time_started : Q;
  chat_id : Z;
  clock : nat -> Q;                            (* time.time() *)
  api : nat -> BotHandler.api_call -> outcome Z (* the n-th API call *)
}.

Inductive event :=
| Sleep (seconds : Q)
| Forward (log_record : value)     (* logging_queue.put(log_record) *)
| Send (message_base : string) (call : BotHandler.api_call)
       (result : outcome (option Z)).

(** Local variables of [logs_to_message_loop] and what it has done so far
    ([trace], oldest first). *)
Record state := State {
  log_rows : string;
  message_id : option Z;
  last_time_sent : Q;
  line_n : Z;
  trace : list event;
  clock_reads : nat;
  api_calls : nat
}.

Definition emit (e : event) (st : state) : state :=
  State (log_rows st) (message_id st) (last_time_sent st) (line_n st)
        (trace st ++ [e]) (clock_reads st) (api_calls st).

Definition time (w : env) (st : state) : Q * state :=
  (clock w (clock_reads st),
   State (log_rows st) (message_id st) (last_time_sent st) (line_n st)
         (trace st) (S (clock_reads st)) (api_calls st)).

Definition sleep (seconds : Q) (st : state) : state := emit (Sleep seconds) st.

Definition set_log_rows (s : string) (n : Z) (st : state) : state :=
  State s (message_id st) (last_time_sent st) n (trace st) (clock_reads st)
        (api_calls st).

Definition set_message_id (id : option Z) (st : state) : state :=
  State (log_rows st) id (last_time_sent st) (line_n st) (trace st)
        (clock_reads st) (api_calls st).

Definition set_last_time_sent (t : Q) (st : state) : state :=
  State (log_rows st) (message_id st) t (line_n st) (trace st)
        (clock_reads st) (api_calls st).

(** [_send_message(message_id_, log_rows_, message_base)] *)
Definition _send_message (w : env) (message_id_ : option Z) (log_rows_ : string)
    (message_base : string) (st : state) : outcome (option Z) * state :=
  let '(message, reply_markup, st) :=
    if String.eqb message_base "log_message" then
      let '(now, st) := time w st in
      (format_message w message_base log_rows_
         (Some (process_timeout (cfg w) - (now - time_started w))%Q),
       Some [[BotHandler.Button (btn_abort w) ("abort_" +:+ pretty (pid w))]],
       st)
    else (format_message w message_base log_rows_ None, None, st) in
  let a := BotHandler.Args (chat_id w) message false None reply_markup true
                           message_id_ (bot_api_token (cfg w)) in
  let result := fst (BotHandler.send_safe (api w (api_calls st)) a) in
  (result,
   State (log_rows st) (message_id st) (last_time_sent st) (line_n st)
         (trace st ++ [Send message_base (BotHandler.request a) result])
         (clock_reads st) (S (api_calls st))).

(** "Prevent overflow":
    [if len(log_rows) > cap: log_rows = log_rows[-cap:]] *)
Definition prevent_overflow (cap : Z) (log_rows : string) : string :=
  if Z.of_nat (String.length log_rows) >? cap
  then slice_from (- cap) log_rows
  else log_rows.

(** What one pass of [while True] leaves behind. *)
Inductive step :=
| Continue (st : state)
| Break (st : state)
| Raised (e : exn) (st : state).

Definition is_None (v : value) : bool :=
  match v with VNone => true | _ => false end.

(** [str(log_record.message)] *)
Definition message_of (v : value) : string :=
  match v with VLogRecord m => m | _ => EmptyString end.

(** "Send message as soon as we can", then [time.sleep(.1)] *)
Definition send_when_due (w : env) (st : state) : step :=
  let '(now, st) := time w st in
  if Qle_bool (send_messages_interval (cfg w)) (now - last_time_sent st) then
    let '(now, st) := time w st in
    let st := set_last_time_sent now st in
    match _send_message w (message_id st) (log_rows st) "log_message" st with
    | (Return id, st) => Continue (sleep 0.1 (set_message_id id st))
    | (Raise e, st) => Raised e st
    end
  else Continue (sleep 0.1 st).

(** One pass of [while True]; [got] is what
    [internal_logging_queue_.get(block=False)] gives, [None] standing for
    [queue.Empty]. *)
Definition iteration (w : env) (got : option value) (st : state) : step :=
  match got with
  | None => send_when_due w st
  | Some log_record =>
      if is_None log_record || negb (type_is log_record LogRecord) then
        let st := sleep (send_messages_interval (cfg w)) st in
        let message_base :=
          if is_None log_record then "log_message_done"
          else if type_is log_record (ExcClass KeyboardInterrupt)
               then "log_message_done_interrupted"
               else "log_message_done_error" in
        match _send_message w (message_id st) (log_rows st) message_base st with
        | (Return _, st) => Break st
        | (Raise e, st) => Raised e st
        end
      else
        let st := emit (Forward log_record) st in
        if String.prefix (TELEGRAM_LOGS_IGNORE_PREFIX w) (message_of log_record)
        then Continue st
        else
          let rows := log_rows st +:+
                      log_message_format w (line_n st) (message_of log_record) in
          let st := set_log_rows rows (line_n st + 1) st in
          let st := set_log_rows
                      (prevent_overflow (max_log_symbols (cfg w)) (log_rows st))
                      (line_n st) st in
          send_when_due w st
  end.

(** State at the [while True]: the four assignments before the loop. *)
Definition initial (w : env) : state :=
  State EmptyString None (clock w 0%nat) 1 [] 1 0.

(** The loop, run on what the successive [get] calls give.  When the
    list runs out before a [break], the result is [Continue]: the thread is
    still looping. *)
Fixpoint loop (w : env) (gets : list (option value)) (st : state) : step :=
  match gets with
  | [] => Continue st
  | got :: gets =>
      match iteration w got st with
      | Continue st' => loop w gets st'
      | r => r
      end
  end.

Definition logs_to_message_loop (w : env) (gets : list (option value)) : step :=
  loop w gets (initial w).

End Relay.

(** ** The worker and its supervising process
       ([_lms_downloader_process_child], [_lms_downloader_process]) *)

Module Supervisor.

(** How long to wait for child process to terminate *)
Definition CHILD_PROCESS_MAX_TERMINATE_TIME : Q := 1.0.

(** How long to wait before trying to send file again *)
Definition RESEND_FILE_AFTER_TIME : Q := 3.0.

(** Maximum retries to send file *)
Definition MAX_FILES_RETRIES : nat := 3.

(** The [try] statement of [_lms_downloader_process_child]: what
    [lms_downloader.download(out_dir)] does decides what is put on
    [return_queue]; the trailing [return_queue.put(None)] is reached unless
    the exception is caught by neither clause. *)
Definition _lms_downloader_process_child (download : outcome value)
  : list value * outcome unit :=
  match download with
  | Return v => ([v; VNone], Return ())
  | Raise e =>
      if is_Exception (exn_class e) then ([VExc e; VNone], Return ())
      else if is_interrupt (exn_class e)
           then ([VExc (Exn KeyboardInterrupt ""); VNone], Return ())
           else ([], Raise e)
  end.

(** An error raised by a call into the environment (thread and process
    start, the Telegram API, signals): an instance of the subclass
    [fault_class] of [Exception], with [str(e) = fault_msg].  A call
    succeeds ([None]) or raises such an error; [KeyboardInterrupt] arises
    only where the code raises it. *)
Record fault := Fault { fault_class : string; fault_msg : string }.

Definition exn_of_fault (f : fault) : exn :=
  Exn (ExceptionSubclass (fault_class f)) (fault_msg f).

Inductive log_line :=
| InfoStartingLoggingHandler
| InfoStartingChild
| InfoWaiting
| InfoSending (basename : string)
| WarnErrorSendingFile (e : string)
| InfoRetrying (after : Q) (retries : nat)
| ErrorMaxRetries
| InfoFinished (seconds : Q)
| InfoTerminatingChild
| InfoChildTerminated
| WarnKillingChild (exceeded : Q)
| ErrorTerminatingChild (e : string)
| ErrorParentInterrupted
| ErrorError (e : string).

Inductive event :=
| Log (l : log_line)
| Put (v : value)                (* internal_logging_queue.put(v) *)
| Sleep (seconds : Q)
| ThreadStart
| TemporaryDirectory
| ChildStart
| SendDocument (file : string)
| OsKillSIGINT
| ChildKill
| ThreadJoin (timeout : Q)
| Cleanup.

(** One pass of the waiting loop as the environment shows it:
    [return_queue.get(block=False)] ([None] for [queue.Empty]) and
    [interrupt_event.is_set()]. *)
Record poll := Poll { return_data : option value; interrupt_is_set : bool }.

Record env := Env {
  send_messages_interval : Q;      (* config["send_messages_interval"] *)
  time_started : Q;
  clock : nat -> Q;                (* time.time() *)
  thread_start : option fault;
  temporary_directory : option fault;
  child_start : option fault;
  polls : list poll;
  (* sending the file at position [i] of the list, attempt [n] *)
  send_document : nat -> string -> nat -> option fault;
  os_kill : option fault;
  child_is_alive : list bool;      (* successive child_process.is_alive() *)
  child_kill : option fault;
  thread_join : option fault
}.

(** The three variables that the code after the [try] statement tests,
    and what has been done so far ([trace], oldest first). *)
Record state := State {
  internal_logging_thread : bool;
  temp_dir : bool;
  child_process : bool;
  trace : list event;
  clock_reads : nat
}.

(** How a piece of the function ends: normally, by an exception, or not
    within what the environment has shown ([Pending]). *)
Inductive flow (A : Type) :=
| Done (a : A)
| Raised (e : exn)
| Pending.

Arguments Done {A} a.
Arguments Raised {A} e.
Arguments Pending {A}.

Record M (A : Type) := mkM { run : state -> flow A * state }.

Arguments mkM {A} run.
Arguments run {A} m st.

#[global] Instance M_ret : MRet M := fun A a => mkM (fun st => (Done a, st)).

#[global] Instance M_bind : MBind M := fun A B k m =>
  mkM (fun st =>
         match run m st with
         | (Done a, st') => run (k a) st'
         | (Raised e, st') => (Raised e, st')
         | (Pending, st') => (Pending, st')
         end).

Definition raise {A} (e : exn) : M A := mkM (fun st => (Raised e, st)).

Definition pending {A} : M A := mkM (fun st => (Pending, st)).

Definition emit (e : event) : M unit :=
  mkM (fun st =>
         (Done (),
          State (internal_logging_thread st) (temp_dir st) (child_process st)
                (trace st ++ [e]) (clock_reads st))).

Definition time (w : env) : M Q :=
  mkM (fun st =>
         (Done (clock w (clock_reads st)),
          State (internal_logging_thread st) (temp_dir st) (child_process st)
                (trace st) (S (clock_reads st)))).

Definition get : M state := mkM (fun st => (Done st, st)).

Definition set_internal_logging_thread : M unit :=
  mkM (fun st => (Done (), State true (temp_dir st) (child_process st)
                                 (trace st) (clock_reads st))).

Definition set_temp_dir : M unit :=
  mkM (fun st => (Done (), State (internal_logging_thread st) true
                                 (child_process st) (trace st) (clock_reads st))).

Definition set_child_process : M unit :=
  mkM (fun st => (Done (), State (internal_logging_thread st) (temp_dir st) true
                                 (trace st) (clock_reads st))).

(** A call into the environment: it is recorded, then it raises if the
    environment says so. *)
Definition call (e : event) (f : option fault) : M unit :=
  emit e ;;
  match f with
  | None => mret ()
  | Some f => raise (exn_of_fault f)
  end.

(** [try: m except ...]: [handler e] is the clause that catches [e], if
    any. *)
Definition try_except {A} (m : M A) (handler : exn -> option (M A)) : M A :=
  mkM (fun st =>
         match run m st with
         | (Raised e, st') =>
             match handler e with
             | Some h => run h st'
             | None => (Raised e, st')
             end
         | r => r
         end).

(** [except Exception as e: h e] *)
Definition except_Exception {A} (h : exn -> M A) (e : exn) : option (M A) :=
  if is_Exception (exn_class e) then Some (h e) else None.

(** [os.path.basename] *)
Fixpoint basename_from (acc s : string) : string :=
  match s with
  | EmptyString => acc
  | String c s' =>
      if Ascii.eqb c "/" then basename_from EmptyString s'
      else basename_from (acc +:+ String c EmptyString) s'
  end.

Definition basename (s : string) : string := basename_from EmptyString s.

(** The [while True] that sends one file; [retries_count] is its value
    when the pass begins.  The result of the [try] statement is [true] when
    it left the loop by its [break]. *)
Fixpoint send_loop (fuel : nat) (w : env) (i : nat) (file : string)
    (retries_count : nat) : M unit :=
  match fuel with
  | O => pending
  | S fuel =>
      let retries_count := S retries_count in
      sent ← try_except
               (emit (Sleep (send_messages_interval w)) ;;
                call (SendDocument file) (send_document w i file retries_count) ;;
                mret true)
               (except_Exception (fun e =>
                  emit (Log (WarnErrorSendingFile (exn_msg e))) ;;
                  emit (Log (InfoRetrying RESEND_FILE_AFTER_TIME retries_count)) ;;
                  emit (Sleep RESEND_FILE_AFTER_TIME) ;;
                  mret false));
      if sent : bool then mret ()
      else if (MAX_FILES_RETRIES <=? retries_count)%nat
           then emit (Log ErrorMaxRetries)
           else send_loop fuel w i file retries_count
  end.

(** Body of [for file in return_data] for the file at position [i]. *)
Definition send_file (w : env) (i : nat) (file : string) : M unit :=
  emit (Log (InfoSending (basename file))) ;;
  send_loop MAX_FILES_RETRIES w i file 0.

(** [for file in return_data], from position [i] on. *)
Fixpoint send_files (w : env) (i : nat) (files : list string) : M unit :=
  match files with
  | [] => mret ()
  | file :: files => send_file w i file ;; send_files w (S i) files
  end.

Definition exn_of (v : value) : exn :=
  match v with VExc e => e | _ => Exn Exception EmptyString end.

Definition items_of (v : value) : list string :=
  match v with VList l => l | _ => [] end.

(** The [if]/[elif] chain on [return_data]; it ends normally only by the
    [break] of the list branch. *)
Definition check_return_data (w : env) (return_data : value) : M unit :=
  if type_is return_data NoneType then
    raise (Exn Exception "Child process exited but doesn't return any data")
  else if type_is return_data (ExcClass KeyboardInterrupt) then
    raise (Exn KeyboardInterrupt "Keyboard interrupt from child process")
  else if type_is return_data (ExcClass Exception) then
    raise (exn_of return_data)
  else if type_is return_data list_ then
    send_files w 0 (items_of return_data) ;;
    now ← time w;
    emit (Log (InfoFinished (now - time_started w)))
  else
    raise (Exn Exception
             ("Child process exited but returning wrong type of data: "
              +:+ str_type return_data)).

(** "Catch interrupt event or return data from child process" *)
Fixpoint wait_loop (w : env) (ps : list poll) : M unit :=
  match ps with
  | [] => pending
  | p :: ps =>
      match return_data p with
      | Some v => check_return_data w v
      | None =>
          if interrupt_is_set p then raise (Exn KeyboardInterrupt EmptyString)
          else emit (Sleep 0.1) ;; wait_loop w ps
      end
  end.

(** The body of the outer [try]. *)
Definition try_body (w : env) : M unit :=
  emit (Log InfoStartingLoggingHandler) ;;
  set_internal_logging_thread ;;
  call ThreadStart (thread_start w) ;;
  call TemporaryDirectory (temporary_directory w) ;;
  set_temp_dir ;;
  emit (Log InfoStartingChild) ;;
  set_child_process ;;
  call ChildStart (child_start w) ;;
  emit (Log InfoWaiting) ;;
  wait_loop w (polls w).

(** The [while True] that waits for the child to terminate. *)
Fixpoint terminate_loop (w : env) (timer : Q) (alive : list bool) : M unit :=
  match alive with
  | [] => pending
  | a :: alive =>
      if negb a then emit (Log InfoChildTerminated)
      else
        now ← time w;
        if negb (Qle_bool (now - timer) CHILD_PROCESS_MAX_TERMINATE_TIME) then
          emit (Log (WarnKillingChild CHILD_PROCESS_MAX_TERMINATE_TIME)) ;;
          call ChildKill (child_kill w)
        else terminate_loop w timer alive
  end.

(** [except (KeyboardInterrupt, SystemExit):] *)
Definition on_interrupt (w : env) : M unit :=
  st ← get;
  (if child_process st then
     child_process_terminate_timer ← time w;
     try_except
       (emit (Log InfoTerminatingChild) ;;
        call OsKillSIGINT (os_kill w) ;;
        terminate_loop w child_process_terminate_timer (child_is_alive w))
       (except_Exception (fun e =>
          emit (Log (ErrorTerminatingChild (exn_msg e)))))
   else mret ()) ;;
  emit (Log ErrorParentInterrupted) ;;
  emit (Put (VExc (Exn KeyboardInterrupt EmptyString))).

(** [except Exception as e:] *)
Definition on_error (e : exn) : M unit :=
  emit (Log (ErrorError (exn_msg e))) ;;
  emit (Put (VExc e)).

(** The clauses of the outer [try], in their order. *)
Definition handlers (w : env) (e : exn) : option (M unit) :=
  if is_interrupt (exn_class e) then Some (on_interrupt w)
  else if is_Exception (exn_class e) then Some (on_error e)
  else None.

(** "Stop internal logging" and "Cleaning temp dir" *)
Definition finish (w : env) : M unit :=
  emit (Put VNone) ;;
  st ← get;
  try_except
    (if internal_logging_thread st then call (ThreadJoin 10) (thread_join w)
     else mret ())
    (fun _ => Some (mret ())) ;;
  (if temp_dir st then emit Cleanup else mret ()).

Definition initial : state := State false false false [] 0.

Definition _lms_downloader_process (w : env) : flow unit * state :=
  run (try_except (try_body w) (handlers w) ;; finish w) initial.

End Supervisor.

(** ** Python string and list operations used by the handlers

    A string is a sequence of code points below 256. *)

Module PyStr.

(** [c.isspace()], which is also what [strip()] and [int()] skip *)
Definition is_space (c : ascii) : bool :=
  let n := nat_of_ascii c in
  ((9 <=? n) && (n <=? 13) || (28 <=? n) && (n <=? 32) || (n =? 133) || (n =? 160))%nat.

(** [s.lstrip()] *)
Fixpoint lstrip (s : string) : string :=
  match s with
  | EmptyString => EmptyString
  | String c s' => if is_space c then lstrip s' else s
  end.

(** [s.rstrip()] *)
Fixpoint rstrip (s : string) : string :=
  match s with
  | EmptyString => EmptyString
  | String c s' =>
      match rstrip s' with
      | EmptyString => if is_space c then EmptyString else String c EmptyString
      | r => String c r
      end
  end.

(** [s.strip()] *)
Definition strip (s : string) : string := rstrip (lstrip s).

(** [s.split(sep)] for a one-character separator: never empty, and
    [n] separators give [n + 1] items. *)
Fixpoint split (sep : ascii) (s : string) : list string :=
  match s with
  | EmptyString => [EmptyString]
  | String c s' =>
      if Ascii.eqb c sep then EmptyString :: split sep s'
      else match split sep s' with
           | x :: l => String c x :: l
           | [] => [String c EmptyString]
           end
  end.

Definition IndexError : exn :=
  Exn (ExceptionSubclass "IndexError") "list index out of range".

(** [l[i]] for [0 <= i] *)
Definition item {A} (l : list A) (i : nat) : outcome A :=
  match l !! i with
  | Some x => Return x
  | None => Raise IndexError
  end.

(** [assert b] *)
Definition AssertionError : exn :=
  Exn (ExceptionSubclass "AssertionError") EmptyString.

Definition assert_ (b : bool) : outcome unit :=
  if b then Return () else Raise AssertionError.

(** Value of a decimal digit *)
Definition digit (c : ascii) : option N :=
  let n := nat_of_ascii c in
  if ((48 <=? n) && (n <=? 57))%nat then Some (N.of_nat (n - 48)) else None.

(** Digits with single underscores between them, read from the left;
    [acc] is the value of the digits read so far. *)
Fixpoint digits_value (acc : N) (s : string) : option N :=
  match s with
  | EmptyString => Some acc
  | String c s' =>
      match digit c with
      | Some d => digits_value (acc * 10 + d) s'
      | None =>
          if Ascii.eqb c "_" then
            match s' with
            | String c' _ =>
                match digit c' with
                | Some _ => digits_value acc s'
                | None => None
                end
            | EmptyString => None
            end
          else None
      end
  end.

(** An unsigned literal begins with a digit. *)
Definition unsigned_value (s : string) : option N :=
  match s with
  | String c _ =>
      match digit c with
      | Some _ => digits_value 0 s
      | None => None
      end
  | EmptyString => None
  end.

(** The [ValueError] of [int]; its message quotes [s] as it is (Python
    quotes [repr(s)], which is the same for a string without quotes,
    backslashes and control characters). *)
Definition invalid_literal (s : string) : exn :=
  Exn (ExceptionSubclass "ValueError")
      ("invalid literal for int() with base 10: '" +:+ s +:+ "'").

(** [int(s)] for a string [s]: surrounding whitespace is skipped, then
    comes an optional sign and a decimal literal. *)
Definition int (s : string) : outcome Z :=
  let body := strip s in
  let '(negative, digits) :=
    match body with
    | String c d =>
        if Ascii.eqb c "-" then (true, d)
        else if Ascii.eqb c "+" then (false, d)
        else (false, body)
    | EmptyString => (false, body)
    end in
  match unsigned_value digits with
  | Some n => Return (if negative : bool then - Z.of_N n else Z.of_N n)
  | None => Raise (invalid_literal s)
  end.

End PyStr.

(** ** The rest of [BotHandler.py]: [build_menu], [bot_message],
       [query_callback], [start_bot] *)

Module Handlers.

Definition range_step_zero : exn :=
  Exn (ExceptionSubclass "ValueError") "range() arg 3 must not be zero".

(** [range(0, stop, step)] for [0 <= stop] *)
Definition range0 (stop : nat) (step : Z) : outcome (list nat) :=
  if step =? 0 then Raise range_step_zero
  else if step <? 0 then Return []
  else
    let n := Z.to_nat step in
    Return (map (fun k => k * n)%nat (seq 0 ((stop + n - 1) / n)%nat)).

(** [build_menu(buttons, n_cols, header_buttons, footer_buttons)];
    [None] among the buttons is [None] of [option], and so is a missing
    header or footer (an empty one is as good as missing). *)
Definition build_menu {A} (buttons : list (option A)) (n_cols : Z)
    (header_buttons footer_buttons : option (list A)) : outcome (list (list A)) :=
  let buttons := omap id buttons in
  starts ← range0 (length buttons) n_cols;
  let menu :=
    map (fun i => take (Z.to_nat n_cols) (drop i buttons)) starts in
  let menu :=
    match header_buttons with
    | Some (b :: bs) => (b :: bs) :: menu
    | _ => menu
    end in
  let menu :=
    match footer_buttons with
    | Some (b :: bs) => menu ++ [b :: bs]
    | _ => menu
    end in
  Return menu.

(** What a handler does, oldest first. *)
Inductive action :=
| Reply (a : BotHandler.args) (result : outcome (option Z))   (* send_safe *)
| StartNewProcess (login password link : string) (chat_id : Z)
| InterruptProcess (pid : Z)
| LogWarning (text : string)
| LogError (text : string).

(** What surrounds [bot_message].  The regular expression and the
    templates come from the configuration and messages files:
    [link_check link] is [re.search(config["link_check_regex"], link) is not
    None] (it raises on a malformed pattern), [wrong_link] is the formatted
    "wrong_link" template and [wrong_message e] the "wrong_message" template
    formatted with [e]. *)
Record env := Env {
  link_check : string -> outcome bool;
  wrong_link : string;
  wrong_message : string -> string;
  api : BotHandler.api_call -> outcome Z
}.

(** [await send_safe(user_id, text, context, parse_markdown=True)] *)
Definition reply (w : env) (user_id : Z) (text : string)
  : outcome unit * list action :=
  let a := BotHandler.Args user_id text true None None true None EmptyString in
  let result := fst (BotHandler.send_safe (api w) a) in
  (match result with
   | Return _ => Return ()
   | Raise e => Raise e
   end, [Reply a result]).

(** "Parse and check each part": the [try] block of [bot_message] up to
    the check of the link. *)
Definition parse_request (text : string) : outcome (string * string * string) :=
  let request_message :=
    PyStr.split BotHandler.newline
      (BotHandler.replace_char (ascii_of_nat 13) EmptyString (PyStr.strip text)) in
  line ← PyStr.item request_message 0;
  let request_login := PyStr.strip line in
  _ ← PyStr.assert_ (0 <? String.length request_login)%nat;
  line ← PyStr.item request_message 1;
  let request_password := PyStr.strip line in
  _ ← PyStr.assert_ (0 <? String.length request_password)%nat;
  line ← PyStr.item request_message 2;
  let request_link := PyStr.strip line in
  _ ← PyStr.assert_ (0 <? String.length request_link)%nat;
  Return (request_login, request_password, request_link).

(** [bot_message] for the chat [user_id] and the message [text] *)
Definition bot_message (w : env) (user_id : Z) (text : string)
  : outcome unit * list action :=
  match parse_request text with
  | Return (request_login, request_password, request_link) =>
      match link_check w request_link with
      | Return true =>
          (Return (),
           [StartNewProcess request_login request_password request_link user_id])
      | Return false =>
          let '(r, l) := reply w user_id (wrong_link w) in
          (r, LogWarning "Wrong link format!" :: l)
      | Raise e =>
          if is_Exception (exn_class e) then
            let '(r, l) := reply w user_id (wrong_message w (exn_msg e)) in
            (r, LogWarning ("Error parsing message: " +:+ exn_msg e) :: l)
          else (Raise e, [])
      end
  | Raise e =>
      let '(r, l) := reply w user_id (wrong_message w (exn_msg e)) in
      (r, LogWarning ("Error parsing message: " +:+ exn_msg e) :: l)
  end.

(** [query_callback]: [telegram_chat_id] is [update.effective_chat.id]
    and [data_] is [update.callback_query.data], which may be [None]. *)
Definition query_callback (telegram_chat_id : Z) (data_ : option string)
  : list action :=
  match data_ with
  | Some (String c d) =>
      if telegram_chat_id =? 0 then []
      else
        let data_splitted := PyStr.split "_" (String c d) in
        match (action ← PyStr.item data_splitted 0;
               pid ← PyStr.item data_splitted 1 ≫= PyStr.int;
               Return (action, pid)) with
        | Return (action, pid) =>
            if String.eqb action "abort" then [InterruptProcess pid] else []
        | Raise e => [LogError "Query callback error!"]
        end
  | _ => []
  end.

(** After how long (in seconds) restart the bot if connection failed *)
Definition BOT_RESTART_ON_NETWORK_ERROR : Q := 10.

(** How one pass of the loop of [start_bot] goes: the application is built
    and polls until [run_polling] returns, [stopped] telling whether the
    stop handler has run meanwhile, or until something raises. *)
Inductive polling :=
| Returned (stopped : bool)
| Failed (e : exn).

Inductive bot_event :=
| Build
| BotSleep (seconds : Q)
| BotLog (text : string).

(** The loop of [start_bot] on the successive passes; [is_NetworkError]
    says which classes derive from [telegram.error.NetworkError].  The
    result is [None] when the loop has not ended within the passes given. *)
Fixpoint start_bot (is_NetworkError : exc_class -> bool) (passes : list polling)
  : option (outcome unit) * list bot_event :=
  match passes with
  | [] => (None, [])
  | p :: passes =>
      let go_on (l : list bot_event) :=
        let '(r, t) := start_bot is_NetworkError passes in (r, Build :: l ++ t) in
      let stop (l : list bot_event) :=
        (Some (Return ()), Build :: l ++ [BotLog "Telegram bot stopped"]) in
      match p with
      | Returned true => stop []
      | Returned false =>
          go_on [BotLog "Restarting telegram bot after 1s"; BotSleep 1]
      | Failed e =>
          if is_interrupt (exn_class e) then
            stop [BotLog "Telegram bot interrupted!"]
          else if is_NetworkError (exn_class e) then
            go_on [BotLog "NetworkError. Restarting bot after 10.0s";
                   BotSleep BOT_RESTART_ON_NETWORK_ERROR]
          else if is_Exception (exn_class e) then
            stop [BotLog "Telegram bot interrupted or error occurred!"]
          else (Some (Raise e), [Build])
      end
  end.

End Handlers.

(** * Statements read off the specification, and inputs of the examples *)

Module Examples.

(** A registry of two jobs started at time 0: the process of the first has
    finished, the process of the second is alive, and at the time of the
    pass (100 s) the second is past [process_timeout + EXIT_WAIT_TIME]. *)
Definition finished_job : Watchdog.entry := Watchdog.Entry 0 1 101.

Definition overdue_job : Watchdog.entry := Watchdog.Entry 0 2 102.

Definition two_jobs : Watchdog.state :=
  Watchdog.State [finished_job; overdue_job] ∅ [] [] 0 0.

Definition late : Watchdog.env :=
  Watchdog.Env 10 (fun _ => 100%Q) (fun pid => pid =? 2) (fun _ => false).

(** A relay with the given cap and Telegram behaviour: lines are rendered
    as "n: entry;", messages as the template name followed by the rows,
    flushes are always due (interval 0, a clock that advances by one second
    per reading). *)
Definition relay (cap : Z) (api : nat -> BotHandler.api_call -> outcome Z)
  : Relay.env :=
  Relay.Env (Relay.Config 600 0 cap "token")
            (fun line_n log_entry => pretty line_n +:+ ": " +:+ log_entry +:+ ";")
            (fun message_base log_rows _ => message_base +:+ " " +:+ log_rows)
            "Abort" "HTTP Request" 4321 0 77
            (fun n => inject_Z (Z.of_nat n))
            api.

(** A supervising process whose environment raises no error at start-up,
    with a child that is seen alive once and then terminated. *)
Definition supervisor (polls : list Supervisor.poll)
    (send_document : nat -> string -> nat -> option Supervisor.fault)
  : Supervisor.env :=
  Supervisor.Env 1 0 (fun n => inject_Z (Z.of_nat n)) None None None polls
                 send_document None [true; false] None None.

Definition TimedOut : Supervisor.fault :=
  Supervisor.Fault "telegram.error.TimedOut" "Timed out".

(** Sending the second file fails twice, then succeeds. *)
Definition second_file_fails_twice (i : nat) (file : string) (n : nat)
  : option Supervisor.fault :=
  if ((i =? 1) && (n <? 3))%nat then Some TimedOut else None.

(** Every attempt at sending the first file fails. *)
Definition first_file_fails (i : nat) (file : string) (n : nat)
  : option Supervisor.fault :=
  if (i =? 0)%nat then Some TimedOut else None.

Definition ValueError_boom : value :=
  VExc (Exn (ExceptionSubclass "ValueError") "boom").

Definition NetworkError : exn :=
  Exn (ExceptionSubclass "telegram.error.NetworkError") "timed out".

Definition BadRequest : exn :=
  Exn (ExceptionSubclass "telegram.error.BadRequest") "Message to edit not found".

(** Telegram answers every call: a new message gets the id 7, an edited
    message keeps its id (there is no message 0 to edit). *)
Definition api_ok (n : nat) (c : BotHandler.api_call) : outcome Z :=
  match BotHandler.call_method c with
  | BotHandler.send_message _ => Return 7
  | BotHandler.edit_message_text m => if m =? 0 then Raise BadRequest else Return m
  end.

(** The second call (the first edit) fails; a new message gets the id 7
    plus the number of the call. *)
Definition api_second_call_fails (n : nat) (c : BotHandler.api_call) : outcome Z :=
  if (n =? 1)%nat then Raise NetworkError
  else match BotHandler.call_method c with
       | BotHandler.send_message _ => Return (7 + Z.of_nat n)
       | BotHandler.edit_message_text m => Return m
       end.

(** Every call fails. *)
Definition api_down (n : nat) (c : BotHandler.api_call) : outcome Z :=
  Raise NetworkError.

End Examples.

Module Spec.

(** "remove(id) (idempotent: removing an absent id is a no-op, not an
    error)", read on [list_remove]. *)
Definition removal_is_idempotent_at (e : Watchdog.entry) (l : list Watchdog.entry)
  : Prop :=
  (forall y, y ∈ l -> Watchdog.entry_eqb y e = false) ->
  Watchdog.list_remove e l = Return l.

(** State in which a pass of the relay loop leaves the thread. *)
Definition state_of (r : Relay.step) : Relay.state :=
  match r with
  | Relay.Continue st => st
  | Relay.Break st => st
  | Relay.Raised _ st => st
  end.

Definition is_Continue (r : Relay.step) : bool :=
  match r with Relay.Continue _ => true | _ => false end.

Definition is_Raised (r : Relay.step) : bool :=
  match r with Relay.Raised _ _ => true | _ => false end.

(** "done / done-interrupted / done-error": the template that the spec
    gives to each termination marker. *)
Definition terminal_template (marker : value) : string :=
  match marker with
  | VNone => "log_message_done"
  | VExc e =>
      if decide (exn_class e = KeyboardInterrupt)
      then "log_message_done_interrupted"
      else "log_message_done_error"
  | _ => "log_message_done_error"
  end.

(** The calls to [send_safe] in a trace of the relay: the API method of
    each and what [send_safe] gave back. *)
Definition sends (t : list Relay.event)
  : list (BotHandler.api_method * outcome (option Z)) :=
  omap (fun e => match e with
                 | Relay.Send _ c r => Some (BotHandler.call_method c, r)
                 | _ => None
                 end) t.

Definition is_create (x : BotHandler.api_method * outcome (option Z)) : bool :=
  match x with
  | (BotHandler.send_message _, Return (Some _)) => true
  | _ => false
  end.

Definition is_failure (x : BotHandler.api_method * outcome (option Z)) : bool :=
  match x with
  | (_, Return None) => true
  | _ => false
  end.

(** Outbound messages created, and flushes that failed. *)
Definition created (t : list Relay.event) : nat :=
  length (filter (fun x => is_create x = true) (sends t)).

Definition failed (t : list Relay.event) : nat :=
  length (filter (fun x => is_failure x = true) (sends t)).



(** "at most one outbound message per Job is ever created" *)
Definition at_most_one_message (t : list Relay.event) : Prop :=
  (created t <= 1)%nat.

(** "all subsequent updates edit that same message": the first call creates
    a message and every later call edits the message that the first call
    returned. *)
Definition single_message (l : list (BotHandler.api_method * outcome (option Z)))
  : Prop :=
  match l with
  | [] => True
  | (c, x) :: tl =>
      c = BotHandler.send_message None /\
      Forall (fun y => exists m, x = Return (Some m) /\
                                 fst y = BotHandler.edit_message_text m) tl
  end.

(** The Bot API as Telegram runs it: message ids are not 0, and a
    successful edit returns the message it edited. *)
Definition telegram_like (w : Relay.env) : Prop :=
  forall k c id, Relay.api w k c = Return id ->
    id <> 0 /\
    forall m, BotHandler.call_method c = BotHandler.edit_message_text m -> id = m.

(** A failing API call fails with an error, an instance of [Exception]. *)
Definition fails_with_errors (api : BotHandler.api_call -> outcome Z) : Prop :=
  forall c e, api c = Raise e -> is_Exception (exn_class e) = true.

(** The API method that a flush uses, by the value of [message_id]. *)
Definition method_for (id : option Z) : BotHandler.api_method :=
  if BotHandler.not_ id then BotHandler.send_message None
  else BotHandler.edit_message_text (default 0 id).

(** What a flush gave back, seen from Telegram. *)
Definition answered (w : Relay.env) (id : option Z) (x : outcome (option Z)) : Prop :=
  (forall m, x = Return (Some m) ->
     exists k c, Relay.api w k c = Return m /\ BotHandler.call_method c = method_for id) /\
  (forall e, x = Raise e -> is_Exception (exn_class e) = false) /\
  ((forall k, fails_with_errors (Relay.api w k)) -> exists y, x = Return y).

(** A pass either makes no call to [send_safe] and goes on, or makes one
    call, with the method that [message_id] selects; when the loop goes on
    after a call, [message_id] is what the call gave back. *)
Definition pass_effect (w : Relay.env) (st : Relay.state) (r : Relay.step) : Prop :=
  (is_Continue r = true /\
   sends (Relay.trace (state_of r)) = sends (Relay.trace st) /\
   Relay.message_id (state_of r) = Relay.message_id st)
  \/
  (exists x,
     sends (Relay.trace (state_of r)) =
       sends (Relay.trace st) ++ [(method_for (Relay.message_id st), x)] /\
     answered w (Relay.message_id st) x /\
     match r with
     | Relay.Continue st' => exists id, x = Return id /\ Relay.message_id st' = id
     | Relay.Break _ => exists id, x = Return id
     | Relay.Raised e _ => x = Raise e
     end).

(** While no flush fails, the calls to [send_safe] are one creation
    followed by edits of the message created. *)
Definition one_message_so_far (st : Relay.state) : Prop :=
  match Relay.message_id st with
  | None => sends (Relay.trace st) = []
  | Some m =>
      m <> 0 /\
      exists tl,
        sends (Relay.trace st) =
          (BotHandler.send_message None, Return (Some m)) :: tl /\
        Forall (fun y => fst y = BotHandler.edit_message_text m) tl
  end.

(** The state after the supervising process has done [l] more. *)
Definition extend (l : list Supervisor.event) (st : Supervisor.state)
  : Supervisor.state :=
  Supervisor.State (Supervisor.internal_logging_thread st) (Supervisor.temp_dir st)
                   (Supervisor.child_process st) (Supervisor.trace st ++ l)
                   (Supervisor.clock_reads st).

(** The same, with [n] more readings of the clock. *)
Definition advance (l : list Supervisor.event) (n : nat) (st : Supervisor.state)
  : Supervisor.state :=
  Supervisor.State (Supervisor.internal_logging_thread st) (Supervisor.temp_dir st)
                   (Supervisor.child_process st) (Supervisor.trace st ++ l)
                   (Supervisor.clock_reads st + n).

(** What the supervising process has put on the internal logging queue
    besides log records: the termination markers of the relay. *)
Definition puts (t : list Supervisor.event) : list value :=
  omap (fun e => match e with Supervisor.Put v => Some v | _ => None end) t.

(** Events other than a marker put on the queue and the cleanup. *)
Definition is_quiet (e : Supervisor.event) : bool :=
  match e with
  | Supervisor.Put _ | Supervisor.Cleanup => false
  | _ => true
  end.

(** The ways a job ends. *)
Inductive path :=
| Completed
| Interrupted
| Failed (reason : string).

(** How the job ended, as the markers tell the relay: [None] alone after
    normal completion, a [KeyboardInterrupt] first after an interrupt, the
    error first after a failure. *)
Definition path_of (t : list Supervisor.event) : option path :=
  match puts t with
  | [VNone] => Some Completed
  | [VExc e; VNone] =>
      if decide (exn_class e = KeyboardInterrupt) then Some Interrupted
      else Some (Failed (exn_msg e))
  | _ => None
  end.

Definition no_data : string := "Child process exited but doesn't return any data".

Definition wrong_type (v : value) : string :=
  "Child process exited but returning wrong type of data: " +:+ str_type v.

(** C4 as the spec words it: "a list leads to artifact delivery and normal
    completion; a KeyboardInterrupt leads to the interrupted path; an error
    value leads to the failure path with its reason recorded; and None is
    treated as a failure with a synthetic no-result reason".  No outcome is
    named for other values. *)
Definition claimed_path (v : value) : option path :=
  match v with
  | VList _ => Some Completed
  | VNone => Some (Failed no_data)
  | VExc e =>
      if decide (exn_class e = KeyboardInterrupt) then Some Interrupted
      else if is_Exception (exn_class e) then Some (Failed (exn_msg e))
      else None
  | _ => None
  end.

(** The outcome that the code gives to each value: the types are matched
    exactly, and a fifth branch takes every other value. *)
Definition path_for (v : value) : path :=
  match v with
  | VList _ => Completed
  | VNone => Failed no_data
  | VExc e =>
      match exn_class e with
      | KeyboardInterrupt => Interrupted
      | Exception => Failed (exn_msg e)
      | _ => Failed (wrong_type v)
      end
  | _ => Failed (wrong_type v)
  end.

(** The waiting loop receives [v] as its first value, and no interrupt
    is requested before. *)
Definition receives_first (w : Supervisor.env) (v : value) : Prop :=
  exists pre p post,
    Supervisor.polls w = pre ++ p :: post /\
    Supervisor.return_data p = Some v /\
    Forall (fun q => Supervisor.return_data q = None /\
                     Supervisor.interrupt_is_set q = false) pre.

(** Thread, temporary directory and child process start without error. *)
Definition starts (w : Supervisor.env) : Prop :=
  Supervisor.thread_start w = None /\
  Supervisor.temporary_directory w = None /\
  Supervisor.child_start w = None.

(** Attempt number [n] at sending the file at position [i]: the wait
    before the call, the call and, when the call fails, the two log lines
    and the wait of [RESEND_FILE_AFTER_TIME]. *)
Definition attempt (w : Supervisor.env) (i : nat) (file : string) (n : nat)
  : list Supervisor.event :=
  [Supervisor.Sleep (Supervisor.send_messages_interval w);
   Supervisor.SendDocument file]
  ++ match Supervisor.send_document w i file n with
     | None => []
     | Some f =>
         [Supervisor.Log (Supervisor.WarnErrorSendingFile (Supervisor.fault_msg f));
          Supervisor.Log (Supervisor.InfoRetrying Supervisor.RESEND_FILE_AFTER_TIME n);
          Supervisor.Sleep Supervisor.RESEND_FILE_AFTER_TIME]
     end.

(** The log line of the exhausted retries, present when attempt [k]
    failed. *)
Definition max_retries_logged (w : Supervisor.env) (i : nat) (file : string) (k : nat)
  : list Supervisor.event :=
  match Supervisor.send_document w i file k with
  | None => []
  | Some _ => [Supervisor.Log Supervisor.ErrorMaxRetries]
  end.

(** "attempt delivery to the owner; on failure, wait a fixed backoff
    interval and retry, up to a fixed maximum attempt count; after
    exhausting attempts, log the failure and continue": [seg] is the
    delivery of the file at position [i] in [k] attempts, of which the first
    [k - 1] failed; if the last one failed too, [k] is the maximum and the
    failure is logged. *)
Definition delivery_of (w : Supervisor.env) (i : nat) (file : string)
    (seg : list Supervisor.event) : Prop :=
  exists k : nat,
    (1 <= k <= Supervisor.MAX_FILES_RETRIES)%nat /\
    (forall n, (1 <= n < k)%nat -> is_Some (Supervisor.send_document w i file n)) /\
    (is_Some (Supervisor.send_document w i file k) ->
     k = Supervisor.MAX_FILES_RETRIES) /\
    seg = Supervisor.Log (Supervisor.InfoSending (Supervisor.basename file))
          :: concat (map (attempt w i file) (seq 1 (k - 1)))
          ++ attempt w i file k
          ++ max_retries_logged w i file k.

Definition quiet (l : list Supervisor.event) : Prop :=
  Forall (fun e => is_quiet e = true) l.

(** Calls to [send_document] in a piece of trace. *)
Definition is_send_document (e : Supervisor.event) : bool :=
  match e with Supervisor.SendDocument _ => true | _ => false end.

Definition attempts (l : list Supervisor.event) : nat :=
  length (filter (fun e => is_send_document e = true) l).

(** "Finished in ... seconds", logged in state [st]. *)
Definition finished (w : Supervisor.env) (st : Supervisor.state) : Supervisor.event :=
  Supervisor.Log (Supervisor.InfoFinished
                    (Supervisor.clock w (Supervisor.clock_reads st)
                     - Supervisor.time_started w)).

(** [n] passes of the waiting loop that found nothing. *)
Definition waits (n : nat) : list Supervisor.event :=
  replicate n (Supervisor.Sleep 0.1).

(** State when the waiting loop begins, after a start-up without error. *)
Definition started : Supervisor.state :=
  Supervisor.State true true true
    [Supervisor.Log Supervisor.InfoStartingLoggingHandler; Supervisor.ThreadStart;
     Supervisor.TemporaryDirectory; Supervisor.Log Supervisor.InfoStartingChild;
     Supervisor.ChildStart; Supervisor.Log Supervisor.InfoWaiting] 0.

Definition interrupted_marker : value := VExc (Exn KeyboardInterrupt EmptyString).

(** What the code after the [try] statement does in state [st]. *)
Definition closing (st : Supervisor.state) : list Supervisor.event :=
  Supervisor.Put VNone
  :: (if Supervisor.internal_logging_thread st
      then [Supervisor.ThreadJoin 10] else [])
  ++ (if Supervisor.temp_dir st then [Supervisor.Cleanup] else []).

Definition closing_all : list Supervisor.event :=
  [Supervisor.Put VNone; Supervisor.ThreadJoin 10; Supervisor.Cleanup].


(** The temporary directory exists once the thread has started and the
    directory has been created. *)
Definition created_temp_dir (w : Supervisor.env) : Prop :=
  Supervisor.thread_start w = None /\ Supervisor.temporary_directory w = None.

End Spec.

(** * Notions used by the further properties *)

Module Notions.

(** What a scan of the registry keeps, from [st] to [st']: the registry
    only loses entries, and none of a live process; events are only set;
    a [kill] is only issued for a registered live process at a reading of
    the clock, made during the scan, at which the process is past
    [process_timeout + EXIT_WAIT_TIME]. *)
Definition scan_keeps (w : Watchdog.env) (st st' : Watchdog.state) : Prop :=
  Watchdog.lms_downloader_processes st'
    `sublist_of` Watchdog.lms_downloader_processes st /\
  (forall y, y ∈ Watchdog.lms_downloader_processes st ->
             Watchdog.is_alive w (Watchdog.process y) = true ->
             y ∈ Watchdog.lms_downloader_processes st') /\
  Watchdog.events_set st ⊆ Watchdog.events_set st' /\
  (exists new,
     Watchdog.kills st' = Watchdog.kills st ++ new /\
     forall pid, pid ∈ new ->
       exists e n,
         e ∈ Watchdog.lms_downloader_processes st /\
         Watchdog.process e = pid /\
         Watchdog.is_alive w pid = true /\
         (Watchdog.clock_reads st <= n < Watchdog.clock_reads st')%nat /\
         (Watchdog.process_timeout w + Watchdog.EXIT_WAIT_TIME
          <= Watchdog.clock w n - Watchdog.time_started e)%Q) /\
  (Watchdog.clock_reads st <= Watchdog.clock_reads st')%nat.

(** The job [e] has been running for [d] seconds or more at every reading
    of the clock from the [r]-th on. *)
Definition running_for (w : Watchdog.env) (e : Watchdog.entry) (d : Q) (r : nat)
  : Prop :=
  forall n, (r <= n)%nat -> (d <= Watchdog.clock w n - Watchdog.time_started e)%Q.

(** Two live jobs started at time 0, seen at time 100 with a timeout of
    10 s. *)
Definition two_live_jobs : Watchdog.state :=
  Watchdog.State [Watchdog.Entry 0 1 101; Watchdog.Entry 0 2 102] ∅ [] [] 0 0.

Definition all_alive : Watchdog.env :=
  Watchdog.Env 10 (fun _ => 100%Q) (fun _ => true) (fun _ => false).

(** [c in s] *)
Fixpoint has_char (c : ascii) (s : string) : bool :=
  match s with
  | EmptyString => false
  | String a s' => Ascii.eqb a c || has_char c s'
  end.

Definition carriage_return : ascii := ascii_of_nat 13.

(** The first, and the last, character of [s] is not whitespace. *)
Definition starts_clean (s : string) : bool :=
  match s with
  | String c _ => negb (PyStr.is_space c)
  | EmptyString => false
  end.

Fixpoint ends_clean (s : string) : bool :=
  match s with
  | EmptyString => false
  | String c EmptyString => negb (PyStr.is_space c)
  | String _ s' => ends_clean s'
  end.

(** Every character of [s] is a decimal digit. *)
Fixpoint is_digits (s : string) : bool :=
  match s with
  | EmptyString => true
  | String c s' => bool_decide (is_Some (PyStr.digit c)) && is_digits s'
  end.

(** A field of a request as [bot_message] hands it on: not empty, without
    whitespace at either end, and without a line break inside. *)
Definition is_field (s : string) : Prop :=
  s <> EmptyString /\ PyStr.strip s = s /\
  has_char BotHandler.newline s = false /\ has_char carriage_return s = false.

(** A line break as a client sends it *)
Definition eol (crlf : bool) : string :=
  if crlf then String carriage_return (String BotHandler.newline EmptyString)
  else String BotHandler.newline EmptyString.

(** The header or the footer of a menu, as the rows it adds *)
Definition row_of {A} (buttons : option (list A)) : list (list A) :=
  match buttons with
  | Some (b :: bs) => [b :: bs]
  | _ => []
  end.

(** Escaping in one pass: a backslash goes before each character of
    [MARKDOWN_ESCAPE], and nothing else changes. *)
Definition is_special (c : ascii) : bool :=
  existsb (Ascii.eqb c) BotHandler.MARKDOWN_ESCAPE.

Fixpoint escape_each (s : string) : string :=
  match s with
  | EmptyString => EmptyString
  | String c s' =>
      if is_special c
      then String BotHandler.backslash (String c (escape_each s'))
      else String c (escape_each s')
  end.

(** The passes of [start_bot] after which the loop goes round again: a
    return of [run_polling] without the stop handler, and a
    [NetworkError]. *)
Definition restarts (is_NetworkError : exc_class -> bool) (p : Handlers.polling)
  : bool :=
  match p with
  | Handlers.Returned stopped => negb stopped
  | Handlers.Failed e =>
      negb (is_interrupt (exn_class e)) && is_NetworkError (exn_class e)
  end.

(** How long the loop sleeps after such a pass *)
Definition delay (p : Handlers.polling) : Q :=
  match p with
  | Handlers.Returned _ => 1
  | Handlers.Failed _ => Handlers.BOT_RESTART_ON_NETWORK_ERROR
  end.

(** How the loop ends at a pass after which it does not go round again *)
Definition ending (p : Handlers.polling) : outcome unit :=
  match p with
  | Handlers.Returned _ => Return ()
  | Handlers.Failed e =>
      if is_interrupt (exn_class e) || is_Exception (exn_class e)
      then Return () else Raise e
  end.

Definition builds (l : list Handlers.bot_event) : nat :=
  length (List.filter
            (fun e => match e with Handlers.Build => true | _ => false end) l).

Definition sleeps (l : list Handlers.bot_event) : list Q :=
  omap (fun e => match e with Handlers.BotSleep q => Some q | _ => None end) l.

(** The buttons under a message that the relay sends *)
Definition buttons_of (e : Relay.event) : list BotHandler.button :=
  match e with
  | Relay.Send _ call _ => concat (default [] (BotHandler.call_reply_markup call))
  | _ => []
  end.

(** Every button of the trace carries the callback data of the abort
    button of this job. *)
Definition aborts (w : Relay.env) (t : list Relay.event) : Prop :=
  forall e b, e ∈ t -> b ∈ buttons_of e ->
    BotHandler.callback_data b = "abort_" +:+ pretty (Relay.pid w).

(** The records that the relay has put on the main logging queue *)
Definition forwards (t : list Relay.event) : list value :=
  omap (fun e => match e with Relay.Forward v => Some v | _ => None end) t.

(** The log records among what the relay got from the internal queue *)
Definition records (gets : list (option value)) : list value :=
  omap (fun got => match got with
                   | Some (VLogRecord m) => Some (VLogRecord m)
                   | _ => None
                   end) gets.

(** The message of a record that goes into the user's message: one that
    does not begin with [TELEGRAM_LOGS_IGNORE_PREFIX] *)
Definition shown_line (w : Relay.env) (got : option value) : option string :=
  match got with
  | Some (VLogRecord m) =>
      if String.prefix (Relay.TELEGRAM_LOGS_IGNORE_PREFIX w) m then None else Some m
  | _ => None
  end.

Definition shown (w : Relay.env) (gets : list (option value)) : list string :=
  omap (shown_line w) gets.

(** The lines of the log, numbered from [n], one after the other *)
Fixpoint numbered (w : Relay.env) (n : Z) (msgs : list string) : string :=
  match msgs with
  | [] => EmptyString
  | m :: msgs => Relay.log_message_format w n m +:+ numbered w (n + 1) msgs
  end.

(** The last [cap] characters of [s], all of [s] if it is shorter *)
Definition tail_of (cap : Z) (s : string) : string :=
  Relay.drop_chars (String.length s - Z.to_nat cap) s.

(** A bot whose configuration accepts every link, with Telegram answering
    every call. *)
Definition any_link : Handlers.env :=
  Handlers.Env (fun _ => Return true) "Wrong link"
               (fun e => "Wrong message: " +:+ e) (fun _ => Return 1).

(** The classes that derive from [telegram.error.NetworkError], by
    name. *)
Definition is_NetworkError (c : exc_class) : bool :=
  match c with
  | ExceptionSubclass name =>
      String.eqb name "telegram.error.NetworkError"
      || String.eqb name "telegram.error.TimedOut"
      || String.eqb name "telegram.error.BadRequest"
  | _ => false
  end.

(** A pass of the waiting loop that finds neither data nor a request to
    stop *)
Definition idle (q : Supervisor.poll) : Prop :=
  Supervisor.return_data q = None /\ Supervisor.interrupt_is_set q = false.

(** The waiting loop finds the interrupt event set before any data has
    come. *)
Definition interrupted_first (w : Supervisor.env) : Prop :=
  exists pre p post,
    Supervisor.polls w = pre ++ p :: post /\
    Supervisor.return_data p = None /\
    Supervisor.interrupt_is_set p = true /\
    Forall idle pre.

(** The first of the three start-up steps that fails *)
Definition first_fault (w : Supervisor.env) : option Supervisor.fault :=
  match Supervisor.thread_start w with
  | Some f => Some f
  | None =>
      match Supervisor.temporary_directory w with
      | Some f => Some f
      | None => Supervisor.child_start w
      end
  end.


(** A supervising process that cannot create its temporary directory. *)
Definition no_temp_dir : Supervisor.env :=
  Supervisor.Env 1 0 (fun n => inject_Z (Z.of_nat n)) None
                 (Some (Supervisor.Fault "OSError" "No space left on device")) None
                 [] (fun _ _ _ => None) None [true; false] None None.

(** The child was seen alive [k + 1] times, the last time more than
    [CHILD_PROCESS_MAX_TERMINATE_TIME] after the timer was started at the
    [r]-th reading of the clock. *)
Definition outlived_grace (w : Supervisor.env) (r k : nat) : Prop :=
  Supervisor.child_is_alive w !! k = Some true /\
  (forall j, (j < k)%nat -> Supervisor.child_is_alive w !! j = Some true) /\
  ~ (Supervisor.clock w (S r + k) - Supervisor.clock w r
     <= Supervisor.CHILD_PROCESS_MAX_TERMINATE_TIME)%Q.

(** A supervising process that is told to stop at the second pass, with a
    child that does not go away. *)
Definition stubborn_child : Supervisor.env :=
  Supervisor.Env 1 0 (fun n => inject_Z (Z.of_nat n)) None None None
                 [Supervisor.Poll None false; Supervisor.Poll None true]
                 (fun _ _ _ => None) None [true; true; true] None None.

(** The calls of [interrupt_process] among what a handler does, and the
    registry after they are made *)
Definition interrupts (l : list Handlers.action) : list Z :=
  omap (fun a => match a with
                 | Handlers.InterruptProcess pid => Some pid
                 | _ => None
                 end) l.

Definition after_interrupts (w : Watchdog.env) (l : list Handlers.action)
    (st : Watchdog.state) : Watchdog.state :=
  fold_left (fun st pid => Watchdog.interrupt_process w pid st) (interrupts l) st.

(** The registry with the job whose relay is [Examples.relay] *)
Definition one_job : Watchdog.state :=
  Watchdog.State [Watchdog.Entry 0 4321 9] ∅ [] [] 0 0.









End Notions.
(** * Properties *)

(** ** The watchdog and its registry *)

Module WatchdogProps.

Import Watchdog.

Lemma entry_eqb_refl (e : entry) : entry_eqb e e = true.
Proof.
  unfold entry_eqb.
  rewrite !Z.eqb_refl, !andb_true_r.
  apply Qeq_bool_iff. reflexivity.
Qed.

(** An item read from the list can be removed from it. *)
Lemma list_remove_present (l : list entry) (i : nat) (e : entry) :
  l !! i = Some e ->
  exists l', list_remove e l = Return l' /\ length l = S (length l').
Proof.
  revert i. induction l as [|y l IH]; intros i Hi; [discriminate|].
  simpl. destruct (entry_eqb y e) eqn:Hy; [eauto|].
  destruct i as [|i]; simpl in Hi.
  - injection Hi as ->. rewrite entry_eqb_refl in Hy. discriminate.
  - destruct (IH _ Hi) as (l' & -> & Hlen). simpl. eexists. split; [reflexivity|].
    simpl. lia.
Qed.

Lemma list_remove_absent (l : list entry) (e : entry) :
  (forall y, y ∈ l -> entry_eqb y e = false) ->
  list_remove e l = Raise ValueError.
Proof.
  induction l as [|y l IH]; intros H; [reflexivity|].
  simpl. rewrite (H y) by (left). rewrite IH; [reflexivity|].
  intros z Hz. apply H. by right.
Qed.

(** The body of the [for] statement, run on an item read from the list,
    does not raise, and the list does not grow. *)
Lemma check_process_returns (w : env) (st : state) (i : nat) (e : entry) :
  lms_downloader_processes st !! i = Some e ->
  exists st', check_process w e st = Return st' /\
    (length (lms_downloader_processes st') <= length (lms_downloader_processes st))%nat.
Proof.
  intros Hi. unfold check_process.
  destruct (is_alive w (process e)); simpl.
  - destruct (Qle_bool _ _); [|eauto].
    destruct (Qle_bool _ _); [|destruct (is_set _ _); simpl; eauto].
    unfold try_kill.
    destruct (is_set _ _), (kill_raises _ _); simpl; eauto.
  - destruct (list_remove_present _ _ _ Hi) as (l' & -> & Hlen). simpl.
    eexists. split; [reflexivity|]. simpl. lia.
Qed.

Lemma for_each_process_returns (w : env) (fuel i : nat) (st : state) :
  (length (lms_downloader_processes st) - i < fuel)%nat ->
  exists st', for_each_process fuel w i st = Some (Return st').
Proof.
  revert i st. induction fuel as [|fuel IH]; intros i st Hfuel; [lia|].
  simpl. destruct (lms_downloader_processes st !! i) as [e|] eqn:Hi; [|eauto].
  destruct (check_process_returns w st i e Hi) as (st' & -> & Hlen).
  apply IH. apply lookup_lt_Some in Hi. lia.
Qed.

(** The fuel given to the [for] statement is enough, and the statement
    raises nothing. *)
Lemma check_processes_returns (w : env) (st : state) :
  exists st', check_processes w st = Some (Return st').
Proof. apply for_each_process_returns. lia. Qed.

Lemma is_set_true (st : state) (ev : Z) : is_set st ev = true <-> ev ∈ events_set st.
Proof. unfold is_set. apply bool_decide_eq_true. Qed.

Lemma events_set_try_kill (w : env) (pid : Z) (st : state) :
  events_set (try_kill w pid st) = events_set st.
Proof. unfold try_kill. by destruct (kill_raises w pid). Qed.

Lemma kills_try_kill (w : env) (pid : Z) (st : state) :
  kills (try_kill w pid st) = kills st ++ [pid].
Proof. unfold try_kill. by destruct (kill_raises w pid). Qed.

(** A live process that the loop does reach is interrupted at its deadline
    and killed [EXIT_WAIT_TIME] later. *)
Lemma check_process_escalates (w : env) (e : entry) (st : state) :
  is_alive w (process e) = true ->
  (process_timeout w <= clock w (clock_reads st) - time_started e)%Q ->
  exists st', check_process w e st = Return st' /\
    is_set st' (interrupt_event e) = true /\
    ((process_timeout w + EXIT_WAIT_TIME
      <= clock w (S (clock_reads st)) - time_started e)%Q ->
     process e ∈ kills st').
Proof.
  intros Halive Hdue. unfold check_process. rewrite Halive. simpl.
  apply Qle_bool_iff in Hdue. rewrite Hdue.
  destruct (is_set _ (interrupt_event e)) eqn:Hset; simpl;
    destruct (Qle_bool (process_timeout w + EXIT_WAIT_TIME) _) eqn:Hkill;
    (eexists; split; [reflexivity|]); split.
  all: try (intros Hle; apply Qle_bool_iff in Hle; congruence).
  all: try (intros _; rewrite kills_try_kill; set_solver).
  all: apply is_set_true; rewrite ?events_set_try_kill; simpl.
  all: try (apply is_set_true in Hset; exact Hset).
  all: set_solver.
Qed.

(** C1, at an input where the code departs from it: a pass over
    [finished_job; overdue_job].  The second job is registered, alive,
    past its deadline and past the grace window, and its interrupt event is
    unset; the pass removes the first job, which moves the second one under
    the index the iterator has already passed, and ends without setting the
    event of the second job and without killing its process. *)
Theorem watchdog_pass_skips_job_after_removed_one :
  Examples.overdue_job ∈ lms_downloader_processes Examples.two_jobs /\
  is_alive Examples.late (process Examples.overdue_job) = true /\
  is_set Examples.two_jobs (interrupt_event Examples.overdue_job) = false /\
  (process_timeout Examples.late + EXIT_WAIT_TIME
   <= clock Examples.late 0 - time_started Examples.overdue_job)%Q /\
  exists st',
    watchdog_pass Examples.late true Examples.two_jobs = Some (Return (st', false)) /\
    lms_downloader_processes st' = [Examples.overdue_job] /\
    is_set st' (interrupt_event Examples.overdue_job) = false /\
    kills st' = [].
Proof.
  split; [set_solver|].
  split; [reflexivity|].
  split; [by vm_compute|].
  split; [by vm_compute|].
  eexists. split; [vm_compute; reflexivity|].
  repeat split; by vm_compute.
Qed.

(** The same job is reached by the next pass of the loop. *)
Lemma watchdog_next_pass_reaches_skipped_job :
  exists st,
    _processes_watchdog_loop [(Examples.late, true); (Examples.late, true)]
                             Examples.two_jobs = Some (Return st) /\
    is_set st (interrupt_event Examples.overdue_job) = true /\
    kills st = [process Examples.overdue_job].
Proof.
  eexists. split; [vm_compute; reflexivity|].
  split; by vm_compute.
Qed.

(** C8 as stated fails: removing [finished_job] from a registry that does
    not hold it (here after its first removal, the empty registry) raises
    [ValueError]. *)
Lemma second_removal_raises :
  Watchdog.list_remove Examples.finished_job [Examples.finished_job] = Return [] /\
  ~ Spec.removal_is_idempotent_at Examples.finished_job [].
Proof.
  split; [reflexivity|].
  intros H. unfold Spec.removal_is_idempotent_at in H.
  assert (Hr : list_remove Examples.finished_job [] = Return [])
    by (apply H; intros y Hy; inversion Hy).
  discriminate Hr.
Qed.

(** C8, amended: [list.remove] of an entry that the registry does not hold
    raises [ValueError]; the watchdog, the only code that removes, removes
    entries that it has just read from the registry, so that the [for]
    statement of a pass never raises. *)
Theorem removal_raises_when_absent_and_watchdog_removes_present
    (w : env) (st : state) (e : entry) (l : list entry)
    (Habsent : forall y, y ∈ l -> entry_eqb y e = false) :
  list_remove e l = Raise ValueError /\
  (forall i e', lms_downloader_processes st !! i = Some e' ->
     exists l', list_remove e' (lms_downloader_processes st) = Return l' /\
                length (lms_downloader_processes st) = S (length l')) /\
  exists st', check_processes w st = Some (Return st').
Proof.
  split; [by apply list_remove_absent|].
  split; [intros i e' Hi; eapply list_remove_present; eauto|].
  apply check_processes_returns.
Qed.

Lemma removal_raises_when_absent_witness :
  list_remove Examples.finished_job [Examples.overdue_job] = Raise ValueError /\
  (forall i e', lms_downloader_processes Examples.two_jobs !! i = Some e' ->
     exists l', list_remove e' (lms_downloader_processes Examples.two_jobs) = Return l' /\
                length (lms_downloader_processes Examples.two_jobs) = S (length l')) /\
  exists st', check_processes Examples.late Examples.two_jobs = Some (Return st').
Proof.
  apply (removal_raises_when_absent_and_watchdog_removes_present
           Examples.late Examples.two_jobs Examples.finished_job
           [Examples.overdue_job]).
  intros y Hy. apply list_elem_of_singleton in Hy. subst y. reflexivity.
Defined.

End WatchdogProps.

(** ** [send_safe] *)

Module BotHandlerProps.

Import BotHandler.

Lemma send_safe_returns (api : api_call -> outcome Z) (a : args) :
  Spec.fails_with_errors api ->
  fst (send_safe api a) =
  Return (match api (request a) with Return id => Some id | Raise _ => None end).
Proof.
  intros Herr. unfold send_safe.
  destruct (api (request a)) as [id|e] eqn:Hapi; [reflexivity|].
  by rewrite (Herr _ _ Hapi).
Qed.

(** What [send_safe] lets through is never an instance of [Exception]. *)
Lemma send_safe_raises_no_error (api : api_call -> outcome Z) (a : args) (e : exn) :
  fst (send_safe api a) = Raise e -> is_Exception (exn_class e) = false.
Proof.
  unfold send_safe. destruct (api (request a)) as [id|e']; [discriminate|].
  destruct (is_Exception (exn_class e')) eqn:He; simpl; [discriminate|].
  by intros [= <-].
Qed.

End BotHandlerProps.

(** ** The log relay *)

Module RelayProps.

Import Relay.
Import Spec.

(** *** The buffer and its cap *)

Lemma length_drop_chars (n : nat) (s : string) :
  String.length (drop_chars n s) = (String.length s - n)%nat.
Proof.
  revert s. induction n as [|n IH]; intros s; simpl; [lia|].
  destruct s as [|c s]; simpl; [reflexivity|apply IH].
Qed.

Lemma drop_chars_suffix (n : nat) (s : string) :
  exists p, s = p +:+ drop_chars n s.
Proof.
  revert s. induction n as [|n IH]; intros s; simpl; [by exists EmptyString|].
  destruct s as [|c s]; [by exists EmptyString|].
  destruct (IH s) as [p Hp]. exists (String c p). change (String c s = String c (p +:+ drop_chars n s)). by f_equal.
Qed.

(** Whatever the cap, what is kept is a suffix of the buffer. *)
Lemma prevent_overflow_suffix (cap : Z) (s : string) :
  exists p, s = p +:+ prevent_overflow cap s.
Proof.
  unfold prevent_overflow, slice_from.
  destruct (_ >? cap); [apply drop_chars_suffix|by exists EmptyString].
Qed.

(** With a positive cap, a buffer longer than the cap is cut to its last
    [cap] characters, and a shorter one is kept. *)
Lemma prevent_overflow_length (cap : Z) (s : string) :
  0 < cap ->
  Z.of_nat (String.length (prevent_overflow cap s)) =
  Z.min cap (Z.of_nat (String.length s)).
Proof.
  intros Hcap. unfold prevent_overflow, slice_from.
  destruct (Z.of_nat (String.length s) >? cap) eqn:Hlen.
  - rewrite length_drop_chars.
    assert ((- cap <? 0) = true) as -> by lia.
    lia.
  - lia.
Qed.

(** With the cap 0 the slice is [log_rows[-0:]], the whole buffer. *)
Lemma prevent_overflow_zero (s : string) : prevent_overflow 0 s = s.
Proof.
  unfold prevent_overflow, slice_from. simpl.
  destruct (Z.of_nat (String.length s) >? 0); [|reflexivity].
  by rewrite Z.min_l by lia.
Qed.

(** *** One flush *)

Lemma send_message_effect (w : env) (id : option Z) (rows base : string)
    (st : state) :
  exists c r st',
    _send_message w id rows base st = (r, st') /\
    trace st' = trace st ++ [Send base c r] /\
    BotHandler.call_method c =
      (if BotHandler.not_ id then BotHandler.send_message None
       else BotHandler.edit_message_text (default 0 id)) /\
    (forall m, r = Return (Some m) -> exists k, api w k c = Return m) /\
    (forall e, r = Raise e -> is_Exception (exn_class e) = false) /\
    ((forall k, Spec.fails_with_errors (api w k)) -> exists x, r = Return x) /\
    log_rows st' = log_rows st /\
    message_id st' = message_id st /\
    last_time_sent st' = last_time_sent st.
Proof.
  unfold _send_message.
  destruct (String.eqb base "log_message"); simpl;
    (do 3 eexists; split; [reflexivity|]; simpl;
     split; [reflexivity|]; split; [reflexivity|]).
  all: split; [intros m Hm; eexists; unfold BotHandler.send_safe in Hm;
               destruct (api w _ _) as [i|e] eqn:Ha;
               [simpl in Hm; injection Hm as ->; exact Ha
               |destruct (is_Exception _); discriminate]|].
  all: split; [intros e; apply BotHandlerProps.send_safe_raises_no_error|].
  all: split; [intros Herr; eexists;
               apply BotHandlerProps.send_safe_returns, Herr|].
  all: done.
Qed.

Lemma sends_app (t u : list event) : Spec.sends (t ++ u) = Spec.sends t ++ Spec.sends u.
Proof. apply omap_app. Qed.

Lemma sends_sleep (t : list event) (d : Q) : Spec.sends (t ++ [Sleep d]) = Spec.sends t.
Proof. rewrite sends_app. simpl. apply app_nil_r. Qed.

Lemma sends_forward (t : list event) (v : value) :
  Spec.sends (t ++ [Forward v]) = Spec.sends t.
Proof. rewrite sends_app. simpl. apply app_nil_r. Qed.

Lemma send_when_due_effect (w : env) (st : state) :
  pass_effect w st (send_when_due w st) /\
  log_rows (Spec.state_of (send_when_due w st)) = log_rows st /\
  Spec.is_Continue (send_when_due w st) || Spec.is_Raised (send_when_due w st) = true.
Proof.
  unfold send_when_due. cbn -[_send_message Qle_bool].
  destruct (Qle_bool _ _).
  - match goal with
    | |- context [_send_message ?w ?i ?r ?b ?s] =>
        destruct (send_message_effect w i r b s)
          as (c & x & st' & -> & Htr & Hc & Hm & He & Hr & Hrows & Hid & _)
    end.
    simpl in *.
    destruct x as [id|e]; simpl.
    + split; [|by split].
      right. exists (Return id). simpl.
      rewrite sends_sleep, Htr, sends_app. simpl.
      rewrite Hc. split; [reflexivity|]. split; [|eauto].
      split; [|split]; [|done|done].
      intros m Hm'. destruct (Hm m Hm') as [k Hk]. exists k, c. by rewrite Hc.
    + split; [|by split].
      right. exists (Raise e). simpl. rewrite Htr, sends_app. simpl.
      rewrite Hc. split; [reflexivity|]. split; [|reflexivity].
      split; [|split]; [|done|done].
      intros m Hm'. discriminate.
  - simpl. split; [|done]. left. simpl. by rewrite sends_sleep.
Qed.

Lemma marker_is_not_record (v : value) :
  is_None v || negb (type_is v LogRecord) = true <-> type_of v <> LogRecord.
Proof.
  unfold type_is. destruct v; simpl; split; try done.
Qed.

Lemma terminal_template_chosen (v : value) :
  type_of v <> LogRecord ->
  (if is_None v then "log_message_done"
   else if type_is v (ExcClass KeyboardInterrupt)
        then "log_message_done_interrupted"
        else "log_message_done_error") = Spec.terminal_template v.
Proof.
  intros Hv. destruct v as [| | |[c m]|]; simpl; try done.
  unfold type_is. simpl. destruct c; simpl; try done.
Qed.

(** The pass that takes a termination marker from the queue. *)
Lemma iteration_marker (w : env) (v : value) (st : state) :
  type_of v <> LogRecord ->
  exists c x st',
    trace st' = trace st ++ [Sleep (send_messages_interval (cfg w));
                             Send (Spec.terminal_template v) c x] /\
    BotHandler.call_method c = method_for (message_id st) /\
    answered w (message_id st) x /\
    log_rows st' = log_rows st /\
    iteration w (Some v) st =
      match x with
      | Return _ => Break st'
      | Raise e => Raised e st'
      end.
Proof.
  intros Hv. unfold iteration.
  rewrite (proj2 (marker_is_not_record v) Hv), (terminal_template_chosen v Hv).
  match goal with
  | |- context [_send_message ?w ?i ?r ?b ?s] =>
      destruct (send_message_effect w i r b s)
        as (c & x & st' & -> & Htr & Hc & Hm & He & Hr & Hrows & Hid & _)
  end.
  simpl in *. exists c, x, st'.
  split; [by rewrite Htr, <- app_assoc|].
  split; [exact Hc|]. split.
  { split; [|split]; [|done|done].
    intros m Hm'. destruct (Hm m Hm') as [k Hk]. by exists k, c. }
  split; [exact Hrows|]. by destruct x.
Qed.

Lemma iteration_effect (w : env) (got : option value) (st : state) :
  pass_effect w st (iteration w got st).
Proof.
  destruct got as [v|]; [|apply send_when_due_effect].
  destruct (decide (type_of v = LogRecord)) as [Hrec|Hmark].
  - unfold iteration.
    destruct (is_None v || negb (type_is v LogRecord)) eqn:Hcond.
    { apply marker_is_not_record in Hcond. done. }
    destruct (String.prefix _ _).
    + left. simpl. by rewrite sends_forward.
    + match goal with
      | |- pass_effect _ _ (send_when_due _ ?s) =>
          destruct (send_when_due_effect w s) as [H _]; revert H
      end.
      unfold pass_effect. simpl. by rewrite !sends_forward.
  - destruct (iteration_marker w v st Hmark)
      as (c & x & st' & Htr & Hc & Hans & _ & ->).
    right. exists x. split.
    { destruct x; simpl; rewrite Htr, sends_app; simpl; by rewrite Hc. }
    split; [exact Hans|]. destruct x; eauto.
Qed.

(** *** The loop *)





Lemma terminal_template_is_terminal (v : value) :
  String.eqb (Spec.terminal_template v) "log_message" = false.
Proof. destruct v as [| | |[c m]|]; simpl; try done. by destruct (decide _). Qed.

(** *** Messages created *)

Lemma counts_snoc (t t' : list event)
    (y : BotHandler.api_method * outcome (option Z)) :
  Spec.sends t' = Spec.sends t ++ [y] ->
  Spec.created t' = (Spec.created t + (if Spec.is_create y then 1 else 0))%nat /\
  Spec.failed t' = (Spec.failed t + (if Spec.is_failure y then 1 else 0))%nat.
Proof.
  intros H. unfold Spec.created, Spec.failed. rewrite H, !filter_app, !length_app.
  split; f_equal.
  - destruct (Spec.is_create y) eqn:Hy.
    + by rewrite filter_cons_True.
    + rewrite filter_cons_False; [done|]. by rewrite Hy.
  - destruct (Spec.is_failure y) eqn:Hy.
    + by rewrite filter_cons_True.
    + rewrite filter_cons_False; [done|]. by rewrite Hy.
Qed.

Lemma counts_same (t t' : list event) :
  Spec.sends t' = Spec.sends t ->
  Spec.created t' = Spec.created t /\ Spec.failed t' = Spec.failed t.
Proof. intros H. unfold Spec.created, Spec.failed. by rewrite H. Qed.

Lemma method_for_None : method_for None = BotHandler.send_message None.
Proof. reflexivity. Qed.

Lemma method_for_Some (m : Z) :
  m <> 0 -> method_for (Some m) = BotHandler.edit_message_text m.
Proof.
  intros Hm. unfold method_for. simpl.
  by destruct (Z.eqb_spec m 0).
Qed.

Lemma answered_id (w : env) (id : option Z) (x : outcome (option Z)) (m : Z) :
  Spec.telegram_like w -> answered w id x -> x = Return (Some m) ->
  m <> 0 /\ forall i, id = Some i -> i <> 0 -> m = i.
Proof.
  intros Htg (Hm & _) Hx. destruct (Hm m Hx) as (k & c & Hapi & Hc).
  destruct (Htg k c m Hapi) as [Hne Hedit]. split; [exact Hne|].
  intros i -> Hi. apply Hedit. by rewrite Hc, method_for_Some.
Qed.

Lemma loop_failed_mono (w : env) (gets : list (option value)) (st : state) :
  (Spec.failed (trace st) <= Spec.failed (trace (Spec.state_of (loop w gets st))))%nat.
Proof.
  revert st. induction gets as [|got gets IH]; intros st; [simpl; lia|].
  cbn [loop].
  destruct (iteration_effect w got st) as [(Hc & Hs & _)|(x & Hs & _ & Hr)].
  - destruct (iteration w got st) as [st'| |]; try discriminate. simpl in Hs.
    destruct (counts_same _ _ Hs) as [_ <-]. apply IH.
  - destruct (counts_snoc _ _ _ Hs) as [_ Hf].
    destruct (iteration w got st) as [st'|st'|e st']; simpl in *; [|lia|lia].
    etrans; [|apply IH]. lia.
Qed.

(** The number of messages created is at most one more than the number of
    failed flushes. *)
Lemma loop_created_bound (w : env) (gets : list (option value)) (st : state) :
  Spec.telegram_like w ->
  (forall m, message_id st = Some m -> m <> 0) ->
  (Spec.created (trace st) + match message_id st with Some _ => 0 | None => 1 end
   <= 1 + Spec.failed (trace st))%nat ->
  (Spec.created (trace (Spec.state_of (loop w gets st)))
   <= 1 + Spec.failed (trace (Spec.state_of (loop w gets st))))%nat.
Proof.
  intros Htg. revert st. induction gets as [|got gets IH]; intros st Hid Hinv.
  { simpl. destruct (message_id st); lia. }
  cbn [loop].
  destruct (iteration_effect w got st) as [(Hc & Hs & Hm)|(x & Hs & Hans & Hr)].
  - destruct (iteration w got st) as [st'| |]; try discriminate.
    cbn [Spec.state_of] in *.
    destruct (counts_same _ _ Hs) as [Hcr Hfa].
    apply IH; rewrite ?Hm, ?Hcr, ?Hfa; done.
  - destruct (counts_snoc _ _ _ Hs) as [Hcr Hfa].
    assert (Hcreate : Spec.is_create (method_for (message_id st), x) = true ->
                      message_id st = None).
    { destruct (message_id st) as [m|]; [|done].
      rewrite method_for_Some by auto. by destruct x as [[]|]. }
    assert (Hfinal : (Spec.created (trace st)
                      + (if Spec.is_create (method_for (message_id st), x)
                         then 1 else 0)
                      <= 1 + (Spec.failed (trace st)
                              + (if Spec.is_failure (method_for (message_id st), x)
                                 then 1 else 0)))%nat).
    { destruct (Spec.is_create _) eqn:E; [rewrite (Hcreate eq_refl) in Hinv|];
        destruct (message_id st); lia. }
    destruct (iteration w got st) as [st'|st'|e st']; cbn [Spec.state_of] in *;
      [|by rewrite Hcr, Hfa..].
    destruct Hr as (id & Hx & Hid').
    apply IH.
    + intros m Hm. rewrite Hid' in Hm. rewrite Hm in Hx.
      by destruct (answered_id w _ _ m Htg Hans Hx).
    + rewrite Hcr, Hfa, Hid', Hx.
      destruct (message_id st) as [m|] eqn:Hmid.
      * rewrite method_for_Some by auto. destruct id; simpl; lia.
      * rewrite method_for_None. destruct id; simpl; lia.
Qed.

Lemma loop_single_message (w : env) (gets : list (option value)) (st : state) :
  Spec.telegram_like w ->
  one_message_so_far st ->
  Spec.failed (trace (Spec.state_of (loop w gets st))) = 0%nat ->
  Spec.single_message (Spec.sends (trace (Spec.state_of (loop w gets st)))).
Proof.
  intros Htg. revert st. induction gets as [|got gets IH]; intros st Hinv Hok.
  { cbn [loop Spec.state_of] in *. unfold one_message_so_far in Hinv.
    destruct (message_id st) as [m|]; [|by rewrite Hinv].
    destruct Hinv as (_ & tl & -> & Htl). simpl. split; [done|].
    eapply Forall_impl; [exact Htl|]. intros y Hy. by exists m. }
  revert Hok. cbn [loop].
  pose proof (loop_failed_mono w gets) as Hmono.
  destruct (iteration_effect w got st) as [(Hc & Hs & Hm)|(x & Hs & Hans & Hr)].
  - destruct (iteration w got st) as [st'| |]; try discriminate.
    cbn [Spec.state_of] in *.
    apply IH. unfold one_message_so_far in *. by rewrite Hm, Hs.
  - destruct (counts_snoc _ _ _ Hs) as [_ Hfa].
    assert (Hfinal : forall s, Spec.sends (trace s) =
                       Spec.sends (trace st) ++ [(method_for (message_id st), x)] ->
                     Spec.single_message (Spec.sends (trace s))).
    { intros s ->. unfold one_message_so_far in Hinv.
      destruct (message_id st) as [m|].
      - destruct Hinv as (Hm & tl & -> & Htl). simpl. split; [done|].
        apply Forall_app. split.
        + eapply Forall_impl; [exact Htl|]. intros y Hy. by exists m.
        + constructor; [|constructor]. exists m. by rewrite method_for_Some.
      - rewrite Hinv. simpl. by split. }
    destruct (iteration w got st) as [st'|st'|e st']; cbn [Spec.state_of] in *;
      [|intros _; by apply Hfinal..].
    destruct Hr as (id & Hx & Hid'). intros Hok.
    specialize (Hmono st'). rewrite Hok, Hfa, Hx in Hmono.
    destruct id as [m'|]; [|simpl in Hmono; lia].
    apply IH; [|exact Hok].
    destruct (answered_id w _ _ m' Htg Hans Hx) as [Hne Hsame].
    unfold one_message_so_far in *. rewrite Hid', Hs, Hx.
    destruct (message_id st) as [m|].
    + destruct Hinv as (Hm & tl & -> & Htl).
      assert (m' = m) as -> by (by apply Hsame).
      split; [done|]. exists (tl ++ [(method_for (Some m), Return (Some m))]).
      split; [done|]. apply Forall_app. split; [done|].
      constructor; [|constructor]. by rewrite method_for_Some.
    + rewrite Hinv. split; [done|]. exists []. by split.
Qed.


(** C3 as stated fails: the first flush creates message 7, the second flush
    (an edit of 7) fails, [send_safe] returns [None], which becomes
    [message_id], and the third flush creates a second message. *)
Lemma failed_edit_creates_second_message :
  let t := trace (Spec.state_of (logs_to_message_loop
                    (Examples.relay 4000 Examples.api_second_call_fails)
                    [None; None; None])) in
  Spec.sends t = [(BotHandler.send_message None, Return (Some 7));
                  (BotHandler.edit_message_text 7, Return None);
                  (BotHandler.send_message None, Return (Some 9))] /\
  ~ Spec.at_most_one_message t.
Proof.
  split; [by vm_compute|].
  unfold Spec.at_most_one_message. vm_compute. lia.
Qed.

Lemma initial_one_message (w : env) : one_message_so_far (initial w).
Proof. reflexivity. Qed.

(** C3, amended.  With the Bot API as Telegram runs it, over every run of
    the relay loop: the messages created are at most one more than the
    flushes that failed (a failed flush leaves [None] in [message_id], and
    the next flush creates a message again); when no flush fails, at most
    one message is created, by the first flush, and every later flush,
    terminal or not, edits the message that the first flush returned; a
    terminal template is never the progress template. *)
Theorem one_message_unless_a_flush_fails (w : env) (gets : list (option value))
    (Htg : Spec.telegram_like w) :
  let t := trace (Spec.state_of (logs_to_message_loop w gets)) in
  (Spec.created t <= 1 + Spec.failed t)%nat /\
  (Spec.failed t = 0%nat ->
   Spec.at_most_one_message t /\ Spec.single_message (Spec.sends t)) /\
  (forall marker, Spec.terminal_template marker <> "log_message").
Proof.
  intros t.
  assert (Hbound : (Spec.created t <= 1 + Spec.failed t)%nat).
  { apply loop_created_bound; [exact Htg|done|]. simpl. reflexivity. }
  split; [exact Hbound|]. split.
  - intros Hok. split.
    + unfold Spec.at_most_one_message. lia.
    + apply loop_single_message; [exact Htg|apply initial_one_message|exact Hok].
  - intros marker H. pose proof (terminal_template_is_terminal marker) as Hne.
    rewrite H in Hne. discriminate.
Qed.

Lemma api_ok_telegram_like (cap : Z) :
  Spec.telegram_like (Examples.relay cap Examples.api_ok).
Proof.
  intros k c id. simpl. unfold Examples.api_ok.
  destruct (BotHandler.call_method c) as [r|m] eqn:Hc.
  - intros [= <-]. split; [done|]. intros m' Hm'. discriminate.
  - destruct (Z.eqb_spec m 0); [discriminate|]. intros [= <-].
    split; [done|]. by intros m' [= ->].
Defined.

Lemma one_message_unless_a_flush_fails_witness :
  let t := trace (Spec.state_of (logs_to_message_loop
                    (Examples.relay 4000 Examples.api_ok)
                    [None; Some (VLogRecord "Logging in"); None; Some VNone])) in
  (Spec.created t <= 1 + Spec.failed t)%nat /\
  (Spec.failed t = 0%nat ->
   Spec.at_most_one_message t /\ Spec.single_message (Spec.sends t)) /\
  (forall marker, Spec.terminal_template marker <> "log_message").
Proof.
  apply (one_message_unless_a_flush_fails
           (Examples.relay 4000 Examples.api_ok)
           [None; Some (VLogRecord "Logging in"); None; Some VNone]).
  apply api_ok_telegram_like.
Defined.


(** *** The buffer along the loop *)

Lemma append_empty_r (s : string) : s +:+ EmptyString = s.
Proof.
  induction s as [|c s IH]; [reflexivity|].
  change (String c (s +:+ EmptyString) = String c s). by f_equal.
Qed.

(** A pass appends at most one rendered line and keeps a suffix of the
    result; with a positive cap, a buffer within the cap stays within it. *)
Lemma iteration_log_rows (w : env) (got : option value) (st : state) :
  exists line p,
    log_rows st +:+ line = p +:+ log_rows (Spec.state_of (iteration w got st)) /\
    (0 < max_log_symbols (cfg w) ->
     Z.of_nat (String.length (log_rows st)) <= max_log_symbols (cfg w) ->
     Z.of_nat (String.length (log_rows (Spec.state_of (iteration w got st))))
     <= max_log_symbols (cfg w)).
Proof.
  assert (Hsame : forall st',
            log_rows st' = log_rows st ->
            exists line p,
              log_rows st +:+ line = p +:+ log_rows st' /\
              (0 < max_log_symbols (cfg w) ->
               Z.of_nat (String.length (log_rows st)) <= max_log_symbols (cfg w) ->
               Z.of_nat (String.length (log_rows st')) <= max_log_symbols (cfg w))).
  { intros st' ->. exists EmptyString, EmptyString.
    by rewrite append_empty_r. }
  destruct got as [v|];
    [|apply Hsame; apply send_when_due_effect].
  destruct (decide (type_of v = LogRecord)) as [Hrec|Hmark].
  - unfold iteration.
    destruct (is_None v || negb (type_is v LogRecord)) eqn:Hcond.
    { apply marker_is_not_record in Hcond. done. }
    destruct (String.prefix _ _); [by apply Hsame|].
    match goal with
    | |- context [send_when_due w ?s] =>
        destruct (send_when_due_effect w s) as (_ & -> & _)
    end.
    cbn [log_rows set_log_rows emit].
    exists (log_message_format w (line_n st) (message_of v)).
    destruct (prevent_overflow_suffix (max_log_symbols (cfg w))
                (log_rows st +:+ log_message_format w (line_n st) (message_of v)))
      as [p Hp].
    exists p. split; [exact Hp|].
    intros Hcap _. rewrite prevent_overflow_length by exact Hcap. lia.
  - destruct (iteration_marker w v st Hmark) as (c & x & st' & _ & _ & _ & Hrows & ->).
    apply Hsame. by destruct x.
Qed.

(** With a positive cap the buffer holds at most [cap] characters after
    every pass of the loop. *)
Lemma loop_within_cap (w : env) (gets : list (option value)) (st : state) :
  0 < max_log_symbols (cfg w) ->
  Z.of_nat (String.length (log_rows st)) <= max_log_symbols (cfg w) ->
  Z.of_nat (String.length (log_rows (Spec.state_of (loop w gets st))))
  <= max_log_symbols (cfg w).
Proof.
  intros Hcap. revert st. induction gets as [|got gets IH]; intros st Hst; [exact Hst|].
  cbn [loop].
  destruct (iteration_log_rows w got st) as (line & p & _ & Hlen).
  specialize (Hlen Hcap Hst).
  destruct (iteration w got st) as [st'|st'|e st']; cbn [Spec.state_of] in *;
    [by apply IH|done|done].
Qed.

(** C2, at an input where the code departs from it: with
    [max_log_symbols = 0] the slice is [log_rows[-0:]], the whole buffer, so
    that nothing is ever cut; after one log record the buffer holds 14
    characters, more than the cap. *)
Theorem zero_cap_keeps_whole_buffer :
  (forall s, prevent_overflow 0 s = s) /\
  max_log_symbols (cfg (Examples.relay 0 Examples.api_ok)) = 0 /\
  exists st,
    logs_to_message_loop (Examples.relay 0 Examples.api_ok)
      [Some (VLogRecord "Logging in")] = Continue st /\
    log_rows st = "1: Logging in;" /\
    Z.of_nat (String.length (log_rows st))
    > max_log_symbols (cfg (Examples.relay 0 Examples.api_ok)).
Proof.
  split; [apply prevent_overflow_zero|]. split; [reflexivity|].
  eexists. split; [vm_compute; reflexivity|]. split; [reflexivity|]. by vm_compute.
Qed.

(** *** What [send_safe] lets through *)









End RelayProps.

(** ** The supervising process *)

Module SupervisorProps.

Import Supervisor.
Import Spec.

(** *** Artifact delivery *)

Lemma extend_extend (l l' : list event) (st : state) :
  Spec.extend l' (Spec.extend l st) = Spec.extend (l ++ l') st.
Proof. unfold Spec.extend. simpl. by rewrite app_assoc. Qed.

Lemma extend_nil (st : state) : Spec.extend [] st = st.
Proof. destruct st. unfold Spec.extend. simpl. by rewrite app_nil_r. Qed.

Lemma run_emit (e : event) (st : state) : run (emit e) st = (Done (), Spec.extend [e] st).
Proof. reflexivity. Qed.

Lemma run_bind {A B} (m : M A) (k : A -> M B) (st : state) :
  run (m ≫= k) st =
  match run m st with
  | (Done a, st') => run (k a) st'
  | (Raised e, st') => (Raised e, st')
  | (Pending, st') => (Pending, st')
  end.
Proof. reflexivity. Qed.

(** The [try] statement of one attempt: it waits, calls, and on an error
    logs and waits again; its value tells whether the call succeeded. *)
Lemma run_attempt (w : env) (i : nat) (file : string) (n : nat) (st : state) :
  run (try_except
         (emit (Sleep (send_messages_interval w)) ;;
          call (SendDocument file) (send_document w i file n) ;;
          mret true)
         (except_Exception (fun e =>
            emit (Log (WarnErrorSendingFile (exn_msg e))) ;;
            emit (Log (InfoRetrying RESEND_FILE_AFTER_TIME n)) ;;
            emit (Sleep RESEND_FILE_AFTER_TIME) ;;
            mret false))) st
  = (Done (bool_decide (send_document w i file n = None)),
     Spec.extend (Spec.attempt w i file n) st).
Proof.
  unfold Spec.attempt, try_except, call, Spec.extend.
  destruct (send_document w i file n) as [f|]; simpl.
  - by rewrite <- !app_assoc.
  - by rewrite <- !app_assoc.
Qed.

(** The loop started with [retries_count] attempts made and enough fuel
    ends after some attempt [k], within the bound. *)
Lemma run_send_loop (w : env) (i : nat) (file : string) (fuel retries_count : nat)
    (st : state) :
  (retries_count + fuel = MAX_FILES_RETRIES)%nat ->
  (retries_count < MAX_FILES_RETRIES)%nat ->
  exists k,
    (retries_count < k <= MAX_FILES_RETRIES)%nat /\
    (forall n, (retries_count < n < k)%nat -> is_Some (send_document w i file n)) /\
    (is_Some (send_document w i file k) -> k = MAX_FILES_RETRIES) /\
    run (send_loop fuel w i file retries_count) st =
      (Done (),
       Spec.extend
         (concat (map (Spec.attempt w i file)
                      (seq (S retries_count) (k - S retries_count)))
          ++ Spec.attempt w i file k ++ max_retries_logged w i file k) st).
Proof.
  revert retries_count st.
  induction fuel as [|fuel IH]; intros rc st Hfuel Hrc; [lia|].
  cbn [send_loop]. rewrite run_bind, run_attempt.
  destruct (send_document w i file (S rc)) as [f|] eqn:Hsend.
  - rewrite bool_decide_eq_false_2 by done.
    destruct (MAX_FILES_RETRIES <=? S rc)%nat eqn:Hmax.
    + apply Nat.leb_le in Hmax. exists (S rc).
      split; [lia|]. split; [intros n Hn; lia|]. split; [intros _; lia|].
      rewrite run_emit, extend_extend. unfold max_retries_logged.
      rewrite Hsend, Nat.sub_diag. reflexivity.
    + apply Nat.leb_gt in Hmax.
      destruct (IH (S rc) (Spec.extend (Spec.attempt w i file (S rc)) st))
        as (k & Hk & Hfailed & Hlast & ->); [lia|lia|].
      exists k. split; [lia|]. split.
      { intros n Hn. destruct (decide (n = S rc)) as [->|Hne].
        - by rewrite Hsend.
        - apply Hfailed. lia. }
      split; [exact Hlast|].
      rewrite extend_extend. do 2 f_equal.
      replace (k - S rc)%nat with (S (k - S (S rc))) by lia.
      cbn [seq map concat]. by rewrite <- app_assoc.
  - rewrite bool_decide_eq_true_2 by done.
    exists (S rc). split; [lia|]. split; [intros n Hn; lia|].
    split; [rewrite Hsend; by intros [? ?]|].
    unfold max_retries_logged. rewrite Hsend, Nat.sub_diag. simpl.
    by rewrite app_nil_r.
Qed.

Lemma run_send_file (w : env) (i : nat) (file : string) (st : state) :
  exists seg,
    Spec.delivery_of w i file seg /\
    run (send_file w i file) st = (Done (), Spec.extend seg st).
Proof.
  destruct (run_send_loop w i file MAX_FILES_RETRIES 0
              (Spec.extend [Log (InfoSending (basename file))] st))
    as (k & Hk & Hfailed & Hlast & Hrun); [reflexivity|unfold MAX_FILES_RETRIES; lia|].
  eexists. split.
  - exists k. split; [lia|]. split; [intros n Hn; apply Hfailed; lia|].
    split; [exact Hlast|]. reflexivity.
  - unfold send_file. rewrite run_bind, run_emit, Hrun, extend_extend.
    unfold max_retries_logged. reflexivity.
Qed.

Lemma run_send_files (w : env) (files : list string) (i : nat) (st : state) :
  exists segs,
    run (send_files w i files) st = (Done (), Spec.extend (concat segs) st) /\
    length segs = length files /\
    forall j file seg,
      files !! j = Some file -> segs !! j = Some seg ->
      Spec.delivery_of w (i + j) file seg.
Proof.
  revert i st. induction files as [|file files IH]; intros i st.
  - exists []. simpl. rewrite extend_nil. by split.
  - cbn [send_files]. rewrite run_bind.
    destruct (run_send_file w i file st) as (seg & Hseg & ->).
    destruct (IH (S i) (Spec.extend seg st)) as (segs & -> & Hlen & Hsegs).
    exists (seg :: segs). rewrite extend_extend. split; [reflexivity|].
    split; [simpl; lia|].
    intros [|j] file' seg'; simpl.
    + intros [= <-] [= <-]. by rewrite Nat.add_0_r.
    + intros Hf Hs. rewrite Nat.add_succ_r. by apply (Hsegs j).
Qed.

Lemma attempts_app (l l' : list event) : attempts (l ++ l') = (attempts l + attempts l')%nat.
Proof. unfold attempts. by rewrite filter_app, length_app. Qed.





(** *** Traces *)

Lemma extend_advance (l : list event) (st : state) :
  Spec.extend l st = Spec.advance l 0 st.
Proof. unfold Spec.extend, Spec.advance. by rewrite Nat.add_0_r. Qed.

Lemma advance_advance (l l' : list event) (n n' : nat) (st : state) :
  Spec.advance l' n' (Spec.advance l n st) = Spec.advance (l ++ l') (n + n') st.
Proof. unfold Spec.advance. simpl. by rewrite app_assoc, Nat.add_assoc. Qed.

Lemma quiet_puts (l : list event) : quiet l -> Spec.puts l = [].
Proof.
  induction 1 as [|e l He _ IH]; [reflexivity|].
  destruct e; try discriminate He; exact IH.
Qed.

Lemma quiet_no_cleanup (l : list event) : quiet l -> Cleanup ∉ l.
Proof.
  intros Hq Hin. unfold quiet in Hq. rewrite Forall_forall in Hq.
  by specialize (Hq _ Hin).
Qed.

Lemma puts_app (t u : list event) : Spec.puts (t ++ u) = Spec.puts t ++ Spec.puts u.
Proof. apply omap_app. Qed.

Lemma quiet_attempt (w : env) (i : nat) (file : string) (n : nat) :
  quiet (Spec.attempt w i file n).
Proof.
  unfold Spec.attempt, quiet. destruct (send_document w i file n); repeat constructor.
Qed.

Lemma quiet_delivery (w : env) (i : nat) (file : string) (seg : list event) :
  Spec.delivery_of w i file seg -> quiet seg.
Proof.
  intros (k & _ & _ & _ & ->). unfold quiet.
  constructor; [reflexivity|]. apply Forall_app. split.
  - apply Forall_concat, Forall_map, Forall_true. intros n. apply quiet_attempt.
  - apply Forall_app. split; [apply quiet_attempt|].
    unfold max_retries_logged.
    destruct (send_document w i file k); repeat constructor.
Qed.

Lemma quiet_deliveries (w : env) (files : list string) (segs : list (list event)) :
  length segs = length files ->
  (forall j file seg, files !! j = Some file -> segs !! j = Some seg ->
                      Spec.delivery_of w j file seg) ->
  quiet (concat segs).
Proof.
  intros Hlen Hsegs. apply Forall_concat, Forall_lookup. intros j seg Hj.
  destruct (files !! j) as [file|] eqn:Hf.
  - eapply quiet_delivery, Hsegs; eauto.
  - apply lookup_ge_None in Hf. apply lookup_lt_Some in Hj. lia.
Qed.

(** *** The value received *)

Lemma run_check_list (w : env) (files : list string) (st : state) :
  exists segs,
    run (check_return_data w (VList files)) st =
      (Done (), Spec.advance (concat segs ++ [finished w st]) 1 st) /\
    length segs = length files /\
    forall j file seg,
      files !! j = Some file -> segs !! j = Some seg ->
      Spec.delivery_of w j file seg.
Proof.
  destruct (run_send_files w files 0 st) as (segs & Hrun & Hlen & Hsegs).
  exists segs. split; [|by split].
  unfold check_return_data, type_is. cbn [type_of items_of].
  rewrite !bool_decide_eq_false_2 by done.
  rewrite bool_decide_eq_true_2 by done.
  rewrite run_bind, Hrun. cbn. unfold Spec.advance, finished.
  by rewrite <- app_assoc, Nat.add_1_r.
Qed.

Lemma run_check_raises (w : env) (v : value) (st : state) :
  type_of v <> list_ ->
  run (check_return_data w v) st =
    (Raised
       match v with
       | VNone => Exn Exception Spec.no_data
       | VExc e =>
           match exn_class e with
           | KeyboardInterrupt =>
               Exn KeyboardInterrupt "Keyboard interrupt from child process"
           | Exception => e
           | _ => Exn Exception (Spec.wrong_type v)
           end
       | _ => Exn Exception (Spec.wrong_type v)
       end, st).
Proof.
  intros Hv. unfold check_return_data, type_is.
  destruct v as [|l|m|[c msg]|n]; try done; try destruct c; reflexivity.
Qed.

(** *** Waiting for the value *)

Lemma run_wait_loop_first (w : env) (pre post : list poll) (p : poll) (v : value)
    (st : state) :
  return_data p = Some v ->
  Forall (fun q => return_data q = None /\ interrupt_is_set q = false) pre ->
  run (wait_loop w (pre ++ p :: post)) st =
  run (check_return_data w v) (Spec.extend (waits (length pre)) st).
Proof.
  intros Hp Hpre. revert st. induction Hpre as [|q pre [Hq1 Hq2] _ IH]; intros st.
  - simpl. rewrite Hp. by rewrite extend_nil.
  - cbn [app wait_loop]. rewrite Hq1, Hq2, run_bind, run_emit, IH, extend_extend.
    reflexivity.
Qed.

Lemma run_try_body_starts (w : env) :
  Spec.starts w ->
  run (try_body w) initial = run (wait_loop w (polls w)) started.
Proof.
  intros (H1 & H2 & H3). unfold try_body, call. rewrite H1, H2, H3. reflexivity.
Qed.

(** *** The clauses of the [try] statement and the code after it *)

Lemma advance_nil (st : state) : Spec.advance [] 0 st = st.
Proof. by rewrite <- extend_advance, extend_nil. Qed.

Lemma run_time (w : env) (st : state) :
  run (time w) st = (Done (clock w (clock_reads st)), Spec.advance [] 1 st).
Proof.
  unfold Spec.advance. simpl. by rewrite app_nil_r, Nat.add_1_r.
Qed.

Lemma run_emit_advance (e : event) (st : state) :
  run (emit e) st = (Done (), Spec.advance [e] 0 st).
Proof. by rewrite run_emit, extend_advance. Qed.

Lemma is_Exception_fault (f : fault) : is_Exception (exn_class (exn_of_fault f)) = true.
Proof. reflexivity. Qed.

Lemma is_interrupt_fault (f : fault) : is_interrupt (exn_class (exn_of_fault f)) = false.
Proof. reflexivity. Qed.

(** The loop that waits for the child ends normally or by the error of
    [child_process.kill()], unless the child is never seen terminated. *)
Lemma terminate_loop_effect (w : env) (timer : Q) (alive : list bool) (st : state) :
  exists r l n,
    run (terminate_loop w timer alive) st = (r, Spec.advance l n st) /\
    quiet l /\
    (r = Done () \/ (exists f, r = Raised (exn_of_fault f)) \/
     (r = Pending /\ false ∉ alive)).
Proof.
  revert st. induction alive as [|a alive IH]; intros st.
  - exists Pending, [], 0%nat. rewrite advance_nil. split; [reflexivity|].
    split; [constructor|]. right. right. split; [reflexivity|]. by intros ?%elem_of_nil.
  - cbn [terminate_loop]. destruct a; cbn [negb].
    + rewrite run_bind, run_time.
      destruct (Qle_bool _ _); cbn [negb].
      * destruct (IH (Spec.advance [] 1 st)) as (r & l & n & -> & Hq & Hr).
        exists r, l, (1 + n)%nat. rewrite advance_advance. split; [reflexivity|].
        split; [exact Hq|].
        destruct Hr as [Hr|[Hr|[Hr Hnot]]]; [by left|by right; left|].
        right. right. split; [exact Hr|].
        intros [Hin|Hin]%elem_of_cons; [discriminate|done].
      * rewrite run_bind, run_emit_advance, advance_advance. unfold call.
        rewrite run_bind, run_emit_advance, advance_advance.
        destruct (child_kill w) as [f|].
        -- eexists _, _, _. split; [reflexivity|]. split; [repeat constructor|].
           right. left. by exists f.
        -- eexists _, _, _. split; [reflexivity|]. split; [repeat constructor|].
           by left.
    + rewrite run_emit_advance. eexists _, _, _. split; [reflexivity|].
      split; [repeat constructor|]. by left.
Qed.

(** The interrupt clause ends normally, its last two actions being the
    log line and the marker, unless it is still waiting for the child. *)
Lemma run_try_except_Exception {A} (m : M A) (h : exn -> M A) (st : state) :
  run (try_except m (except_Exception h)) st =
  match run m st with
  | (Raised e, st') =>
      if is_Exception (exn_class e) then run (h e) st' else (Raised e, st')
  | r => r
  end.
Proof.
  unfold try_except, except_Exception. cbn [run].
  destruct (run m st) as [[a|e|] st']; try reflexivity.
  by destruct (is_Exception (exn_class e)).
Qed.

Lemma run_call (e : event) (f : option fault) (st : state) :
  run (call e f) st =
  (match f with
   | None => Done ()
   | Some f => Raised (exn_of_fault f)
   end, Spec.advance [e] 0 st).
Proof.
  unfold call. rewrite run_bind, run_emit_advance. by destruct f.
Qed.

Lemma run_ret {A} (a : A) (st : state) : run (mret a) st = (Done a, st).
Proof. reflexivity. Qed.

Ltac run_steps :=
  repeat first
    [ rewrite run_bind
    | rewrite run_ret
    | rewrite run_emit_advance
    | rewrite run_call
    | rewrite run_time
    | rewrite advance_advance
    | rewrite is_Exception_fault
    | progress cbn beta iota ].

Lemma on_interrupt_effect (w : env) (st : state) :
  exists r l n,
    run (on_interrupt w) st = (r, Spec.advance l n st) /\
    ((r = Done () /\
      exists l1, l = l1 ++ [Log ErrorParentInterrupted; Put interrupted_marker] /\
                 quiet l1) \/
     (r = Pending /\ quiet l /\ false ∉ child_is_alive w)).
Proof.
  assert (Hdone : forall l1 n,
            quiet l1 ->
            exists r l n',
              (Done (), Spec.advance
                          (l1 ++ [Log ErrorParentInterrupted] ++ [Put interrupted_marker])
                          n st)
              = (r, Spec.advance l n' st) /\
              ((r = Done () /\
                exists l1, l = l1 ++ [Log ErrorParentInterrupted; Put interrupted_marker] /\
                           quiet l1) \/
               (r = Pending /\ quiet l /\ false ∉ child_is_alive w))).
  { intros l1 n Hq. eexists _, _, _. split; [reflexivity|]. left.
    split; [reflexivity|]. by exists l1. }
  unfold on_interrupt. rewrite run_bind. cbn [get run].
  destruct (child_process st).
  - rewrite !run_bind, run_time, run_try_except_Exception. run_steps.
    destruct (os_kill w) as [f|]; run_steps.
    + rewrite ?app_assoc, <- (app_assoc _ [Log ErrorParentInterrupted]).
      apply Hdone. repeat constructor.
    + match goal with
      | |- context [run (terminate_loop w ?t ?a) ?s] =>
          destruct (terminate_loop_effect w t a s) as (r & l & n & -> & Hq & Hr)
      end.
      destruct Hr as [->|[[f ->]|[-> Hnot]]]; run_steps.
      * rewrite ?app_assoc, <- (app_assoc _ [Log ErrorParentInterrupted]).
        apply Hdone. apply Forall_app. split; [repeat constructor|exact Hq].
      * rewrite ?app_assoc, <- (app_assoc _ [Log ErrorParentInterrupted]).
        apply Hdone. apply Forall_app. split; [|repeat constructor].
        apply Forall_app. split; [repeat constructor|exact Hq].
      * eexists _, _, _. split; [reflexivity|]. right. split; [reflexivity|].
        split; [|exact Hnot].
        apply Forall_app. split; [repeat constructor|exact Hq].
  - run_steps. apply (Hdone [] _). constructor.
Qed.

Lemma run_on_error (e : exn) (st : state) :
  run (on_error e) st =
  (Done (), Spec.advance [Log (ErrorError (exn_msg e)); Put (VExc e)] 0 st).
Proof.
  unfold on_error. by rewrite run_bind, !run_emit_advance, advance_advance.
Qed.

Lemma run_finish (w : env) (st : state) :
  run (finish w) st = (Done (), Spec.advance (closing st) 0 st).
Proof.
  unfold finish, closing, try_except, call, Spec.advance.
  destruct st as [th td cp tr n].
  destruct th, td, (thread_join w); cbn; by rewrite ?Nat.add_0_r, <- ?app_assoc.
Qed.

(** *** Every run *)

Ltac no_cleanup Hin :=
  repeat (apply elem_of_cons in Hin as [Hin|Hin]; [discriminate Hin|]);
  by apply elem_of_nil in Hin.




Lemma run_try_except {A} (m : M A) (h : exn -> option (M A)) (st : state) :
  run (try_except m h) st =
  match run m st with
  | (Raised e, st') =>
      match h e with
      | Some k => run k st'
      | None => (Raised e, st')
      end
  | r => r
  end.
Proof.
  unfold try_except. cbn [run]. by destruct (run m st) as [[a|e|] st'].
Qed.



(** *** The run that receives a value *)

Lemma process_after_body (w : env) (r : flow ()) (st : state) :
  run (try_body w) initial = (r, st) ->
  _lms_downloader_process w =
  match r with
  | Done _ => run (finish w) st
  | Raised e =>
      match handlers w e with
      | Some k => run (k ;; finish w) st
      | None => (Raised e, st)
      end
  | Pending => (Pending, st)
  end.
Proof.
  intros H. unfold _lms_downloader_process.
  rewrite run_bind, run_try_except, H.
  destruct r as [[]|e|]; try reflexivity.
  destruct (handlers w e); [|reflexivity]. by rewrite run_bind.
Qed.

Lemma try_body_receives (w : env) (v : value) :
  Spec.starts w -> Spec.receives_first w v ->
  exists n,
    run (try_body w) initial =
    run (check_return_data w v) (Spec.extend (waits n) started).
Proof.
  intros Hstart (pre & p & post & Hpolls & Hp & Hpre).
  exists (length pre).
  rewrite (run_try_body_starts w Hstart), Hpolls.
  by apply run_wait_loop_first.
Qed.

(** The run that ends in the error clause. *)
Lemma process_fails (w : env) (e : exn) (n : nat) :
  is_interrupt (exn_class e) = false -> is_Exception (exn_class e) = true ->
  run (try_body w) initial = (Raised e, Spec.extend (waits n) started) ->
  exists st,
    _lms_downloader_process w = (Done (), st) /\
    trace st = trace started ++ waits n
               ++ [Log (ErrorError (exn_msg e)); Put (VExc e)] ++ closing_all.
Proof.
  intros Hint Herr Hrun. rewrite (process_after_body w _ _ Hrun).
  unfold handlers. rewrite Hint, Herr, run_bind, run_on_error, run_finish.
  eexists. split; [reflexivity|]. simpl. by rewrite <- !app_assoc.
Qed.

(** The run that ends in the interrupt clause. *)
Lemma process_is_interrupted (w : env) (e : exn) (n : nat) :
  is_interrupt (exn_class e) = true ->
  false ∈ child_is_alive w ->
  run (try_body w) initial = (Raised e, Spec.extend (waits n) started) ->
  exists st l,
    _lms_downloader_process w = (Done (), st) /\
    quiet l /\
    trace st = trace started ++ waits n ++ l
               ++ [Log ErrorParentInterrupted; Put interrupted_marker]
               ++ closing_all.
Proof.
  intros Hint Halive Hrun. rewrite (process_after_body w _ _ Hrun).
  unfold handlers. rewrite Hint, run_bind.
  destruct (on_interrupt_effect w (Spec.extend (waits n) started))
    as (r & l & k & -> & Hl).
  destruct Hl as [[-> (l1 & -> & Hq1)]|(_ & _ & Hnot)]; [|done].
  rewrite run_finish. eexists _, l1. split; [reflexivity|]. split; [exact Hq1|].
  simpl. by rewrite <- !app_assoc.
Qed.

(** The run that delivers the files. *)
Lemma process_completes (w : env) (files : list string) (n : nat) :
  run (try_body w) initial =
    run (check_return_data w (VList files)) (Spec.extend (waits n) started) ->
  exists st segs,
    _lms_downloader_process w = (Done (), st) /\
    length segs = length files /\
    (forall j file seg, files !! j = Some file -> segs !! j = Some seg ->
                        Spec.delivery_of w j file seg) /\
    trace st = trace started ++ waits n ++ concat segs
               ++ [finished w (Spec.extend (waits n) started)] ++ closing_all.
Proof.
  intros Hrun.
  destruct (run_check_list w files (Spec.extend (waits n) started))
    as (segs & Hcheck & Hlen & Hsegs).
  rewrite Hcheck in Hrun. rewrite (process_after_body w _ _ Hrun), run_finish.
  eexists _, segs. split; [reflexivity|]. split; [exact Hlen|].
  split; [exact Hsegs|]. simpl. by rewrite <- !app_assoc.
Qed.

Lemma quiet_waits (n : nat) : quiet (waits n).
Proof. apply Forall_replicate. reflexivity. Qed.

Lemma quiet_started : quiet (trace started).
Proof. repeat constructor. Qed.

Lemma puts_before (n : nat) (l : list event) :
  Spec.puts (trace started ++ waits n ++ l) = Spec.puts l.
Proof.
  by rewrite !puts_app, (quiet_puts _ quiet_started), (quiet_puts _ (quiet_waits n)).
Qed.

Lemma delivery_sends (w : env) (i : nat) (file : string) (seg : list event) :
  Spec.delivery_of w i file seg -> SendDocument file ∈ seg.
Proof.
  intros (k & _ & _ & _ & ->). right. apply elem_of_app. right.
  apply elem_of_app. left. unfold Spec.attempt. right. left.
Qed.

Lemma process_fails_with (w : env) (v : value) (e : exn) :
  Spec.starts w -> Spec.receives_first w v ->
  (forall st, run (check_return_data w v) st = (Raised e, st)) ->
  is_interrupt (exn_class e) = false -> is_Exception (exn_class e) = true ->
  exists st,
    _lms_downloader_process w = (Done (), st) /\
    Spec.puts (trace st) = [VExc e; VNone] /\
    Log (ErrorError (exn_msg e)) ∈ trace st.
Proof.
  intros Hstart Hrecv Hcheck Hint Herr.
  destruct (try_body_receives w v Hstart Hrecv) as [n Hrun].
  rewrite Hcheck in Hrun.
  destruct (process_fails w e n Hint Herr Hrun) as (st & Hst & Htr).
  exists st. split; [exact Hst|]. rewrite Htr. split.
  - by rewrite puts_before.
  - apply elem_of_app. right. apply elem_of_app. right. left.
Qed.

Lemma path_of_failed (t : list event) (e : exn) :
  Spec.puts t = [VExc e; VNone] -> exn_class e <> KeyboardInterrupt ->
  Spec.path_of t = Some (Spec.Failed (exn_msg e)).
Proof.
  intros Hputs Hne. unfold Spec.path_of. rewrite Hputs.
  by destruct (decide (exn_class e = KeyboardInterrupt)).
Qed.

(** C4 as stated fails: a [ValueError] on the return channel is an error
    value, but the reason recorded is the synthetic "wrong type of data"
    one, not its own. *)
Lemma subclass_error_reason_is_not_recorded :
  Spec.claimed_path Examples.ValueError_boom = Some (Spec.Failed "boom") /\
  exists st,
    _lms_downloader_process
      (Examples.supervisor [Poll None false; Poll (Some Examples.ValueError_boom) false]
                           Examples.first_file_fails) = (Done (), st) /\
    Spec.path_of (trace st) =
      Some (Spec.Failed
              "Child process exited but returning wrong type of data: <class 'ValueError'>") /\
    Spec.path_of (trace st) <> Spec.claimed_path Examples.ValueError_boom.
Proof.
  split; [reflexivity|]. eexists. split; [vm_compute; reflexivity|].
  split; [by vm_compute|]. vm_compute. discriminate.
Qed.

(** C4, amended.  When the process has started and [v] is the first value
    on the return channel, the process returns, and [v] decides how, in one
    of five ways: a list is delivered file by file and the job completes; a
    value of type exactly [KeyboardInterrupt] takes the interrupt clause;
    a value of type exactly [Exception] takes the error clause with its own
    reason; [None] takes the error clause with the "doesn't return any data"
    reason; every other value, instances of subclasses of [Exception]
    included, takes the error clause with the "wrong type of data" reason. *)
Theorem return_data_decides_the_outcome (w : env) (v : value)
    (Hstart : Spec.starts w) (Hrecv : Spec.receives_first w v)
    (Hchild : false ∈ child_is_alive w) :
  exists st,
    _lms_downloader_process w = (Done (), st) /\
    Spec.path_of (trace st) = Some (Spec.path_for v) /\
    (forall reason, Spec.path_for v = Spec.Failed reason ->
                    Log (ErrorError reason) ∈ trace st) /\
    (forall files file, v = VList files -> file ∈ files ->
                        SendDocument file ∈ trace st).
Proof.
  assert (Hfail : forall e,
            (forall st, run (check_return_data w v) st = (Raised e, st)) ->
            exn_class e = Exception ->
            Spec.path_for v = Spec.Failed (exn_msg e) ->
            (forall files, v <> VList files) ->
            exists st,
              _lms_downloader_process w = (Done (), st) /\
              Spec.path_of (trace st) = Some (Spec.path_for v) /\
              (forall reason, Spec.path_for v = Spec.Failed reason ->
                              Log (ErrorError reason) ∈ trace st) /\
              (forall files file, v = VList files -> file ∈ files ->
                                  SendDocument file ∈ trace st)).
  { intros e Hcheck Hcls Hpath Hnl.
    destruct (process_fails_with w v e Hstart Hrecv Hcheck)
      as (st & Hst & Hputs & Hlog); [by rewrite Hcls..|].
    exists st. split; [exact Hst|]. split.
    - rewrite Hpath. apply path_of_failed; [exact Hputs|by rewrite Hcls].
    - split.
      + intros reason Hr. rewrite Hpath in Hr. by injection Hr as <-.
      + intros files file Hv. by destruct (Hnl files). }
  destruct v as [|files|m|[c msg]|name].
  - apply (Hfail (Exn Exception Spec.no_data)); solve [done | intros st; by apply run_check_raises].
  - destruct (try_body_receives w _ Hstart Hrecv) as [n Hrun].
    destruct (process_completes w files n Hrun) as (st & segs & Hst & Hlen & Hsegs & Htr).
    exists st. split; [exact Hst|]. split; [|split].
    + unfold Spec.path_of. rewrite Htr, puts_before, !puts_app.
      by rewrite (quiet_puts _ (quiet_deliveries w files segs Hlen Hsegs)).
    + intros reason Hr. discriminate.
    + intros files' file [= <-] Hin.
      apply list_elem_of_lookup in Hin as [j Hj].
      destruct (segs !! j) as [seg|] eqn:Hseg.
      * rewrite Htr. apply elem_of_app. right. apply elem_of_app. right.
        apply elem_of_app. left. apply list_elem_of_In, in_concat. exists seg.
        split; apply list_elem_of_In; [by eapply list_elem_of_lookup_2|].
        eapply delivery_sends. by eapply Hsegs.
      * apply lookup_ge_None in Hseg. apply lookup_lt_Some in Hj. lia.
  - apply (Hfail (Exn Exception (Spec.wrong_type (VLogRecord m)))); solve [done | intros st; by apply run_check_raises].
  - destruct c.
    + apply (Hfail (Exn Exception (Spec.wrong_type (VExc (Exn BaseException msg)))));
        solve [done | intros st; by apply run_check_raises].
    + apply (Hfail (Exn Exception msg)); solve [done | intros st; by apply run_check_raises].
    + destruct (try_body_receives w _ Hstart Hrecv) as [n Hrun].
      rewrite run_check_raises in Hrun by done. cbn [exn_class] in Hrun.
      destruct (process_is_interrupted w
                  (Exn KeyboardInterrupt "Keyboard interrupt from child process")
                  n eq_refl Hchild Hrun)
        as (st & l & Hst & Hq & Htr).
      exists st. split; [exact Hst|]. split; [|split].
      * unfold Spec.path_of. rewrite Htr, puts_before, !puts_app.
        by rewrite (quiet_puts _ Hq).
      * intros reason Hr. discriminate.
      * intros files file Hv. discriminate.
    + apply (Hfail (Exn Exception (Spec.wrong_type (VExc (Exn SystemExit msg)))));
        solve [done | intros st; by apply run_check_raises].
    + apply (Hfail (Exn Exception
                      (Spec.wrong_type (VExc (Exn (ExceptionSubclass name) msg)))));
        solve [done | intros st; by apply run_check_raises].
    + apply (Hfail (Exn Exception
                      (Spec.wrong_type (VExc (Exn (BaseExceptionSubclass name) msg)))));
        solve [done | intros st; by apply run_check_raises].
  - apply (Hfail (Exn Exception (Spec.wrong_type (VObj name)))); solve [done | intros st; by apply run_check_raises].
Qed.

Lemma return_data_decides_the_outcome_witness :
  exists st,
    _lms_downloader_process
      (Examples.supervisor
         [Poll None false;
          Poll (Some (VList ["/tmp/job/a.pdf"; "/tmp/job/b.pdf"; "/tmp/job/c.pdf"])) false]
         Examples.second_file_fails_twice) = (Done (), st) /\
    Spec.path_of (trace st) =
      Some (Spec.path_for
              (VList ["/tmp/job/a.pdf"; "/tmp/job/b.pdf"; "/tmp/job/c.pdf"])) /\
    (forall reason,
       Spec.path_for (VList ["/tmp/job/a.pdf"; "/tmp/job/b.pdf"; "/tmp/job/c.pdf"])
       = Spec.Failed reason ->
       Log (ErrorError reason) ∈ trace st) /\
    (forall files file,
       VList ["/tmp/job/a.pdf"; "/tmp/job/b.pdf"; "/tmp/job/c.pdf"] = VList files ->
       file ∈ files -> SendDocument file ∈ trace st).
Proof.
  apply (return_data_decides_the_outcome
           (Examples.supervisor
              [Poll None false;
               Poll (Some (VList ["/tmp/job/a.pdf"; "/tmp/job/b.pdf"; "/tmp/job/c.pdf"]))
                    false]
              Examples.second_file_fails_twice)
           (VList ["/tmp/job/a.pdf"; "/tmp/job/b.pdf"; "/tmp/job/c.pdf"])).
  - repeat split; reflexivity.
  - eexists [Poll None false], _, []. split; [reflexivity|]. split; [reflexivity|].
    repeat constructor.
  - simpl. right. left.
Defined.

(** C10. A worker error whose class is a strict subclass of [Exception]
    reaches the return channel as it is, but the supervising process
    re-raises a returned error only when its type is exactly [Exception]:
    the subclass instance falls to the last branch, which raises the
    synthetic "wrong type of data" error.  The job ends in the error clause;
    the error logged and handed to the relay is the synthetic one, whose
    text names the class and not the worker's reason. *)
Theorem subclass_error_is_reported_as_wrong_type (w : env) (name msg : string)
    (Hstart : Spec.starts w)
    (Hrecv : Spec.receives_first w (VExc (Exn (ExceptionSubclass name) msg))) :
  fst (_lms_downloader_process_child (Raise (Exn (ExceptionSubclass name) msg)))
  = [VExc (Exn (ExceptionSubclass name) msg); VNone] /\
  (forall e st, is_Exception (exn_class e) = true ->
     (run (check_return_data w (VExc e)) st = (Raised e, st)
      <-> exn_class e = Exception)) /\
  exists st,
    _lms_downloader_process w = (Done (), st) /\
    Spec.puts (trace st) =
      [VExc (Exn Exception
               ("Child process exited but returning wrong type of data: "
                +:+ "<class '" +:+ name +:+ "'>"));
       VNone] /\
    Log (ErrorError ("Child process exited but returning wrong type of data: "
                     +:+ "<class '" +:+ name +:+ "'>")) ∈ trace st /\
    Spec.path_of (trace st) =
      Some (Spec.Failed ("Child process exited but returning wrong type of data: "
                         +:+ "<class '" +:+ name +:+ "'>")) /\
    VExc (Exn (ExceptionSubclass name) msg) ∉ Spec.puts (trace st).
Proof.
  split; [reflexivity|]. split.
  { intros [c m] st He. rewrite run_check_raises by done.
    destruct c; try discriminate He; simpl.
    - by split.
    - split; [intros [= Hc _]|]; discriminate. }
  destruct (process_fails_with w _
              (Exn Exception (Spec.wrong_type (VExc (Exn (ExceptionSubclass name) msg))))
              Hstart Hrecv)
    as (st & Hst & Hputs & Hlog); [|done|done|].
  { intros st. by apply run_check_raises. }
  exists st. split; [exact Hst|]. split; [exact Hputs|]. split; [exact Hlog|].
  split; [exact (path_of_failed _ _ Hputs ltac:(done))|].
  rewrite Hputs. intros Hin.
  apply elem_of_cons in Hin as [Hin|Hin]; [discriminate Hin|].
  apply elem_of_cons in Hin as [Hin|Hin]; [discriminate Hin|].
  by apply elem_of_nil in Hin.
Qed.

Lemma subclass_error_is_reported_as_wrong_type_witness :
  fst (_lms_downloader_process_child (Raise (Exn (ExceptionSubclass "ValueError") "boom")))
  = [VExc (Exn (ExceptionSubclass "ValueError") "boom"); VNone] /\
  (forall e st, is_Exception (exn_class e) = true ->
     (run (check_return_data
             (Examples.supervisor
                [Poll None false; Poll (Some Examples.ValueError_boom) false]
                Examples.first_file_fails) (VExc e)) st = (Raised e, st)
      <-> exn_class e = Exception)) /\
  exists st,
    _lms_downloader_process
      (Examples.supervisor
         [Poll None false; Poll (Some Examples.ValueError_boom) false]
         Examples.first_file_fails) = (Done (), st) /\
    Spec.puts (trace st) =
      [VExc (Exn Exception
               ("Child process exited but returning wrong type of data: "
                +:+ "<class '" +:+ "ValueError" +:+ "'>"));
       VNone] /\
    Log (ErrorError ("Child process exited but returning wrong type of data: "
                     +:+ "<class '" +:+ "ValueError" +:+ "'>")) ∈ trace st /\
    Spec.path_of (trace st) =
      Some (Spec.Failed ("Child process exited but returning wrong type of data: "
                         +:+ "<class '" +:+ "ValueError" +:+ "'>")) /\
    VExc (Exn (ExceptionSubclass "ValueError") "boom") ∉ Spec.puts (trace st).
Proof.
  apply (subclass_error_is_reported_as_wrong_type
           (Examples.supervisor
              [Poll None false; Poll (Some Examples.ValueError_boom) false]
              Examples.first_file_fails)
           "ValueError" "boom").
  - repeat split; reflexivity.
  - eexists [Poll None false], _, []. split; [reflexivity|]. split; [reflexivity|].
    repeat constructor.
Defined.

End SupervisorProps.

(** * Further properties *)

(** ** The watchdog *)

Module WatchdogMore.

Import Watchdog.
Import Notions.
Import WatchdogProps.

Lemma entry_eqb_process (a b : entry) : entry_eqb a b = true -> process a = process b.
Proof.
  unfold entry_eqb. intros H.
  apply andb_prop in H as [H _]. apply andb_prop in H as [_ H].
  by apply Z.eqb_eq.
Qed.

Lemma list_remove_keeps (e : entry) (l l' : list entry) :
  list_remove e l = Return l' ->
  l' `sublist_of` l /\ forall y, y ∈ l -> y ∈ l' \/ entry_eqb y e = true.
Proof.
  revert l'. induction l as [|x l IH]; intros l' H; [discriminate|].
  simpl in H. destruct (entry_eqb x e) eqn:Hx.
  - injection H as <-. split; [by apply sublist_cons|].
    intros y [->|Hy]%elem_of_cons; [by right|by left].
  - destruct (list_remove e l) as [l''|] eqn:Hl; [|discriminate].
    injection H as <-. destruct (IH l'' eq_refl) as [Hsub Hin].
    split; [by apply sublist_skip|].
    intros y [->|Hy]%elem_of_cons; [left; left|].
    destruct (Hin y Hy) as [?|?]; [left; by right|by right].
Qed.

Lemma scan_keeps_refl (w : env) (st : state) : scan_keeps w st st.
Proof.
  split; [done|]. split; [done|]. split; [done|]. split; [|done].
  exists []. split; [by rewrite app_nil_r|]. by intros pid ?%elem_of_nil.
Qed.

Lemma scan_keeps_trans (w : env) (st1 st2 st3 : state) :
  scan_keeps w st1 st2 -> scan_keeps w st2 st3 -> scan_keeps w st1 st3.
Proof.
  intros (Hs1 & Hl1 & He1 & (n1 & Hk1 & Hn1) & Hc1)
         (Hs2 & Hl2 & He2 & (n2 & Hk2 & Hn2) & Hc2).
  split; [by etrans|]. split; [auto|]. split; [by etrans|]. split; [|lia].
  exists (n1 ++ n2). split; [by rewrite Hk2, Hk1, app_assoc|].
  intros pid [Hp|Hp]%elem_of_app.
  - destruct (Hn1 pid Hp) as (e & n & ? & ? & ? & ? & ?).
    exists e, n. repeat split; try done; lia.
  - destruct (Hn2 pid Hp) as (e & n & He & ? & ? & ? & ?).
    exists e, n. repeat split; try done; [|lia..].
    by eapply elem_of_sublist.
Qed.

Lemma scan_keeps_quiet (w : env) (st st' : state) :
  lms_downloader_processes st' = lms_downloader_processes st ->
  events_set st ⊆ events_set st' ->
  kills st' = kills st ->
  (clock_reads st <= clock_reads st')%nat ->
  scan_keeps w st st'.
Proof.
  intros Hl He Hk Hc. split; [by rewrite Hl|]. split; [by rewrite Hl|].
  split; [done|]. split; [|done].
  exists []. split; [by rewrite app_nil_r|]. by intros pid ?%elem_of_nil.
Qed.

Lemma check_process_keeps (w : env) (e : entry) (st st' : state) :
  e ∈ lms_downloader_processes st ->
  check_process w e st = Return st' -> scan_keeps w st st'.
Proof.
  intros He. unfold check_process, time.
  destruct (is_alive w (process e)) eqn:Halive; cbn [negb].
  - destruct (Qle_bool (process_timeout w) _) eqn:Hdue;
      [|intros [= <-]; apply scan_keeps_quiet; simpl; (done || lia)].
    match goal with
    | |- context [negb ?b] => destruct (negb b)
    end;
    (match goal with
     | |- context [Qle_bool (process_timeout w + EXIT_WAIT_TIME) ?x] =>
         destruct (Qle_bool (process_timeout w + EXIT_WAIT_TIME) x) eqn:Hkill
     end;
     [|intros [= <-]; apply scan_keeps_quiet; simpl; (done || lia || set_solver)]).
    all: intros [= <-]; cbn in Hkill; apply Qle_bool_iff in Hkill.
    all: unfold try_kill; destruct (kill_raises w (process e)).
    all: split; [done|]; split; [by intros y Hy _|]; split; [simpl; set_solver|].
    all: split; [|simpl; lia].
    all: exists [process e]; split; [done|].
    all: intros pid ->%list_elem_of_singleton.
    all: exists e, (S (clock_reads st)); split; [done|]; split; [done|];
      split; [done|]; split; [simpl; lia|done].
  - cbn [log lms_downloader_processes].
    destruct (list_remove e (lms_downloader_processes st)) as [l|] eqn:Hl;
      [|discriminate].
    simpl. intros [= <-]. destruct (list_remove_keeps _ _ _ Hl) as [Hsub Hin].
    split; [done|]. split.
    { intros y Hy Hya. destruct (Hin y Hy) as [?|Heq]; [done|].
      apply entry_eqb_process in Heq. congruence. }
    split; [done|]. split; [|done].
    exists []. split; [simpl; by rewrite app_nil_r|]. by intros pid ?%elem_of_nil.
Qed.

Lemma for_each_process_keeps (w : env) (fuel i : nat) (st st' : state) :
  for_each_process fuel w i st = Some (Return st') -> scan_keeps w st st'.
Proof.
  revert i st. induction fuel as [|fuel IH]; intros i st H; [discriminate|].
  simpl in H. destruct (lms_downloader_processes st !! i) as [e|] eqn:Hi.
  - destruct (check_process w e st) as [st1|] eqn:Hc; [|discriminate].
    eapply scan_keeps_trans; [|by eapply IH].
    eapply check_process_keeps; [|done]. by eapply list_elem_of_lookup_2.
  - injection H as <-. apply scan_keeps_refl.
Qed.

Lemma check_process_alive_registry (w : env) (e : entry) (st st' : state) :
  is_alive w (process e) = true ->
  check_process w e st = Return st' ->
  lms_downloader_processes st' = lms_downloader_processes st.
Proof.
  intros Halive. unfold check_process, time. rewrite Halive. cbn [negb].
  destruct (Qle_bool (process_timeout w) _); [|by intros [= <-]].
  destruct (negb _);
    (match goal with
     | |- context [Qle_bool (process_timeout w + EXIT_WAIT_TIME) ?x] =>
         destruct (Qle_bool (process_timeout w + EXIT_WAIT_TIME) x)
     end; [|by intros [= <-]]).
  all: intros [= <-]; unfold try_kill; by destruct (kill_raises w (process e)).
Qed.

Lemma for_each_process_live (w : env) (fuel i : nat) (st : state) :
  (forall e, e ∈ lms_downloader_processes st -> is_alive w (process e) = true) ->
  (length (lms_downloader_processes st) - i < fuel)%nat ->
  exists st',
    for_each_process fuel w i st = Some (Return st') /\
    lms_downloader_processes st' = lms_downloader_processes st /\
    forall j e, (i <= j)%nat -> lms_downloader_processes st !! j = Some e ->
      running_for w e (process_timeout w) (clock_reads st) ->
      interrupt_event e ∈ events_set st' /\
      (running_for w e (process_timeout w + EXIT_WAIT_TIME) (clock_reads st) ->
       process e ∈ kills st').
Proof.
  revert i st. induction fuel as [|fuel IH]; intros i st Hlive Hfuel; [lia|].
  simpl. destruct (lms_downloader_processes st !! i) as [e|] eqn:Hi.
  - assert (He : e ∈ lms_downloader_processes st) by by eapply list_elem_of_lookup_2.
    destruct (check_process w e st) as [st1|x] eqn:Hc.
    2:{ destruct (check_process_returns w st i e Hi) as (? & ? & _). congruence. }
    pose proof (check_process_alive_registry _ _ _ _ (Hlive e He) Hc) as Hreg.
    pose proof (check_process_keeps _ _ _ _ He Hc) as (_ & _ & _ & _ & Hclock).
    destruct (IH (S i) st1) as (st' & Hrun & Hreg' & Hrest).
    { by rewrite Hreg. }
    { rewrite Hreg. apply lookup_lt_Some in Hi. lia. }
    exists st'. split; [done|]. split; [congruence|].
    intros j e' Hj Hj' Hdue.
    destruct (decide (j = i)) as [->|Hne].
    + assert (e' = e) as -> by congruence.
      pose proof (for_each_process_keeps _ _ _ _ _ Hrun)
        as (_ & _ & Hev & (new & Hk & _) & _).
      destruct (check_process_escalates w e st (Hlive e He)) as (st1' & Hc' & Hset & Hkill).
      { apply Hdue. lia. }
      assert (st1' = st1) as -> by congruence.
      split; [apply is_set_true in Hset; by apply Hev|].
      intros Hgrace. rewrite Hk. apply elem_of_app. left. apply Hkill, Hgrace. lia.
    + destruct (Hrest j e') as [Hset Hkill]; [lia|by rewrite Hreg|..].
      { intros n Hn. apply Hdue. lia. }
      split; [done|]. intros Hgrace. apply Hkill. intros n Hn. apply Hgrace. lia.
  - exists st. split; [done|]. split; [done|].
    intros j e Hj Hj'. apply lookup_lt_Some in Hj'. apply lookup_ge_None in Hi. lia.
Qed.

Lemma interrupt_all_effect (st : state) :
  exists ev,
    interrupt_all st
    = State (lms_downloader_processes st) ev (kills st) (logs st)
            (exit_timer st) (clock_reads st) /\
    forall e, e ∈ lms_downloader_processes st -> interrupt_event e ∈ ev.
Proof.
  unfold interrupt_all.
  cut (forall l st, exists ev,
         fold_left (fun st e => set_event (interrupt_event e) st) l st
         = State (lms_downloader_processes st) ev (kills st) (logs st)
                 (exit_timer st) (clock_reads st) /\
         events_set st ⊆ ev /\ forall e, e ∈ l -> interrupt_event e ∈ ev).
  { intros Hcut. destruct (Hcut (lms_downloader_processes st) st) as (ev & ? & _ & ?).
    by exists ev. }
  clear st. induction l as [|x l IH]; intros st; simpl.
  - exists (events_set st). split; [by destruct st|]. split; [done|].
    by intros e ?%elem_of_nil.
  - destruct (IH (set_event (interrupt_event x) st)) as (ev & -> & Hsub & Hin).
    exists ev. split; [done|]. simpl in Hsub. split.
    + intros y Hy. apply Hsub. by apply elem_of_union_r.
    + intros e [->|He]%elem_of_cons; [|by apply Hin].
      apply Hsub. by apply elem_of_union_l, elem_of_singleton.
Qed.

Lemma kill_all_effect (w : env) (st : state) :
  exists lg,
    kill_all w st
    = State (lms_downloader_processes st) (events_set st)
            (kills st ++ map process (lms_downloader_processes st)) lg
            (exit_timer st) (clock_reads st).
Proof.
  unfold kill_all.
  cut (forall l st, exists lg,
         fold_left (fun st e => try_kill w (process e) st) l st
         = State (lms_downloader_processes st) (events_set st)
                 (kills st ++ map process l) lg (exit_timer st) (clock_reads st)).
  { intros Hcut. apply Hcut. }
  clear st. induction l as [|x l IH]; intros st; simpl.
  - exists (logs st). rewrite app_nil_r. by destruct st.
  - destruct (IH (try_kill w (process x) st)) as (lg & ->).
    exists lg. unfold try_kill.
    destruct (kill_raises w (process x)); simpl; by rewrite <- app_assoc.
Qed.

Lemma interrupt_first_none (w : env) (pid : Z) (l : list entry) (st : state) :
  (forall e, e ∈ l -> is_alive w (process e) = true -> process e <> pid) ->
  interrupt_first w pid l st = st.
Proof.
  induction l as [|e l IH]; intros Hno; simpl; [done|].
  destruct (is_alive w (process e)) eqn:Halive; simpl.
  - destruct (Z.eqb_spec (process e) pid) as [Heq|_].
    + destruct (Hno e); [left|done..].
    + apply IH. intros e' He'. apply Hno. by right.
  - apply IH. intros e' He'. apply Hno. by right.
Qed.

Lemma interrupt_first_some (w : env) (l : list entry) (e : entry) (st : state) :
  e ∈ l -> is_alive w (process e) = true ->
  (forall e', e' ∈ l -> is_alive w (process e') = true ->
              process e' = process e -> e' = e) ->
  interrupt_first w (process e) l st = set_event (interrupt_event e) st.
Proof.
  induction l as [|x l IH]; intros He Halive Huniq; [by apply elem_of_nil in He|].
  simpl. destruct (is_alive w (process x)) eqn:Hx; simpl.
  - destruct (Z.eqb_spec (process x) (process e)) as [Heq|Hne].
    + by rewrite (Huniq x (list_elem_of_here _ _) Hx Heq).
    + apply elem_of_cons in He as [->|He]; [done|].
      apply IH; [done..|]. intros e' He'. apply Huniq. by right.
  - apply elem_of_cons in He as [->|He]; [congruence|].
    apply IH; [done..|]. intros e' He'. apply Huniq. by right.
Qed.

(** X1. A scan of the registry ([for ... in self.lms_downloader_processes])
    returns without raising, it only takes entries out of the registry,
    keeping the order of the others, it keeps every entry whose process
    is alive, and it unsets no interrupt event. *)
Theorem scan_only_forgets_finished_jobs (w : env) (st : state) :
  exists st',
    check_processes w st = Some (Return st') /\
    lms_downloader_processes st' `sublist_of` lms_downloader_processes st /\
    (forall e, e ∈ lms_downloader_processes st ->
               is_alive w (process e) = true ->
               e ∈ lms_downloader_processes st') /\
    events_set st ⊆ events_set st'.
Proof.
  destruct (check_processes_returns w st) as (st' & Hrun).
  exists st'. split; [done|].
  by destruct (for_each_process_keeps _ _ _ _ _ Hrun) as (? & ? & ? & _).
Qed.

(** X2. A scan of the registry kills no process early: every
    [process.kill()] of the scan is for a registered process that is alive,
    and comes after a reading of the clock, made during this scan, at which
    the job had been running for [process_timeout + EXIT_WAIT_TIME] or
    more. *)
Theorem scan_kills_only_past_the_grace_window (w : env) (st : state) :
  exists st' new,
    check_processes w st = Some (Return st') /\
    kills st' = kills st ++ new /\
    forall pid, pid ∈ new ->
      exists e n,
        e ∈ lms_downloader_processes st /\ process e = pid /\
        is_alive w pid = true /\
        (clock_reads st <= n < clock_reads st')%nat /\
        (process_timeout w + EXIT_WAIT_TIME <= clock w n - time_started e)%Q.
Proof.
  destruct (check_processes_returns w st) as (st' & Hrun).
  destruct (for_each_process_keeps _ _ _ _ _ Hrun) as (_ & _ & _ & (new & ? & ?) & _).
  by exists st', new.
Qed.

(** X3. When every registered process is alive, so that the scan removes
    nothing, the scan reaches every job: the registry is unchanged, the
    interrupt event of every job that is past [process_timeout] is set,
    and every job that is past [process_timeout + EXIT_WAIT_TIME] is
    killed. *)
Theorem scan_of_live_jobs_reaches_every_overdue_job (w : env) (st : state) :
  (forall e, e ∈ lms_downloader_processes st -> is_alive w (process e) = true) ->
  exists st',
    check_processes w st = Some (Return st') /\
    lms_downloader_processes st' = lms_downloader_processes st /\
    forall e, e ∈ lms_downloader_processes st ->
      running_for w e (process_timeout w) (clock_reads st) ->
      interrupt_event e ∈ events_set st' /\
      (running_for w e (process_timeout w + EXIT_WAIT_TIME) (clock_reads st) ->
       process e ∈ kills st').
Proof.
  intros Hlive.
  destruct (for_each_process_live w (S (length (lms_downloader_processes st))) 0 st Hlive)
    as (st' & Hrun & Hreg & Hall); [lia|].
  exists st'. split; [done|]. split; [done|].
  intros e [j Hj]%list_elem_of_lookup. apply (Hall j); [lia|done].
Qed.

Lemma scan_of_live_jobs_reaches_every_overdue_job_witness :
  exists st',
    check_processes all_alive two_live_jobs = Some (Return st') /\
    lms_downloader_processes st' = lms_downloader_processes two_live_jobs /\
    forall e, e ∈ lms_downloader_processes two_live_jobs ->
      running_for all_alive e (process_timeout all_alive) (clock_reads two_live_jobs) ->
      interrupt_event e ∈ events_set st' /\
      (running_for all_alive e (process_timeout all_alive + EXIT_WAIT_TIME)
                   (clock_reads two_live_jobs) ->
       process e ∈ kills st').
Proof.
  apply (scan_of_live_jobs_reaches_every_overdue_job all_alive two_live_jobs).
  intros e _. reflexivity.
Defined.

(** X4. The "exit requested" part of a pass, once the watchdog is
    disabled.  With an empty registry the loop breaks at once and nothing
    changes.  Otherwise the registry is left as it is; when the exit timer
    has not been started, the timer is set to the clock and the interrupt
    event of every registered job is set; and the loop breaks exactly when
    the clock is more than [EXIT_WAIT_TIME] past the timer, after a
    [process.kill()] for every registered job, in the order of the
    registry, whether or not its process is alive. *)
Theorem exit_request_interrupts_all_then_kills_all
    (w : env) (st st' : state) (break : bool) :
  exit_requested w false st = (st', break) ->
  lms_downloader_processes st' = lms_downloader_processes st /\
  (lms_downloader_processes st = [] -> st' = st /\ break = true) /\
  (lms_downloader_processes st <> [] ->
   (Qeq_bool (exit_timer st) 0 = true ->
    exit_timer st' = clock w (clock_reads st) /\
    forall e, e ∈ lms_downloader_processes st ->
              interrupt_event e ∈ events_set st') /\
   (break = true ->
    kills st' = kills st ++ map process (lms_downloader_processes st)) /\
   (break = false -> kills st' = kills st) /\
   (break = true <->
    ~ (clock w (if Qeq_bool (exit_timer st) 0
                then S (clock_reads st) else clock_reads st)
       - exit_timer st' <= EXIT_WAIT_TIME)%Q)).
Proof.
  unfold exit_requested, time. cbn [negb].
  destruct (lms_downloader_processes st) as [|e0 l] eqn:Hreg; cbn [length Nat.ltb Nat.leb].
  { intros [= <- <-]. rewrite Hreg. split; [done|]. split; [done|]. by intros []. }
  rewrite <- Hreg.
  destruct (Qeq_bool (exit_timer st) 0) eqn:Htimer.
  - match goal with
    | |- context [interrupt_all ?s] =>
        destruct (interrupt_all_effect s) as (ev & -> & Hev)
    end.
    cbn [log set_exit_timer lms_downloader_processes events_set kills logs
         exit_timer clock_reads] in *.
    destruct (Qle_bool _ EXIT_WAIT_TIME) eqn:Hwait; cbn [negb].
    + intros [= <- <-]. cbn. split; [done|]. split; [by rewrite Hreg|]. intros _.
      split; [done|]. split; [done|]. split; [done|].
      split; [done|]. intros Hn. destruct Hn. by apply Qle_bool_iff.
    + match goal with
      | |- context [kill_all w ?s] => destruct (kill_all_effect w s) as (lg & ->)
      end.
      intros [= <- <-]. cbn. split; [done|]. split; [by rewrite Hreg|]. intros _.
      split; [done|]. split; [done|]. split; [done|].
      split; [|done]. intros _ Hle. apply Qle_bool_iff in Hle.
      discriminate (eq_trans (eq_sym Hle) Hwait).
  - destruct (Qle_bool _ EXIT_WAIT_TIME) eqn:Hwait; cbn [negb].
    + intros [= <- <-]. cbn. split; [done|]. split; [by rewrite Hreg|]. intros _.
      split; [done|]. split; [done|]. split; [done|].
      split; [done|]. intros Hn. destruct Hn. by apply Qle_bool_iff.
    + match goal with
      | |- context [kill_all w ?s] => destruct (kill_all_effect w s) as (lg & ->)
      end.
      intros [= <- <-]. cbn. split; [done|]. split; [by rewrite Hreg|]. intros _.
      split; [done|]. split; [done|]. split; [done|].
      split; [|done]. intros _ Hle. apply Qle_bool_iff in Hle.
      discriminate (eq_trans (eq_sym Hle) Hwait).
Qed.

Lemma exit_request_interrupts_all_then_kills_all_witness :
  lms_downloader_processes (fst (exit_requested all_alive false two_live_jobs))
  = lms_downloader_processes two_live_jobs.
Proof.
  exact (proj1 (exit_request_interrupts_all_then_kills_all
                  all_alive two_live_jobs _ _ eq_refl)).
Defined.

(** X5. [interrupt_process(pid)] for a pid that no live registered process
    has changes nothing (and raises nothing); for the pid of a live
    registered job, the only live one with this pid, it sets the interrupt
    event of this job and does nothing else. *)
Theorem interrupt_process_sets_the_event_of_the_live_job
    (w : env) (st : state) :
  (forall pid,
     (forall e, e ∈ lms_downloader_processes st ->
                is_alive w (process e) = true -> process e <> pid) ->
     interrupt_process w pid st = st) /\
  (forall e,
     e ∈ lms_downloader_processes st -> is_alive w (process e) = true ->
     (forall e', e' ∈ lms_downloader_processes st ->
                 is_alive w (process e') = true ->
                 process e' = process e -> e' = e) ->
     interrupt_process w (process e) st = set_event (interrupt_event e) st).
Proof.
  split.
  - intros pid. apply interrupt_first_none.
  - intros e. apply interrupt_first_some.
Qed.

Lemma interrupt_process_sets_the_event_of_the_live_job_witness :
  interrupt_process all_alive 7 two_live_jobs = two_live_jobs /\
  interrupt_process all_alive 2 two_live_jobs = set_event 102 two_live_jobs.
Proof.
  destruct (interrupt_process_sets_the_event_of_the_live_job all_alive two_live_jobs)
    as [Hnone Hsome].
  split.
  - apply Hnone. intros e Hin _.
    apply elem_of_cons in Hin as [->|Hin]; [discriminate|].
    apply list_elem_of_singleton in Hin as ->. discriminate.
  - apply (Hsome (Entry 0 2 102)).
    + apply elem_of_cons. right. apply list_elem_of_here.
    + reflexivity.
    + intros e' Hin _ Hpid.
      apply elem_of_cons in Hin as [->|Hin]; [discriminate|].
      by apply list_elem_of_singleton in Hin.
Defined.

End WatchdogMore.

(** ** Strings *)

Module StrFacts.

Import PyStr.
Import Notions.

Lemma append_cons (c : ascii) (s t : string) : String c s +:+ t = String c (s +:+ t).
Proof. reflexivity. Qed.

Lemma append_nil_r (s : string) : s +:+ EmptyString = s.
Proof. induction s as [|c s IH]; [done|]. by rewrite append_cons, IH. Qed.

Lemma append_assoc (s t u : string) : (s +:+ t) +:+ u = s +:+ (t +:+ u).
Proof. induction s as [|c s IH]; [done|]. by rewrite !append_cons, IH. Qed.

Lemma has_char_app (c : ascii) (s t : string) :
  has_char c (s +:+ t) = has_char c s || has_char c t.
Proof.
  induction s as [|a s IH]; [done|].
  rewrite append_cons. simpl. rewrite IH. by destruct (Ascii.eqb a c).
Qed.

Lemma replace_char_app (c : ascii) (by_ s t : string) :
  BotHandler.replace_char c by_ (s +:+ t)
  = BotHandler.replace_char c by_ s +:+ BotHandler.replace_char c by_ t.
Proof.
  induction s as [|a s IH]; [done|].
  rewrite append_cons. simpl. rewrite IH.
  destruct (Ascii.eqb a c); [by rewrite append_assoc|done].
Qed.

Lemma replace_char_absent (c : ascii) (by_ s : string) :
  has_char c s = false -> BotHandler.replace_char c by_ s = s.
Proof.
  induction s as [|a s IH]; [done|]. simpl.
  destruct (Ascii.eqb a c); [done|]. simpl. intros H. by rewrite IH.
Qed.

Lemma replace_char_removes (c : ascii) (s : string) :
  has_char c (BotHandler.replace_char c EmptyString s) = false.
Proof.
  induction s as [|a s IH]; [done|]. simpl.
  destruct (Ascii.eqb a c) eqn:Ha; [done|]. simpl. by rewrite Ha.
Qed.

Lemma replace_char_keeps_absent (c d : ascii) (s : string) :
  has_char d s = false ->
  has_char d (BotHandler.replace_char c EmptyString s) = false.
Proof.
  induction s as [|a s IH]; [done|]. simpl.
  intros [Ha Hs]%orb_false_elim.
  destruct (Ascii.eqb a c); [by apply IH|]. simpl. by rewrite Ha, IH.
Qed.

Lemma split_not_nil (sep : ascii) (s : string) : split sep s <> [].
Proof.
  induction s as [|a s IH]; [done|]. simpl.
  destruct (Ascii.eqb a sep); [done|]. by destruct (split sep s).
Qed.

Lemma split_absent (sep : ascii) (s : string) :
  has_char sep s = false -> split sep s = [s].
Proof.
  induction s as [|a s IH]; [done|]. simpl.
  destruct (Ascii.eqb a sep); [done|]. simpl. intros H. by rewrite IH.
Qed.

Lemma split_app (sep : ascii) (s t : string) :
  has_char sep s = false ->
  split sep (s +:+ String sep t) = s :: split sep t.
Proof.
  induction s as [|a s IH].
  - intros _. change (EmptyString +:+ String sep t) with (String sep t).
    simpl. by rewrite Ascii.eqb_refl.
  - rewrite append_cons. simpl. destruct (Ascii.eqb a sep); [done|]. simpl.
    intros H. by rewrite IH.
Qed.

Lemma split_items (sep d : ascii) (s x : string) :
  x ∈ split sep s ->
  has_char sep x = false /\ (has_char d s = false -> has_char d x = false).
Proof.
  revert x. induction s as [|a s IH]; intros x; simpl.
  - by intros ->%list_elem_of_singleton.
  - destruct (Ascii.eqb a sep) eqn:Ha.
    + intros [->|Hx]%elem_of_cons; [done|].
      destruct (IH x Hx) as [? Hd]. split; [done|].
      intros [_ ?]%orb_false_elim. by apply Hd.
    + pose proof (split_not_nil sep s) as Hne.
      destruct (split sep s) as [|y l]; [done|].
      intros [->|Hx]%elem_of_cons.
      * destruct (IH y) as [Hy Hd]; [by left|]. simpl. rewrite Ha, Hy.
        split; [done|]. intros [-> ?]%orb_false_elim. by apply Hd.
      * destruct (IH x) as [? Hd]; [by right|]. split; [done|].
        intros [_ ?]%orb_false_elim. by apply Hd.
Qed.

Lemma lstrip_clean (s : string) : starts_clean s = true -> lstrip s = s.
Proof. destruct s as [|c s]; [done|]. simpl. by destruct (is_space c). Qed.

Lemma rstrip_clean (s : string) : ends_clean s = true -> rstrip s = s.
Proof.
  induction s as [|c s IH]; [done|]. destruct s as [|d s].
  - simpl. by destruct (is_space c).
  - intros H. change (rstrip (String c (String d s)))
      with (match rstrip (String d s) with
            | EmptyString => if is_space c then EmptyString else String c EmptyString
            | r => String c r
            end).
    by rewrite IH.
Qed.

Lemma lstrip_result (s : string) :
  lstrip s = EmptyString \/ starts_clean (lstrip s) = true.
Proof.
  induction s as [|c s IH]; [by left|]. simpl.
  destruct (is_space c) eqn:Hc; [done|]. right. simpl. by rewrite Hc.
Qed.

Lemma rstrip_result (s : string) :
  rstrip s = EmptyString \/ ends_clean (rstrip s) = true.
Proof.
  induction s as [|c s IH]; [by left|]. simpl.
  destruct (rstrip s) as [|d r].
  - destruct (is_space c) eqn:Hc; [by left|]. right. simpl. by rewrite Hc.
  - right. by destruct IH.
Qed.

Lemma rstrip_starts (s : string) :
  starts_clean s = true -> starts_clean (rstrip s) = true.
Proof.
  destruct s as [|c s]; [done|]. simpl. intros Hc.
  destruct (rstrip s); [|done].
  destruct (is_space c) eqn:Hsp; [done|]. simpl. by rewrite Hsp.
Qed.

Lemma strip_result (s : string) :
  strip s = EmptyString \/
  starts_clean (strip s) = true /\ ends_clean (strip s) = true.
Proof.
  unfold strip. destruct (lstrip_result s) as [->|Hl]; [by left|].
  destruct (rstrip_result (lstrip s)) as [?|?]; [by left|].
  right. split; [by apply rstrip_starts|done].
Qed.

Lemma strip_clean (s : string) :
  starts_clean s = true -> ends_clean s = true -> strip s = s.
Proof. intros Hs He. unfold strip. by rewrite lstrip_clean, rstrip_clean. Qed.

Lemma strip_idempotent (s : string) : strip (strip s) = strip s.
Proof.
  destruct (strip_result s) as [->|[? ?]]; [done|]. by apply strip_clean.
Qed.

Lemma has_char_lstrip (c : ascii) (s : string) :
  has_char c s = false -> has_char c (lstrip s) = false.
Proof.
  induction s as [|a s IH]; [done|]. simpl.
  intros [Ha Hs]%orb_false_elim.
  destruct (is_space a); [by apply IH|]. simpl. by rewrite Ha, Hs.
Qed.

Lemma has_char_rstrip (c : ascii) (s : string) :
  has_char c s = false -> has_char c (rstrip s) = false.
Proof.
  induction s as [|a s IH]; [done|]. simpl.
  intros [Ha Hs]%orb_false_elim. specialize (IH Hs).
  destruct (rstrip s) as [|d r].
  - destruct (is_space a); [done|]. simpl. by rewrite Ha.
  - simpl in *. by rewrite Ha, IH.
Qed.

Lemma has_char_strip (c : ascii) (s : string) :
  has_char c s = false -> has_char c (strip s) = false.
Proof. intros H. by apply has_char_rstrip, has_char_lstrip. Qed.

Lemma starts_clean_app (s t : string) :
  starts_clean s = true -> starts_clean (s +:+ t) = true.
Proof. by destruct s. Qed.

Lemma ends_clean_app (s t : string) :
  ends_clean t = true -> ends_clean (s +:+ t) = true.
Proof.
  intros Ht. induction s as [|c s IH]; [done|].
  rewrite append_cons. destruct (s +:+ t) eqn:Hst; [done|]. exact IH.
Qed.

Lemma field_clean (s : string) :
  is_field s -> starts_clean s = true /\ ends_clean s = true.
Proof.
  intros (Hne & Hs & _). destruct (strip_result s) as [He|H]; [congruence|].
  by rewrite Hs in H.
Qed.

Lemma digit_not_space (c : ascii) : is_Some (digit c) -> is_space c = false.
Proof.
  destruct c as [[] [] [] [] [] [] [] []]; intros [d Hd]; try reflexivity;
    discriminate Hd.
Qed.

Lemma digit_pretty_N_char (d : N) :
  (d < 10)%N -> digit (pretty_N_char d) = Some d.
Proof.
  intros Hd.
  assert (d = 0 \/ d = 1 \/ d = 2 \/ d = 3 \/ d = 4 \/ d = 5 \/ d = 6 \/ d = 7
          \/ d = 8 \/ d = 9)%N as Hcases by lia.
  repeat (destruct Hcases as [->|Hcases]; [reflexivity|]). by subst.
Qed.

Lemma is_digits_app (s t : string) :
  is_digits (s +:+ t) = is_digits s && is_digits t.
Proof.
  induction s as [|c s IH]; [done|].
  rewrite append_cons. simpl. rewrite IH. by rewrite andb_assoc.
Qed.

Lemma is_digits_has_char (c : ascii) (s : string) :
  digit c = None -> is_digits s = true -> has_char c s = false.
Proof.
  intros Hc. induction s as [|a s IH]; [done|]. simpl.
  intros [Ha Hs]%andb_prop. rewrite (IH Hs).
  apply bool_decide_eq_true in Ha.
  destruct (Ascii.eqb_spec a c) as [->|_]; [|done].
  rewrite Hc in Ha. by destruct Ha.
Qed.

Lemma is_digits_clean (s : string) :
  is_digits s = true -> s <> EmptyString ->
  starts_clean s = true /\ ends_clean s = true.
Proof.
  induction s as [|c s IH]; [done|]. simpl.
  intros [Hc Hs]%andb_prop _. apply bool_decide_eq_true, digit_not_space in Hc.
  rewrite Hc. split; [done|].
  destruct s as [|d s]; [done|]. by apply IH.
Qed.

(** The digits that [pretty] writes for [x] in front of [s] are read back
    by [digits_value] as [x]. *)
Lemma pretty_N_go_value (x : N) (s : string) :
  exists ds k,
    pretty_N_go x s = ds +:+ s /\ is_digits ds = true /\
    ((0 < x)%N -> ds <> EmptyString) /\
    forall acc s', digits_value acc (ds +:+ s') = digits_value (acc * k + x) s'.
Proof.
  revert s. induction (N.lt_wf_0 x) as [x _ IH]; intros s.
  assert (x = 0 \/ 0 < x)%N as [->|Hx] by lia.
  - exists EmptyString, 1%N. rewrite pretty_N_go_0.
    split; [done|]. split; [done|]. split; [lia|].
    intros acc s'. change (EmptyString +:+ s') with s'. f_equal. lia.
  - rewrite pretty_N_go_step by done.
    destruct (IH (x `div` 10)%N) with (s := String (pretty_N_char (x `mod` 10)) s)
      as (ds & k & -> & Hds & _ & Hval).
    { by apply N.div_lt. }
    pose proof (digit_pretty_N_char (x `mod` 10)) as Hdigit.
    assert (Hmod : (x `mod` 10 < 10)%N) by by apply N.mod_lt.
    specialize (Hdigit Hmod).
    exists (ds +:+ String (pretty_N_char (x `mod` 10)) EmptyString), (k * 10)%N.
    split; [by rewrite append_assoc|]. split.
    { rewrite is_digits_app, Hds. simpl. rewrite Hdigit. done. }
    split; [intros _; by destruct ds|].
    intros acc s'. rewrite append_assoc.
    change (String ?c EmptyString +:+ s') with (String c s').
    rewrite Hval. simpl. rewrite Hdigit. f_equal.
    pose proof (N.div_mod x 10). lia.
Qed.

Lemma pretty_positive_digits (p : positive) :
  exists ds,
    pretty (N.pos p) = ds /\ is_digits ds = true /\ ds <> EmptyString /\
    digits_value 0 ds = Some (N.pos p).
Proof.
  destruct (pretty_N_go_value (N.pos p) EmptyString) as (ds & k & Hp & Hds & Hne & Hval).
  exists ds. rewrite append_nil_r in Hp.
  split; [exact Hp|]. split; [done|]. split; [apply Hne; lia|].
  specialize (Hval 0%N EmptyString). rewrite append_nil_r in Hval.
  rewrite Hval. simpl. done.
Qed.

Lemma unsigned_value_digits (ds : string) (n : N) :
  is_digits ds = true -> ds <> EmptyString -> digits_value 0 ds = Some n ->
  unsigned_value ds = Some n /\
  exists c ds', ds = String c ds' /\ is_Some (digit c).
Proof.
  destruct ds as [|c ds']; [done|]. simpl.
  intros [Hc _]%andb_prop _ Hval. apply bool_decide_eq_true in Hc.
  split; [|by exists c, ds'].
  destruct Hc as [d Hd]. by rewrite Hd in *.
Qed.

(** [int(str(z)) == z] *)
Lemma int_pretty (z : Z) : int (pretty z) = Return z.
Proof.
  destruct z as [|p|p].
  - reflexivity.
  - destruct (pretty_positive_digits p) as (ds & Hp & Hds & Hne & Hval).
    change (pretty (Z.pos p)) with (pretty (N.pos p)). rewrite Hp.
    destruct (unsigned_value_digits ds _ Hds Hne Hval) as (Hu & c & ds' & -> & Hc).
    destruct (is_digits_clean _ Hds Hne) as [Hs He].
    unfold int. rewrite (strip_clean _ Hs He).
    destruct (Ascii.eqb_spec c "-") as [->|_]; [by destruct Hc|].
    destruct (Ascii.eqb_spec c "+") as [->|_]; [by destruct Hc|].
    by rewrite Hu.
  - destruct (pretty_positive_digits p) as (ds & Hp & Hds & Hne & Hval).
    change (pretty (Z.neg p)) with ("-" +:+ pretty (N.pos p)). rewrite Hp.
    destruct (unsigned_value_digits ds _ Hds Hne Hval) as (Hu & c & ds' & Heq & Hc).
    destruct (is_digits_clean _ Hds Hne) as [Hs He].
    change ("-" +:+ ds) with (String "-" ds).
    unfold int. rewrite strip_clean; [|done|by rewrite Heq in *].
    simpl. by rewrite Hu.
Qed.

Lemma pretty_no_underscore (z : Z) : has_char "_" (pretty z) = false.
Proof.
  destruct z as [|p|p]; [reflexivity|..];
    destruct (pretty_positive_digits p) as (ds & Hp & Hds & _).
  - change (pretty (Z.pos p)) with (pretty (N.pos p)). rewrite Hp.
    by apply is_digits_has_char.
  - change (pretty (Z.neg p)) with ("-" +:+ pretty (N.pos p)). rewrite Hp.
    change ("-" +:+ ds) with (String "-" ds). simpl.
    by apply is_digits_has_char.
Qed.

End StrFacts.

(** ** The handlers of the bot *)

Module HandlersMore.

Import PyStr.
Import Handlers.
Import Notions.
Import StrFacts.

Lemma rows_concat {A} (n : nat) (l : list A) (c : nat) :
  (0 < n)%nat -> ((length l + n - 1) / n = c)%nat ->
  concat (map (fun k => take n (drop (k * n) l)) (seq 0 c)) = l.
Proof.
  intros Hn. revert l. induction c as [|c IH]; intros l Hc.
  - apply Nat.div_small_iff in Hc; [|lia].
    destruct l; [done|]. simpl in Hc. lia.
  - assert (Hlen : (0 < length l)%nat).
    { destruct l; [|simpl; lia]. simpl in Hc.
      rewrite Nat.div_small in Hc by lia. done. }
    cbn [seq map concat]. rewrite <- seq_shift, map_map.
    rewrite (map_ext _ (fun k => take n (drop (k * n) (drop n l)))).
    2:{ intros k. by rewrite drop_drop. }
    rewrite IH; [apply take_drop|].
    rewrite length_drop.
    replace (length l + n - 1)%nat with ((length l - 1) + 1 * n)%nat in Hc by lia.
    rewrite Nat.div_add in Hc by lia.
    destruct (decide (n <= length l)%nat).
    + replace (length l - n + n - 1)%nat with (length l - 1)%nat by lia. lia.
    + rewrite Nat.div_small in Hc by lia. rewrite Nat.div_small by lia. lia.
Qed.

Lemma rows_lookup {A} (n : nat) (l : list A) (c i : nat) (row : list A) :
  (0 < n)%nat -> ((length l + n - 1) / n = c)%nat ->
  map (fun k => take n (drop (k * n) l)) (seq 0 c) !! i = Some row ->
  row <> [] /\ (length row <= n)%nat /\ ((S i < c)%nat -> length row = n).
Proof.
  intros Hn Hc Hi.
  change (map ?f ?x) with (f <$> x) in Hi.
  rewrite list_lookup_fmap in Hi.
  destruct (seq 0 c !! i) as [k|] eqn:Hk; [|done].
  apply lookup_seq in Hk as [-> Hlt]. simpl in Hi. injection Hi as <-.
  pose proof (Nat.Div0.mul_div_le (length l + n - 1) n) as Hle.
  rewrite Hc in Hle.
  assert (Hpos : (0 < length l)%nat).
  { destruct l; [|simpl; lia]. simpl in Hc.
    rewrite Nat.div_small in Hc by lia. lia. }
  assert (Hin : (i * n < length l)%nat) by nia.
  split.
  - intros Hnil%(f_equal length). rewrite length_take, length_drop in Hnil.
    simpl in Hnil. lia.
  - rewrite length_take, length_drop. split; [lia|]. intros Hs. nia.
Qed.

(** X6. [build_menu] with a positive number of columns lays out every
    button that is not [None], once and in order: the menu is the header
    row (when there is a non-empty header), then rows that together are the
    buttons, each row non-empty and of [n_cols] buttons at most, every row
    but the last of exactly [n_cols], then the footer row. *)
Theorem build_menu_lays_out_every_button {A} (buttons : list (option A))
    (n_cols : Z) (header_buttons footer_buttons : option (list A)) :
  0 < n_cols ->
  exists rows,
    build_menu buttons n_cols header_buttons footer_buttons
    = Return (row_of header_buttons ++ rows ++ row_of footer_buttons) /\
    concat rows = omap id buttons /\
    forall i row, rows !! i = Some row ->
      row <> [] /\ (length row <= Z.to_nat n_cols)%nat /\
      ((S i < length rows)%nat -> length row = Z.to_nat n_cols).
Proof.
  intros Hn. unfold build_menu, range0.
  destruct (Z.eqb_spec n_cols 0) as [|_]; [lia|].
  destruct (Z.ltb_spec n_cols 0) as [|_]; [lia|].
  cbn [mbind outcome_bind]. set (bs := omap id buttons). set (n := Z.to_nat n_cols).
  assert (Hpos : (0 < n)%nat) by lia.
  exists (map (fun k => take n (drop (k * n)%nat bs))
              (seq 0 ((length bs + n - 1) / n)%nat)).
  split; [|split].
  - rewrite map_map. simpl.
    destruct header_buttons as [[|h hs]|], footer_buttons as [[|f fs]|];
      simpl; by rewrite ?app_nil_r.
  - by apply rows_concat.
  - intros i row Hi. rewrite length_map, length_seq.
    by apply (rows_lookup n bs _ i row Hpos eq_refl).
Qed.

Lemma build_menu_lays_out_every_button_witness :
  exists rows,
    build_menu [Some 1; None; Some 2; Some 3] 2 (Some [0]) None
    = Return (row_of (Some [0]) ++ rows ++ row_of None) /\
    concat rows = omap id [Some 1; None; Some 2; Some 3] /\
    forall i row, rows !! i = Some row ->
      row <> [] /\ (length row <= Z.to_nat 2)%nat /\
      ((S i < length rows)%nat -> length row = Z.to_nat 2).
Proof.
  apply (build_menu_lays_out_every_button [Some 1; None; Some 2; Some 3] 2
           (Some [0]) None).
  lia.
Defined.

(** X7. [build_menu] without a positive number of columns: with
    [n_cols = 0] it raises the [ValueError] of [range], even when there is
    no button to lay out; with a negative [n_cols] it returns a menu with
    none of the buttons, only the header and the footer. *)
Theorem build_menu_without_columns {A} (buttons : list (option A))
    (n_cols : Z) (header_buttons footer_buttons : option (list A)) :
  n_cols <= 0 ->
  build_menu buttons n_cols header_buttons footer_buttons
  = if n_cols =? 0 then Raise range_step_zero
    else Return (row_of header_buttons ++ row_of footer_buttons).
Proof.
  intros Hn. unfold build_menu, range0.
  destruct (Z.eqb_spec n_cols 0) as [|Hne]; [done|].
  destruct (Z.ltb_spec n_cols 0) as [_|]; [|lia].
  simpl. by destruct header_buttons as [[|h hs]|], footer_buttons as [[|f fs]|].
Qed.

Lemma build_menu_without_columns_witness :
  build_menu [Some 1; Some 2] (-1) None (Some [9])
  = Return (row_of None ++ row_of (Some [9])).
Proof.
  apply (build_menu_without_columns [Some 1; Some 2] (-1) None (Some [9])).
  lia.
Defined.

Lemma escape_passes_app (l : list ascii) (p q : string) :
  fold_left
    (fun text escape_char =>
       BotHandler.replace_char escape_char
         (String BotHandler.backslash (String escape_char EmptyString)) text)
    l (p +:+ q)
  = fold_left
      (fun text escape_char =>
         BotHandler.replace_char escape_char
           (String BotHandler.backslash (String escape_char EmptyString)) text)
      l p
    +:+
    fold_left
      (fun text escape_char =>
         BotHandler.replace_char escape_char
           (String BotHandler.backslash (String escape_char EmptyString)) text)
      l q.
Proof.
  revert p q. induction l as [|c l IH]; intros p q; [done|].
  simpl. by rewrite replace_char_app, IH.
Qed.

Lemma escape_markdown_char (c : ascii) :
  BotHandler.escape_markdown (String c EmptyString)
  = if is_special c
    then String BotHandler.backslash (String c EmptyString)
    else String c EmptyString.
Proof. destruct c as [[] [] [] [] [] [] [] []]; reflexivity. Qed.

(** X8. The seventeen replacements of [send_safe], made one after the
    other, do not interfere: together they put one backslash before each
    character of [MARKDOWN_ESCAPE] and change nothing else (no backslash
    that an earlier replacement added is escaped again, and a backslash of
    the text itself is left alone). *)
Theorem escape_markdown_is_one_pass (text : string) :
  BotHandler.escape_markdown text = escape_each text.
Proof.
  induction text as [|c text IH]; [done|].
  change (String c text) with (String c EmptyString +:+ text).
  unfold BotHandler.escape_markdown. rewrite escape_passes_app.
  fold (BotHandler.escape_markdown (String c EmptyString)).
  fold (BotHandler.escape_markdown text).
  rewrite escape_markdown_char, IH.
  change (String c EmptyString +:+ text) with (String c text). simpl.
  by destruct (is_special c).
Qed.

Lemma query_callback_abort (chat : Z) (pid : Z) :
  chat <> 0 ->
  query_callback chat (Some ("abort_" +:+ pretty pid)) = [InterruptProcess pid].
Proof.
  intros Hchat.
  change ("abort_" +:+ pretty pid) with (String "a" ("bort_" +:+ pretty pid)).
  unfold query_callback.
  destruct (Z.eqb_spec chat 0) as [|_]; [done|].
  change (String "a" ("bort_" +:+ pretty pid))
    with ("abort" +:+ String "_" (pretty pid)).
  rewrite split_app by reflexivity.
  rewrite split_absent by apply pretty_no_underscore.
  unfold item. simpl. by rewrite int_pretty.
Qed.

Lemma stripped_line_is_field (sep_text : string) (line : string) :
  line ∈ split BotHandler.newline
           (BotHandler.replace_char carriage_return EmptyString sep_text) ->
  (0 <? String.length (strip line))%nat = true ->
  is_field (strip line).
Proof.
  intros Hin Hlen.
  destruct (split_items BotHandler.newline carriage_return _ _ Hin) as [Hnl Hcr].
  split; [by destruct (strip line)|]. split; [apply strip_idempotent|].
  split; [by apply has_char_strip|].
  apply has_char_strip, Hcr, replace_char_removes.
Qed.

Lemma parse_request_fields (text login password link : string) :
  parse_request text = Return (login, password, link) ->
  is_field login /\ is_field password /\ is_field link.
Proof.
  unfold parse_request, item, assert_.
  set (lines := split BotHandler.newline _).
  destruct (lines !! 0%nat) as [l0|] eqn:H0; [|done]. cbn [mbind outcome_bind].
  destruct (0 <? String.length (strip l0))%nat eqn:Hl0; [|done]. cbn [mbind outcome_bind].
  destruct (lines !! 1%nat) as [l1|] eqn:H1; [|done]. cbn [mbind outcome_bind].
  destruct (0 <? String.length (strip l1))%nat eqn:Hl1; [|done]. cbn [mbind outcome_bind].
  destruct (lines !! 2%nat) as [l2|] eqn:H2; [|done]. cbn [mbind outcome_bind].
  destruct (0 <? String.length (strip l2))%nat eqn:Hl2; [|done]. cbn [mbind outcome_bind].
  intros [= <- <- <-].
  apply list_elem_of_lookup_2 in H0, H1, H2.
  split; [|split]; by eapply stripped_line_is_field.
Qed.

Lemma reply_actions (w : env) (user_id : Z) (text : string) :
  exists r a x, reply w user_id text = (r, [Reply a x]) /\ BotHandler.chat_id a = user_id.
Proof. unfold reply. by do 3 eexists. Qed.

(** X9. [bot_message] starts a job only for a request that it has
    checked: when it calls [start_new_process], it does so once, for the
    chat the message came from, it sends no reply, the link has passed the
    check of [link_check_regex], and login, password and link are each
    non-empty, without whitespace at either end and without a line break
    ([\n] or [\r]) inside. *)
Theorem bot_message_starts_only_checked_requests
    (w : env) (user_id : Z) (text login password link : string) (chat : Z) :
  StartNewProcess login password link chat ∈ snd (bot_message w user_id text) ->
  bot_message w user_id text
  = (Return (), [StartNewProcess login password link chat]) /\
  chat = user_id /\ link_check w link = Return true /\
  is_field login /\ is_field password /\ is_field link.
Proof.
  unfold bot_message.
  destruct (parse_request text) as [[[l p] k]|e] eqn:Hparse.
  - destruct (parse_request_fields _ _ _ _ Hparse) as (? & ? & ?).
    destruct (link_check w k) as [[]|e] eqn:Hcheck.
    + simpl. intros [= -> -> -> ->]%list_elem_of_singleton.
      split; [done|]. split; [done|]. by split.
    + destruct (reply_actions w user_id (wrong_link w)) as (r & a & x & -> & _).
      simpl. intros [?|[?|?%elem_of_nil]%elem_of_cons]%elem_of_cons; done.
    + destruct (is_Exception (exn_class e)); [|by intros ?%elem_of_nil].
      destruct (reply_actions w user_id (wrong_message w (exn_msg e)))
        as (r & a & x & -> & _).
      simpl. intros [?|[?|?%elem_of_nil]%elem_of_cons]%elem_of_cons; done.
  - destruct (reply_actions w user_id (wrong_message w (exn_msg e)))
      as (r & a & x & -> & _).
    simpl. intros [?|[?|?%elem_of_nil]%elem_of_cons]%elem_of_cons; done.
Qed.

Lemma append_char (c : ascii) (s : string) :
  String c EmptyString +:+ s = String c s.
Proof. reflexivity. Qed.

Lemma replace_cr_eol (crlf : bool) :
  BotHandler.replace_char carriage_return EmptyString (eol crlf)
  = String BotHandler.newline EmptyString.
Proof. by destruct crlf. Qed.

Lemma ends_clean_eol (crlf : bool) (s : string) :
  ends_clean s = true -> ends_clean (eol crlf +:+ s) = true.
Proof. apply ends_clean_app. Qed.

Lemma strip_field (s : string) :
  is_field s -> strip s = s /\ (0 <? String.length s)%nat = true.
Proof. intros (Hne & Hs & _). split; [done|]. by destruct s. Qed.

(** X10. [bot_message] accepts every well-formed request: three fields
    (each non-empty, without whitespace at either end and without a line
    break inside) on three lines, the lines ended by [\n] or by [\r\n], with
    a link that passes the check, start one job with exactly these fields
    for the chat of the sender, and no reply is sent. *)
Theorem bot_message_accepts_a_well_formed_request
    (w : env) (user_id : Z) (login password link : string) (crlf1 crlf2 : bool) :
  is_field login -> is_field password -> is_field link ->
  link_check w link = Return true ->
  bot_message w user_id
    (login +:+ eol crlf1 +:+ password +:+ eol crlf2 +:+ link)
  = (Return (), [StartNewProcess login password link user_id]).
Proof.
  intros Hl Hp Hk Hcheck.
  destruct (field_clean _ Hl) as [Hls _], (field_clean _ Hk) as [_ Hke].
  destruct (strip_field _ Hl) as [Hsl Hnl], (strip_field _ Hp) as [Hsp Hnp],
    (strip_field _ Hk) as [Hsk Hnk].
  destruct Hl as (_ & _ & Hl_nl & Hl_cr), Hp as (_ & _ & Hp_nl & Hp_cr),
    Hk as (_ & _ & Hk_nl & Hk_cr).
  assert (Hsplit :
            split BotHandler.newline
              (BotHandler.replace_char carriage_return EmptyString
                 (strip (login +:+ eol crlf1 +:+ password +:+ eol crlf2 +:+ link)))
            = [login; password; link]).
  { rewrite strip_clean.
    2:{ by apply starts_clean_app. }
    2:{ by repeat apply ends_clean_app. }
    rewrite !replace_char_app, !replace_cr_eol.
    rewrite !(replace_char_absent carriage_return) by done.
    rewrite !append_char.
    rewrite (split_app _ login) by done.
    rewrite (split_app _ password) by done.
    by rewrite split_absent. }
  assert (Hparse : parse_request
            (login +:+ eol crlf1 +:+ password +:+ eol crlf2 +:+ link)
          = Return (login, password, link)).
  { unfold parse_request. fold carriage_return. rewrite Hsplit.
    unfold item. simpl. by rewrite Hsl, Hsp, Hsk, Hnl, Hnp, Hnk. }
  unfold bot_message. by rewrite Hparse, Hcheck.
Qed.

Lemma bot_message_starts_only_checked_requests_witness :
  bot_message any_link 5
    ("user" +:+ eol false +:+ "secret" +:+ eol false +:+ "https://lms.example/course/1")
  = (Return (), [StartNewProcess "user" "secret" "https://lms.example/course/1" 5]) /\
  5 = 5 /\ link_check any_link "https://lms.example/course/1" = Return true /\
  is_field "user" /\ is_field "secret" /\ is_field "https://lms.example/course/1".
Proof.
  apply (bot_message_starts_only_checked_requests any_link 5).
  vm_compute. constructor.
Defined.

Lemma bot_message_accepts_a_well_formed_request_witness :
  bot_message any_link 5
    ("user" +:+ eol true +:+ "secret" +:+ eol false +:+ "https://lms.example/course/1")
  = (Return (), [StartNewProcess "user" "secret" "https://lms.example/course/1" 5]).
Proof.
  apply (bot_message_accepts_a_well_formed_request any_link 5).
  - repeat split; (discriminate || reflexivity).
  - repeat split; (discriminate || reflexivity).
  - repeat split; (discriminate || reflexivity).
  - reflexivity.
Defined.

Lemma builds_cons_Build (l : list bot_event) : builds (Build :: l) = S (builds l).
Proof. reflexivity. Qed.

Lemma builds_app (l k : list bot_event) : builds (l ++ k) = (builds l + builds k)%nat.
Proof. unfold builds. by rewrite List.filter_app, length_app. Qed.

Lemma sleeps_app (l k : list bot_event) : sleeps (l ++ k) = sleeps l ++ sleeps k.
Proof. apply omap_app. Qed.

Lemma start_bot_restart (is_NE : exc_class -> bool) (p : polling) (passes : list polling) :
  restarts is_NE p = true ->
  exists l,
    start_bot is_NE (p :: passes)
    = (fst (start_bot is_NE passes), Build :: l ++ snd (start_bot is_NE passes)) /\
    builds l = 0%nat /\ sleeps l = [delay p].
Proof.
  intros Hp. cbn [start_bot].
  destruct (start_bot is_NE passes) as [r t]. destruct p as [[]|e]; simpl in Hp.
  - done.
  - by eexists.
  - apply andb_prop in Hp as [Hint Hne]. apply negb_true_iff in Hint.
    rewrite Hint, Hne. by eexists.
Qed.

Lemma start_bot_end (is_NE : exc_class -> bool) (p : polling) (passes : list polling) :
  restarts is_NE p = false ->
  exists l,
    start_bot is_NE (p :: passes) = (Some (ending p), Build :: l) /\
    builds l = 0%nat /\ sleeps l = [] /\
    (ending p = Return () -> last l = Some (BotLog "Telegram bot stopped")).
Proof.
  intros Hp. cbn [start_bot]. destruct p as [[]|e]; simpl in Hp |- *.
  - by eexists.
  - done.
  - destruct (is_interrupt (exn_class e)); simpl in *; [by eexists|].
    rewrite Hp. destruct (is_Exception (exn_class e)); by eexists.
Qed.

(** X11. The loop of [start_bot] builds and runs the bot again after
    every pass that ends in a [NetworkError] (after 10 s) or in a return of
    [run_polling] that the stop handler did not cause (after 1 s), and it
    ends at the first other pass: by returning, with "Telegram bot stopped"
    as the last log line, after a stop, a [KeyboardInterrupt], a
    [SystemExit] or any other [Exception]; by letting the exception through
    otherwise.  What would come after that pass plays no part. *)
Theorem start_bot_restarts_until_stopped (is_NE : exc_class -> bool)
    (restarted : list polling) (final : polling) (rest : list polling) :
  Forall (fun p => restarts is_NE p = true) restarted ->
  restarts is_NE final = false ->
  exists l,
    start_bot is_NE (restarted ++ final :: rest) = (Some (ending final), l) /\
    builds l = S (length restarted) /\
    sleeps l = map delay restarted /\
    (ending final = Return () -> last l = Some (BotLog "Telegram bot stopped")).
Proof.
  intros Hre Hfinal. induction Hre as [|p restarted Hp _ IH].
  - destruct (start_bot_end is_NE final rest Hfinal) as (l & Heq & Hb & Hs & Hlast).
    exists (Build :: l). split; [exact Heq|]. rewrite builds_cons_Build, Hb.
    split; [done|]. split; [done|].
    intros He. specialize (Hlast He). by destruct l.
  - destruct IH as (l & Heq & Hb & Hs & Hlast).
    destruct (start_bot_restart is_NE p (restarted ++ final :: rest) Hp)
      as (l1 & Hstep & Hb1 & Hs1).
    rewrite Heq in Hstep. simpl in Hstep.
    exists (Build :: l1 ++ l). split; [exact Hstep|].
    rewrite builds_cons_Build, builds_app, Hb1, Hb. split; [done|].
    split.
    { change (Build :: l1 ++ l) with ([Build] ++ l1 ++ l).
      rewrite !sleeps_app, Hs1, Hs. done. }
    intros He. specialize (Hlast He).
    change (Build :: l1 ++ l) with (([Build] ++ l1) ++ l).
    destruct l as [|x l]; [done|]. by rewrite last_app_cons.
Qed.

Lemma start_bot_restarts_until_stopped_witness :
  exists l,
    start_bot is_NetworkError
      ([Failed Examples.NetworkError; Returned false] ++ Returned true :: [Returned false])
    = (Some (ending (Returned true)), l) /\
    builds l = S (length [Failed Examples.NetworkError; Returned false]) /\
    sleeps l = map delay [Failed Examples.NetworkError; Returned false] /\
    (ending (Returned true) = Return () ->
     last l = Some (BotLog "Telegram bot stopped")).
Proof.
  apply (start_bot_restarts_until_stopped is_NetworkError).
  - repeat constructor.
  - reflexivity.
Defined.

End HandlersMore.

(** ** The log relay *)

Module RelayMore.

Import Relay.
Import Notions.
Import StrFacts.

Lemma length_append (s t : string) :
  String.length (s +:+ t) = (String.length s + String.length t)%nat.
Proof. induction s as [|c s IH]; [done|]. rewrite append_cons. simpl. by rewrite IH. Qed.

Lemma drop_chars_all (n : nat) (s : string) :
  (String.length s <= n)%nat -> drop_chars n s = EmptyString.
Proof.
  revert n. induction s as [|c s IH]; intros [|n] H; try done; simpl in *; [lia|].
  apply IH. lia.
Qed.

Lemma drop_chars_append (n : nat) (s t : string) :
  (n <= String.length s)%nat -> drop_chars n (s +:+ t) = drop_chars n s +:+ t.
Proof.
  revert n. induction s as [|c s IH]; intros [|n] H; try done; simpl in *; [lia|].
  rewrite ?append_cons. simpl. apply IH. lia.
Qed.

Lemma drop_chars_drop_chars (n m : nat) (s : string) :
  drop_chars m (drop_chars n s) = drop_chars (n + m) s.
Proof.
  revert s. induction n as [|n IH]; intros s; [done|].
  destruct s as [|c s]; simpl; [by destruct m|]. apply IH.
Qed.

Lemma prevent_overflow_tail (cap : Z) (s : string) :
  0 < cap -> prevent_overflow cap s = tail_of cap s.
Proof.
  intros Hcap. unfold prevent_overflow, tail_of, slice_from.
  destruct (Z.gtb_spec (Z.of_nat (String.length s)) cap) as [Hgt|Hle].
  - destruct (Z.ltb_spec (- cap) 0) as [_|]; [|lia]. f_equal. lia.
  - replace (String.length s - Z.to_nat cap)%nat with 0%nat by lia. done.
Qed.

Lemma tail_of_tail_of (cap : Z) (s t : string) :
  tail_of cap (tail_of cap s +:+ t) = tail_of cap (s +:+ t).
Proof.
  unfold tail_of. rewrite !length_append, !RelayProps.length_drop_chars.
  set (c := Z.to_nat cap). set (n := String.length s). set (k := String.length t).
  destruct (decide (n <= c)%nat) as [Hle|Hgt].
  - replace (n - c)%nat with 0%nat by lia. simpl. f_equal. lia.
  - replace (n + k - c)%nat with ((n - c) + k)%nat by lia.
    rewrite <- drop_chars_drop_chars.
    rewrite (drop_chars_append (n - c) s t) by (subst n; lia).
    f_equal. lia.
Qed.

Lemma aborts_nil (w : env) : aborts w [].
Proof. by intros e b ?%elem_of_nil. Qed.

Lemma aborts_app (w : env) (t u : list event) :
  aborts w t -> aborts w u -> aborts w (t ++ u).
Proof. intros Ht Hu e b [?|?]%elem_of_app; [by apply Ht|by apply Hu]. Qed.

Lemma aborts_quiet (w : env) (e : event) : buttons_of e = [] -> aborts w [e].
Proof. intros He e' b ->%list_elem_of_singleton. rewrite He. by intros ?%elem_of_nil. Qed.

Lemma forwards_app (t u : list event) : forwards (t ++ u) = forwards t ++ forwards u.
Proof. apply omap_app. Qed.

(** One call of [_send_message]: one more event, one more API call, the
    local variables of the loop untouched. *)
Lemma send_message_shape (w : env) (id : option Z) (rows base : string) (st : state) :
  exists c r n,
    _send_message w id rows base st
    = (r, State (log_rows st) (message_id st) (last_time_sent st) (line_n st)
                (trace st ++ [Send base c r]) n (S (api_calls st))) /\
    aborts w [Send base c r].
Proof.
  unfold _send_message, time.
  destruct (String.eqb base "log_message"); simpl;
    (do 3 eexists; split; [reflexivity|]).
  - intros e b ->%list_elem_of_singleton. simpl.
    by intros ->%list_elem_of_singleton.
  - by apply aborts_quiet.
Qed.

(** What a pass of the loop leaves: the events it adds, and the buffer and
    the line number that it sets. *)
Lemma send_when_due_shape (w : env) (st : state) :
  exists new,
    trace (Spec.state_of (send_when_due w st)) = trace st ++ new /\
    aborts w new /\ forwards new = [] /\
    log_rows (Spec.state_of (send_when_due w st)) = log_rows st /\
    line_n (Spec.state_of (send_when_due w st)) = line_n st.
Proof.
  unfold send_when_due, time. cbn -[_send_message Qle_bool].
  destruct (Qle_bool _ _).
  - match goal with
    | |- context [_send_message ?w ?i ?r ?b ?s] =>
        destruct (send_message_shape w i r b s) as (c & x & n & -> & Hab)
    end.
    destruct x as [id|e]; simpl.
    + eexists. rewrite <- app_assoc. split; [reflexivity|].
      split; [|done]. apply aborts_app; [done|by apply aborts_quiet].
    + eexists. split; [reflexivity|]. by split.
  - simpl. eexists. split; [reflexivity|]. split; [by apply aborts_quiet|done].
Qed.

Lemma iteration_record (w : env) (m : string) (st : state) :
  iteration w (Some (VLogRecord m)) st
  = if String.prefix (TELEGRAM_LOGS_IGNORE_PREFIX w) m
    then Continue (emit (Forward (VLogRecord m)) st)
    else send_when_due w
           (State (prevent_overflow (max_log_symbols (cfg w))
                     (log_rows st +:+ log_message_format w (line_n st) m))
                  (message_id st) (last_time_sent st) (line_n st + 1)
                  (trace st ++ [Forward (VLogRecord m)])
                  (clock_reads st) (api_calls st)).
Proof. reflexivity. Qed.

Lemma iteration_shape (w : env) (got : option value) (st : state) :
  exists new,
    trace (Spec.state_of (iteration w got st)) = trace st ++ new /\
    aborts w new /\
    forwards new = records [got] /\
    (Spec.is_Continue (iteration w got st) = true ->
     match shown_line w got with
     | Some m =>
         log_rows (Spec.state_of (iteration w got st))
         = prevent_overflow (max_log_symbols (cfg w))
             (log_rows st +:+ log_message_format w (line_n st) m) /\
         line_n (Spec.state_of (iteration w got st)) = line_n st + 1
     | None =>
         log_rows (Spec.state_of (iteration w got st)) = log_rows st /\
         line_n (Spec.state_of (iteration w got st)) = line_n st
     end).
Proof.
  destruct got as [v|].
  2:{ change (iteration w None st) with (send_when_due w st). simpl.
      destruct (send_when_due_shape w st) as (new & ? & ? & ? & ? & ?).
      exists new. by repeat split. }
  destruct v as [| |m| |].
  3:{ rewrite iteration_record. unfold shown_line.
      destruct (String.prefix _ m) eqn:Hprefix.
      - exists [Forward (VLogRecord m)]. simpl.
        split; [done|]. split; [by apply aborts_quiet|]. by split.
      - match goal with
        | |- context [send_when_due w ?s] =>
            destruct (send_when_due_shape w s) as (new & -> & Hab & Hfw & -> & ->)
        end.
        simpl. exists (Forward (VLogRecord m) :: new).
        rewrite <- app_assoc. split; [done|].
        split; [apply (aborts_app w [_]); [by apply aborts_quiet|done]|].
        split; [simpl; by rewrite Hfw|]. done. }
  all: cbn -[_send_message send_when_due].
  all: match goal with
       | |- context [_send_message ?w ?i ?r ?b ?s] =>
           destruct (send_message_shape w i r b s) as (c & x & n & -> & Hab)
       end.
  all: destruct x as [id|err]; simpl; eexists; rewrite <- app_assoc;
         (split; [reflexivity|]);
         (split; [apply (aborts_app w [_]); [by apply aborts_quiet|done]|]);
         by split.
Qed.

Lemma loop_shape (w : env) (gets : list (option value)) (st : state) :
  exists new,
    trace (Spec.state_of (loop w gets st)) = trace st ++ new /\
    aborts w new /\
    forwards new `prefix_of` records gets /\
    (Spec.is_Continue (loop w gets st) = true -> forwards new = records gets).
Proof.
  revert st. induction gets as [|got gets IH]; intros st.
  - exists []. simpl. rewrite app_nil_r. split; [done|]. split; [apply aborts_nil|].
    by split.
  - destruct (iteration_shape w got st) as (new1 & Htr & Hab & Hfw & _).
    assert (Hcons : records (got :: gets) = records [got] ++ records gets).
    { unfold records. by rewrite <- omap_app. }
    cbn [loop]. destruct (iteration w got st) as [st1|st1|e st1] eqn:Hit.
    + destruct (IH st1) as (new2 & Htr2 & Hab2 & Hfw2 & Heq2).
      exists (new1 ++ new2). simpl in Htr. rewrite Htr2, Htr, app_assoc.
      split; [done|]. split; [by apply aborts_app|].
      rewrite forwards_app, Hfw, Hcons.
      split; [by apply prefix_app|]. intros Hc. by rewrite Heq2.
    + exists new1. split; [done|]. split; [done|]. rewrite Hfw, Hcons.
      split; [by apply prefix_app_r|done].
    + exists new1. split; [done|]. split; [done|]. rewrite Hfw, Hcons.
      split; [by apply prefix_app_r|done].
Qed.

Lemma numbered_app (w : env) (n : Z) (l k : list string) :
  numbered w n (l ++ k) = numbered w n l +:+ numbered w (n + Z.of_nat (length l)) k.
Proof.
  revert n. induction l as [|m l IH]; intros n; simpl.
  - by rewrite Z.add_0_r.
  - rewrite IH, append_assoc. do 3 f_equal. lia.
Qed.

Lemma shown_cons (w : env) (got : option value) (gets : list (option value)) :
  shown w (got :: gets)
  = match shown_line w got with
    | Some m => m :: shown w gets
    | None => shown w gets
    end.
Proof. reflexivity. Qed.

Lemma loop_buffer (w : env) (gets : list (option value)) (st st' : state) (log : string) :
  0 < max_log_symbols (cfg w) ->
  log_rows st = tail_of (max_log_symbols (cfg w)) log ->
  loop w gets st = Continue st' ->
  log_rows st'
  = tail_of (max_log_symbols (cfg w))
      (log +:+ numbered w (line_n st) (shown w gets)) /\
  line_n st' = line_n st + Z.of_nat (length (shown w gets)).
Proof.
  intros Hcap. revert st log. induction gets as [|got gets IH]; intros st log Hlog.
  - intros [= <-]. simpl. rewrite append_nil_r, Z.add_0_r. done.
  - cbn [loop]. destruct (iteration_shape w got st) as (_ & _ & _ & _ & Hrows).
    destruct (iteration w got st) as [st1|st1|e st1] eqn:Hit; [|done..].
    intros Hloop. specialize (Hrows eq_refl). simpl in Hrows.
    rewrite shown_cons.
    destruct (shown_line w got) as [m|].
    + destruct Hrows as [Hr Hn].
      destruct (IH st1 (log +:+ log_message_format w (line_n st) m)) as [-> ->];
        [|done|].
      { rewrite Hr, prevent_overflow_tail, Hlog by done. apply tail_of_tail_of. }
      rewrite Hn. cbn [numbered length]. rewrite append_assoc. split; [done|]. lia.
    + destruct Hrows as [Hr Hn]. destruct (IH st1 log) as [-> ->]; [congruence|done|].
      by rewrite Hn.
Qed.

Lemma length_tail_of (cap : Z) (s : string) :
  0 < cap -> Z.of_nat (String.length (tail_of cap s)) <= cap.
Proof. intros Hcap. unfold tail_of. rewrite RelayProps.length_drop_chars. lia. Qed.

(** X12. With a positive [max_log_symbols], the buffer that the relay
    shows to the user is, at every pass, the last [max_log_symbols]
    characters of the whole numbered log: the lines are numbered from 1 in
    the order of arrival, records that begin with the ignore prefix take no
    number, and cutting the buffer at each record loses nothing that
    cutting the whole log would keep.  Neither the clock nor what Telegram
    answers has a part in it. *)
Theorem relay_shows_the_tail_of_the_numbered_log
    (w : env) (gets : list (option value)) (st' : state) :
  0 < max_log_symbols (cfg w) ->
  logs_to_message_loop w gets = Continue st' ->
  log_rows st' = tail_of (max_log_symbols (cfg w)) (numbered w 1 (shown w gets)) /\
  line_n st' = 1 + Z.of_nat (length (shown w gets)) /\
  Z.of_nat (String.length (log_rows st')) <= max_log_symbols (cfg w).
Proof.
  intros Hcap Hloop.
  destruct (loop_buffer w gets (initial w) st' EmptyString Hcap eq_refl Hloop)
    as [Hrows Hn].
  split; [exact Hrows|]. split; [exact Hn|].
  rewrite Hrows. by apply length_tail_of.
Qed.

Lemma relay_shows_the_tail_of_the_numbered_log_witness :
  log_rows (Spec.state_of (logs_to_message_loop
              (Examples.relay 20 Examples.api_ok)
              [None; Some (VLogRecord "Logging in");
               Some (VLogRecord "HTTP Request: POST");
               Some (VLogRecord "Downloading")]))
  = tail_of (max_log_symbols (cfg (Examples.relay 20 Examples.api_ok)))
      (numbered (Examples.relay 20 Examples.api_ok) 1
         (shown (Examples.relay 20 Examples.api_ok)
            [None; Some (VLogRecord "Logging in");
             Some (VLogRecord "HTTP Request: POST");
             Some (VLogRecord "Downloading")])) /\
  line_n (Spec.state_of (logs_to_message_loop
            (Examples.relay 20 Examples.api_ok)
            [None; Some (VLogRecord "Logging in");
             Some (VLogRecord "HTTP Request: POST");
             Some (VLogRecord "Downloading")]))
  = 1 + Z.of_nat (length (shown (Examples.relay 20 Examples.api_ok)
                            [None; Some (VLogRecord "Logging in");
                             Some (VLogRecord "HTTP Request: POST");
                             Some (VLogRecord "Downloading")])) /\
  Z.of_nat (String.length
              (log_rows (Spec.state_of (logs_to_message_loop
                           (Examples.relay 20 Examples.api_ok)
                           [None; Some (VLogRecord "Logging in");
                            Some (VLogRecord "HTTP Request: POST");
                            Some (VLogRecord "Downloading")]))))
  <= max_log_symbols (cfg (Examples.relay 20 Examples.api_ok)).
Proof.
  apply (relay_shows_the_tail_of_the_numbered_log
           (Examples.relay 20 Examples.api_ok)
           [None; Some (VLogRecord "Logging in");
            Some (VLogRecord "HTTP Request: POST");
            Some (VLogRecord "Downloading")]).
  - reflexivity.
  - vm_compute. reflexivity.
Defined.

(** X13. The relay puts every log record that it takes from the internal
    queue on the main logging queue, in the order of arrival and whether or
    not the record is shown to the user; it puts nothing else there, and
    nothing after the termination marker. *)
Theorem relay_forwards_every_record (w : env) (gets : list (option value)) :
  forwards (trace (Spec.state_of (logs_to_message_loop w gets)))
    `prefix_of` records gets /\
  (Spec.is_Continue (logs_to_message_loop w gets) = true ->
   forwards (trace (Spec.state_of (logs_to_message_loop w gets))) = records gets).
Proof.
  destruct (loop_shape w gets (initial w)) as (new & Htr & _ & Hpre & Heq).
  unfold logs_to_message_loop. rewrite Htr. simpl. by split.
Qed.

Lemma relay_forwards_every_record_witness :
  forwards (trace (Spec.state_of (logs_to_message_loop
              (Examples.relay 20 Examples.api_ok)
              [None; Some (VLogRecord "Logging in");
               Some (VLogRecord "HTTP Request: POST")])))
  = records [None; Some (VLogRecord "Logging in");
             Some (VLogRecord "HTTP Request: POST")].
Proof.
  apply (relay_forwards_every_record (Examples.relay 20 Examples.api_ok)
           [None; Some (VLogRecord "Logging in");
            Some (VLogRecord "HTTP Request: POST")]).
  vm_compute. reflexivity.
Defined.

End RelayMore.

(** ** The supervising process *)

Module SupervisorMore.

Import Supervisor.
Import Spec.
Import Notions.
Import SupervisorProps.

Lemma run_wait_loop_idle (w : env) (ps : list poll) (st : state) :
  Forall idle ps ->
  run (wait_loop w ps) st = (Pending, extend (waits (length ps)) st).
Proof.
  intros Hps. revert st. induction Hps as [|q ps [Hq1 Hq2] _ IH]; intros st.
  - simpl. by rewrite extend_nil.
  - cbn [wait_loop]. rewrite Hq1, Hq2, run_bind, run_emit, IH, extend_extend.
    reflexivity.
Qed.

Lemma run_wait_loop_interrupted (w : env) (pre post : list poll) (p : poll)
    (st : state) :
  return_data p = None -> interrupt_is_set p = true -> Forall idle pre ->
  run (wait_loop w (pre ++ p :: post)) st
  = (Raised (Exn KeyboardInterrupt EmptyString), extend (waits (length pre)) st).
Proof.
  intros Hp1 Hp2 Hpre. revert st. induction Hpre as [|q pre [Hq1 Hq2] _ IH]; intros st.
  - simpl. rewrite Hp1, Hp2. by rewrite extend_nil.
  - cbn [app wait_loop]. rewrite Hq1, Hq2, run_bind, run_emit, IH, extend_extend.
    reflexivity.
Qed.

(** X14. The supervising process sets no deadline of its own: while the
    worker has returned nothing and the interrupt event is not set, it goes
    on waiting, a tenth of a second at a time; it has put no marker on the
    queue of the relay and has cleaned nothing up. *)
Theorem supervisor_waits_while_nothing_arrives (w : env) :
  starts w -> Forall idle (polls w) ->
  exists st,
    _lms_downloader_process w = (Pending, st) /\
    trace st = trace started ++ waits (length (polls w)) /\
    puts (trace st) = [] /\ (Cleanup ∉ trace st).
Proof.
  intros Hstart Hidle.
  pose proof (run_try_body_starts w Hstart) as Hrun.
  rewrite (run_wait_loop_idle w _ _ Hidle) in Hrun.
  rewrite (process_after_body w _ _ Hrun).
  eexists. split; [reflexivity|]. split; [reflexivity|].
  assert (Hq : quiet (trace started ++ waits (length (polls w)))).
  { apply Forall_app. split; [apply quiet_started|apply quiet_waits]. }
  split; [by apply quiet_puts|by apply quiet_no_cleanup].
Qed.

Lemma supervisor_waits_while_nothing_arrives_witness :
  exists st,
    _lms_downloader_process
      (Examples.supervisor [Poll None false; Poll None false] Examples.first_file_fails)
    = (Pending, st) /\
    trace st = trace started ++ waits 2 /\
    puts (trace st) = [] /\ (Cleanup ∉ trace st).
Proof.
  apply (supervisor_waits_while_nothing_arrives
           (Examples.supervisor [Poll None false; Poll None false]
                                Examples.first_file_fails)).
  - repeat split.
  - repeat constructor.
Defined.

Lemma clock_reads_advance (l : list event) (n : nat) (st : state) :
  clock_reads (advance l n st) = (clock_reads st + n)%nat.
Proof. reflexivity. Qed.

Lemma trace_advance (l : list event) (n : nat) (st : state) :
  trace (advance l n st) = trace st ++ l.
Proof. reflexivity. Qed.

(** The loop that waits for the child to go away: what it does, and when
    it kills. *)
Lemma terminate_loop_shape (w : env) (timer : Q) (alive : list bool) (st : state) :
  exists r l n,
    run (terminate_loop w timer alive) st = (r, advance l n st) /\
    quiet l /\ attempts l = 0%nat /\
    (r = Done () \/ (exists f, r = Raised (exn_of_fault f)) \/
     (r = Pending /\ false ∉ alive)) /\
    (ChildKill ∈ l ->
     exists k,
       alive !! k = Some true /\
       (forall j, (j < k)%nat -> alive !! j = Some true) /\
       ~ (clock w (clock_reads st + k) - timer
          <= CHILD_PROCESS_MAX_TERMINATE_TIME)%Q).
Proof.
  revert st. induction alive as [|a alive IH]; intros st.
  - exists Pending, [], 0%nat. rewrite advance_nil. split; [reflexivity|].
    split; [constructor|]. split; [reflexivity|].
    split; [right; right; split; [reflexivity|by intros ?%elem_of_nil]|].
    by intros ?%elem_of_nil.
  - cbn [terminate_loop]. destruct a; cbn [negb].
    + rewrite run_bind, run_time.
      destruct (Qle_bool _ _) eqn:Hle; cbn [negb].
      * destruct (IH (advance [] 1 st)) as (r & l & n & -> & Hq & Hat & Hr & Hkill).
        exists r, l, (1 + n)%nat. rewrite advance_advance. split; [reflexivity|].
        split; [exact Hq|]. split; [exact Hat|]. split.
        { destruct Hr as [Hr|[Hr|[Hr Hnot]]]; [by left|by right; left|].
          right. right. split; [exact Hr|].
          intros [Hin|Hin]%elem_of_cons; [discriminate|done]. }
        intros Hin. destruct (Hkill Hin) as (k & Hk & Hbefore & Hlate).
        exists (S k). split; [exact Hk|]. split.
        { intros [|j] Hj; [done|]. apply Hbefore. lia. }
        rewrite clock_reads_advance in Hlate.
        by replace (clock_reads st + S k)%nat with (clock_reads st + 1 + k)%nat by lia.
      * rewrite run_bind, run_emit_advance, advance_advance. unfold call.
        rewrite run_bind, run_emit_advance, advance_advance.
        assert (Hlate : exists k,
                  (true :: alive) !! k = Some true /\
                  (forall j, (j < k)%nat -> (true :: alive) !! j = Some true) /\
                  ~ (clock w (clock_reads st + k) - timer
                     <= CHILD_PROCESS_MAX_TERMINATE_TIME)%Q).
        { exists 0%nat. split; [done|]. split; [lia|].
          rewrite Nat.add_0_r. intros Hq%Qle_bool_iff. congruence. }
        destruct (child_kill w) as [f|].
        -- eexists _, _, _. split; [reflexivity|]. split; [repeat constructor|].
           split; [reflexivity|]. split; [right; left; by exists f|done].
        -- eexists _, _, _. split; [reflexivity|]. split; [repeat constructor|].
           split; [reflexivity|]. split; [by left|done].
    + rewrite run_emit_advance. eexists _, _, _. split; [reflexivity|].
      split; [repeat constructor|]. split; [reflexivity|]. split; [by left|].
      intros Hin. no_cleanup Hin.
Qed.

Ltac split_elem H :=
  repeat first
    [ apply elem_of_app in H as [H|H]
    | apply elem_of_cons in H as [H|H]
    | apply elem_of_nil in H; destruct H ];
  try discriminate H.

(** The clause [except (KeyboardInterrupt, SystemExit)]. *)
Lemma on_interrupt_shape (w : env) (st : state) :
  exists r l n,
    run (on_interrupt w) st = (r, advance l n st) /\
    attempts l = 0%nat /\
    ((r = Done () /\
      exists l1, l = l1 ++ [Log ErrorParentInterrupted; Put interrupted_marker] /\
                 quiet l1) \/
     (r = Pending /\ quiet l /\ false ∉ child_is_alive w)) /\
    (child_process st = true ->
     exists l', l = [Log InfoTerminatingChild; OsKillSIGINT] ++ l') /\
    (ChildKill ∈ l ->
     child_process st = true /\ os_kill w = None /\
     exists k, outlived_grace w (clock_reads st) k).
Proof.
  unfold on_interrupt. rewrite run_bind. cbn [get run].
  destruct (child_process st) eqn:Hchild.
  - rewrite !run_bind, run_time, run_try_except_Exception. run_steps.
    destruct (os_kill w) as [f|] eqn:Hos; run_steps.
    + rewrite <- ?app_assoc. cbn [app].
      eexists _, _, _. split; [reflexivity|]. split; [reflexivity|].
      split; [|split].
      * left. split; [reflexivity|].
        exists [Log InfoTerminatingChild; OsKillSIGINT;
                Log (ErrorTerminatingChild (fault_msg f))].
        split; [reflexivity|repeat constructor].
      * intros _. by eexists.
      * intros Hin. split_elem Hin.
    + match goal with
      | |- context [run (terminate_loop w ?t ?a) ?s] =>
          destruct (terminate_loop_shape w t a s)
            as (r & l & n & -> & Hq & Hat & Hr & Hkill)
      end.
      assert (Hgrace : ChildKill ∈ l ->
                true = true /\ None = None (A := fault) /\
                exists k, outlived_grace w (clock_reads st) k).
      { intros Hin. split; [done|]. split; [done|].
        destruct (Hkill Hin) as (k & Hk & Hbefore & Hlate). exists k.
        split; [exact Hk|]. split; [exact Hbefore|].
        match type of Hlate with
        | context [clock w ?i] =>
            replace i with (S (clock_reads st) + k)%nat in Hlate by (cbn; lia)
        end.
        exact Hlate. }
      destruct Hr as [->|[[f ->]|[-> Hnot]]]; run_steps;
        rewrite <- ?app_assoc; cbn [app].
      * eexists _, _, _. split; [reflexivity|].
        split.
        { change (attempts ([Log InfoTerminatingChild; OsKillSIGINT]
                            ++ l ++ [Log ErrorParentInterrupted;
                                     Put (VExc (Exn KeyboardInterrupt EmptyString))])
                  = 0%nat).
          by rewrite !attempts_app, Hat. }
        split; [|split].
        -- left. split; [reflexivity|].
           exists ([Log InfoTerminatingChild; OsKillSIGINT] ++ l).
           split; [by rewrite <- app_assoc|].
           apply Forall_app. split; [repeat constructor|exact Hq].
        -- intros _. by eexists.
        -- intros Hin. apply Hgrace. split_elem Hin. exact Hin.
      * eexists _, _, _. split; [reflexivity|].
        split.
        { change (attempts ([Log InfoTerminatingChild; OsKillSIGINT]
                            ++ l ++ [Log (ErrorTerminatingChild (fault_msg f));
                                     Log ErrorParentInterrupted;
                                     Put (VExc (Exn KeyboardInterrupt EmptyString))])
                  = 0%nat).
          by rewrite !attempts_app, Hat. }
        split; [|split].
        -- left. split; [reflexivity|].
           exists ([Log InfoTerminatingChild; OsKillSIGINT] ++ l
                   ++ [Log (ErrorTerminatingChild (fault_msg f))]).
           split; [by rewrite <- !app_assoc|].
           apply Forall_app. split; [repeat constructor|].
           apply Forall_app. split; [exact Hq|repeat constructor].
        -- intros _. by eexists.
        -- intros Hin. apply Hgrace. split_elem Hin. exact Hin.
      * eexists _, _, _. split; [reflexivity|].
        split.
        { change (attempts ([Log InfoTerminatingChild; OsKillSIGINT] ++ l) = 0%nat).
          by rewrite !attempts_app, Hat. }
        split; [|split].
        -- right. split; [reflexivity|]. split; [|exact Hnot].
           apply (Forall_app _ [_; _]). split; [repeat constructor|exact Hq].
        -- intros _. by eexists.
        -- intros Hin. apply Hgrace. split_elem Hin. exact Hin.
  - run_steps. eexists _, _, _. split; [reflexivity|]. split; [reflexivity|].
    split; [|split].
    + left. split; [reflexivity|]. exists []. split; [reflexivity|constructor].
    + done.
    + intros Hin. split_elem Hin.
Qed.

Lemma attempts_waits (n : nat) : attempts (waits n) = 0%nat.
Proof. induction n as [|n IH]; [done|]. exact IH. Qed.

Lemma attempts_closing (st : state) : attempts (closing st) = 0%nat.
Proof. unfold closing. by destruct (internal_logging_thread st), (temp_dir st). Qed.

Lemma puts_closing (st : state) : puts (closing st) = [VNone].
Proof. unfold closing. by destruct (internal_logging_thread st), (temp_dir st). Qed.

(** The run that ends in the interrupt clause. *)
Lemma process_interrupted_shape (w : env) (e : exn) (k : nat) :
  is_interrupt (exn_class e) = true ->
  false ∈ child_is_alive w ->
  run (try_body w) initial = (Raised e, extend (waits k) started) ->
  exists st,
    _lms_downloader_process w = (Done (), st) /\
    puts (trace st) = [interrupted_marker; VNone] /\
    path_of (trace st) = Some Interrupted /\
    attempts (trace st) = 0%nat /\
    OsKillSIGINT ∈ trace st.
Proof.
  intros Hint Halive Hrun.
  rewrite (process_after_body w _ _ Hrun).
  unfold handlers. rewrite Hint. cbn beta iota. rewrite run_bind.
  destruct (on_interrupt_shape w (extend (waits k) started))
    as (r & l & n & -> & Hat & Hr & Hsig & _).
  destruct Hr as [[-> (l1 & Hl & Hq1)]|(_ & _ & Hnot)]; [|done].
  destruct (Hsig eq_refl) as (l' & Hl').
  rewrite run_finish. eexists. split; [reflexivity|].
  rewrite !trace_advance. cbn [extend trace].
  assert (Hputs : puts (((trace started ++ waits k) ++ l)
                        ++ closing (advance l n (extend (waits k) started)))
                  = [interrupted_marker; VNone]).
  { rewrite !puts_app, puts_closing, Hl, puts_app.
    rewrite (quiet_puts _ quiet_started), (quiet_puts _ (quiet_waits _)),
      (quiet_puts _ Hq1). reflexivity. }
  split; [exact Hputs|]. split; [unfold path_of; by rewrite Hputs|].
  split.
  - rewrite !attempts_app, attempts_waits, Hat, attempts_closing. reflexivity.
  - rewrite Hl'. apply elem_of_app. left. apply elem_of_app. right.
    apply elem_of_cons. right. by left.
Qed.

(** X15. When the interrupt event is found set before the worker has
    returned anything (the watchdog at the deadline, or the abort button),
    and the child goes away in the end, the job ends as interrupted: the
    child gets a SIGINT, no file is sent, and the relay is given the
    [KeyboardInterrupt] marker and then [None]. *)
Theorem interrupt_event_ends_the_job_as_interrupted (w : env) :
  starts w -> interrupted_first w -> false ∈ child_is_alive w ->
  exists st,
    _lms_downloader_process w = (Done (), st) /\
    puts (trace st) = [interrupted_marker; VNone] /\
    path_of (trace st) = Some Interrupted /\
    attempts (trace st) = 0%nat /\
    OsKillSIGINT ∈ trace st.
Proof.
  intros Hstart (pre & p & post & Hpolls & Hp1 & Hp2 & Hpre) Halive.
  pose proof (run_try_body_starts w Hstart) as Hrun.
  rewrite Hpolls, (run_wait_loop_interrupted w pre post p _ Hp1 Hp2 Hpre) in Hrun.
  eapply process_interrupted_shape; [|exact Halive|exact Hrun]. reflexivity.
Qed.

Lemma interrupt_event_ends_the_job_as_interrupted_witness :
  exists st,
    _lms_downloader_process
      (Examples.supervisor [Poll None false; Poll None true] Examples.first_file_fails)
    = (Done (), st) /\
    puts (trace st) = [interrupted_marker; VNone] /\
    path_of (trace st) = Some Interrupted /\
    attempts (trace st) = 0%nat /\
    OsKillSIGINT ∈ trace st.
Proof.
  apply (interrupt_event_ends_the_job_as_interrupted
           (Examples.supervisor [Poll None false; Poll None true]
                                Examples.first_file_fails)).
  - repeat split.
  - exists [Poll None false], (Poll None true), [].
    split; [reflexivity|]. split; [reflexivity|]. split; [reflexivity|].
    repeat constructor.
  - apply elem_of_cons. right. by left.
Defined.

(** X16. The interrupt clause kills the child only as a last resort:
    when [child_process.kill()] is among what the clause does, there is a
    child, the SIGINT was sent before and without error, and the child was
    seen alive at a reading of the clock more than
    [CHILD_PROCESS_MAX_TERMINATE_TIME] after the clause began (and at every
    look before).  The clause sends no file. *)
Theorem child_is_killed_only_after_the_grace_time
    (w : env) (st : state) (l : list event) :
  trace (snd (run (on_interrupt w) st)) = trace st ++ l ->
  ChildKill ∈ l ->
  child_process st = true /\ os_kill w = None /\ OsKillSIGINT ∈ l /\
  attempts l = 0%nat /\
  exists k, outlived_grace w (clock_reads st) k.
Proof.
  destruct (on_interrupt_shape w st) as (r & l0 & n & -> & Hat & _ & Hsig & Hkill).
  cbn [snd]. rewrite trace_advance. intros <-%app_inv_head Hin.
  destruct (Hkill Hin) as (Hchild & Hos & Hk).
  split; [exact Hchild|]. split; [exact Hos|]. split; [|by split].
  destruct (Hsig Hchild) as (l' & ->). apply elem_of_cons. right. by left.
Qed.

Lemma child_is_killed_only_after_the_grace_time_witness :
  child_process started = true /\ os_kill stubborn_child = None /\
  OsKillSIGINT ∈ [Log InfoTerminatingChild; OsKillSIGINT;
                  Log (WarnKillingChild CHILD_PROCESS_MAX_TERMINATE_TIME);
                  ChildKill; Log ErrorParentInterrupted; Put interrupted_marker] /\
  attempts [Log InfoTerminatingChild; OsKillSIGINT;
            Log (WarnKillingChild CHILD_PROCESS_MAX_TERMINATE_TIME);
            ChildKill; Log ErrorParentInterrupted; Put interrupted_marker] = 0%nat /\
  exists k, outlived_grace stubborn_child (clock_reads started) k.
Proof.
  apply (child_is_killed_only_after_the_grace_time stubborn_child started).
  - reflexivity.
  - apply elem_of_cons. right. apply elem_of_cons. right.
    apply elem_of_cons. right. by left.
Defined.

Ltac find_elem :=
  solve [repeat first [apply list_elem_of_here | apply list_elem_of_further]].

Ltac start_steps :=
  repeat first
    [ progress run_steps
    | progress cbn [run set_internal_logging_thread set_temp_dir set_child_process] ].

(** X17. An error at start-up (of the relay thread, of the temporary
    directory or of the child process) ends the job as failed with the
    message of the error: the later steps are not taken, nothing is sent
    and no signal is, the relay is given the error and then [None], the
    relay thread is joined even when it is the thread that did not start,
    and the temporary directory is cleaned up exactly when it was
    created. *)
Theorem start_up_error_ends_the_job_as_failed (w : env) (f : fault) :
  first_fault w = Some f ->
  exists st,
    _lms_downloader_process w = (Done (), st) /\
    puts (trace st) = [VExc (exn_of_fault f); VNone] /\
    path_of (trace st) = Some (Failed (fault_msg f)) /\
    attempts (trace st) = 0%nat /\
    (OsKillSIGINT ∉ trace st) /\
    ThreadJoin 10 ∈ trace st /\
    (Cleanup ∈ trace st <-> created_temp_dir w).
Proof.
  unfold first_fault, created_temp_dir, _lms_downloader_process.
  rewrite run_bind, run_try_except. unfold try_body. start_steps.
  destruct (thread_start w) as [f1|] eqn:H1.
  - intros [= ->]. start_steps. unfold handlers.
    rewrite is_interrupt_fault, is_Exception_fault, run_on_error, run_finish.
    eexists. split; [reflexivity|]. simpl.
    split; [reflexivity|]. split; [reflexivity|]. split; [reflexivity|].
    split; [intros Hin; split_elem Hin|].
    split; [find_elem|].
    split; [intros Hin; split_elem Hin|by intros [? _]].
  - start_steps. destruct (temporary_directory w) as [f2|] eqn:H2.
    + intros [= ->]. start_steps. unfold handlers.
      rewrite is_interrupt_fault, is_Exception_fault, run_on_error, run_finish.
      eexists. split; [reflexivity|]. simpl.
      split; [reflexivity|]. split; [reflexivity|]. split; [reflexivity|].
      split; [intros Hin; split_elem Hin|].
      split; [find_elem|].
      split; [intros Hin; split_elem Hin|by intros [_ ?]].
    + start_steps. intros Hf. rewrite Hf. start_steps. unfold handlers.
      rewrite is_interrupt_fault, is_Exception_fault, run_on_error, run_finish.
      eexists. split; [reflexivity|]. simpl.
      split; [reflexivity|]. split; [reflexivity|]. split; [reflexivity|].
      split; [intros Hin; split_elem Hin|].
      split; [find_elem|].
      split; [done|]. intros _. find_elem.
Qed.

Lemma start_up_error_ends_the_job_as_failed_witness :
  exists st,
    _lms_downloader_process no_temp_dir = (Done (), st) /\
    puts (trace st)
    = [VExc (exn_of_fault (Fault "OSError" "No space left on device")); VNone] /\
    path_of (trace st) = Some (Failed "No space left on device") /\
    attempts (trace st) = 0%nat /\
    (OsKillSIGINT ∉ trace st) /\
    ThreadJoin 10 ∈ trace st /\
    (Cleanup ∈ trace st <-> created_temp_dir no_temp_dir).
Proof.
  apply (start_up_error_ends_the_job_as_failed no_temp_dir
           (Fault "OSError" "No space left on device")).
  reflexivity.
Defined.

(** X18. A worker that is interrupted inside [download], by a
    [KeyboardInterrupt] or by a [SystemExit] with whatever message, reports
    a [KeyboardInterrupt] without message; the supervising process that
    receives this report treats it as an interrupt of its own: it signals
    the child, sends no file, and ends the job as interrupted. *)
Theorem worker_interrupt_ends_the_job_as_interrupted (w : env) (e : exn) :
  is_interrupt (exn_class e) = true ->
  starts w ->
  receives_first w (hd VNone (fst (_lms_downloader_process_child (Raise e)))) ->
  false ∈ child_is_alive w ->
  fst (_lms_downloader_process_child (Raise e)) = [interrupted_marker; VNone] /\
  exists st,
    _lms_downloader_process w = (Done (), st) /\
    puts (trace st) = [interrupted_marker; VNone] /\
    path_of (trace st) = Some Interrupted /\
    attempts (trace st) = 0%nat /\
    OsKillSIGINT ∈ trace st.
Proof.
  intros Hint Hstart Hrecv Halive.
  assert (Hchild : fst (_lms_downloader_process_child (Raise e))
                   = [interrupted_marker; VNone]).
  { unfold _lms_downloader_process_child. rewrite Hint.
    by destruct (exn_class e). }
  split; [exact Hchild|]. rewrite Hchild in Hrecv. cbn [hd] in Hrecv.
  destruct (try_body_receives w _ Hstart Hrecv) as (n & Hrun).
  rewrite run_check_raises in Hrun by done.
  eapply process_interrupted_shape; [|exact Halive|exact Hrun]. reflexivity.
Qed.

Lemma worker_interrupt_ends_the_job_as_interrupted_witness :
  fst (_lms_downloader_process_child (Raise (Exn SystemExit "1")))
  = [interrupted_marker; VNone] /\
  exists st,
    _lms_downloader_process
      (Examples.supervisor
         [Poll None false; Poll (Some interrupted_marker) false]
         Examples.first_file_fails) = (Done (), st) /\
    puts (trace st) = [interrupted_marker; VNone] /\
    path_of (trace st) = Some Interrupted /\
    attempts (trace st) = 0%nat /\
    OsKillSIGINT ∈ trace st.
Proof.
  apply (worker_interrupt_ends_the_job_as_interrupted
           (Examples.supervisor
              [Poll None false; Poll (Some interrupted_marker) false]
              Examples.first_file_fails)
           (Exn SystemExit "1")).
  - reflexivity.
  - repeat split.
  - exists [Poll None false], (Poll (Some interrupted_marker) false), [].
    split; [reflexivity|]. split; [reflexivity|]. repeat constructor.
  - apply elem_of_cons. right. by left.
Defined.

(** *** Every terminal path returns *)









End SupervisorMore.

(** ** From one part to the next *)

Module Composition.

Import Spec.
Import Notions.

(** X19. The abort button works for the job it is shown under: every
    button that the relay of a job puts under a message carries callback
    data that [query_callback], called in a chat, reads back as one call of
    [interrupt_process] with the pid of this very job (no error is logged),
    and that call sets the interrupt event of the job, when the job is
    registered and its process alive, and nothing else.  The keyboard is
    the one that [build_menu] makes of the single button. *)
Theorem abort_button_interrupts_the_job_of_its_message
    (w : Relay.env) (gets : list (option value)) (e : Relay.event)
    (b : BotHandler.button) (chat : Z)
    (ww : Watchdog.env) (st : Watchdog.state) (job : Watchdog.entry) :
  chat <> 0 ->
  e ∈ Relay.trace (state_of (Relay.logs_to_message_loop w gets)) ->
  b ∈ buttons_of e ->
  job ∈ Watchdog.lms_downloader_processes st ->
  Watchdog.is_alive ww (Watchdog.process job) = true ->
  (forall job', job' ∈ Watchdog.lms_downloader_processes st ->
                Watchdog.is_alive ww (Watchdog.process job') = true ->
                Watchdog.process job' = Watchdog.process job -> job' = job) ->
  Watchdog.process job = Relay.pid w ->
  Handlers.query_callback chat (Some (BotHandler.callback_data b))
  = [Handlers.InterruptProcess (Relay.pid w)] /\
  after_interrupts ww
    (Handlers.query_callback chat (Some (BotHandler.callback_data b))) st
  = Watchdog.set_event (Watchdog.interrupt_event job) st /\
  Handlers.build_menu [Some b] 1 None None = Return [[b]].
Proof.
  intros Hchat He Hb Hjob Halive Huniq Hpid.
  destruct (RelayMore.loop_shape w gets (Relay.initial w)) as (new & Htr & Hab & _).
  unfold Relay.logs_to_message_loop in He. rewrite Htr in He. simpl in He.
  rewrite (Hab e b He Hb), (HandlersMore.query_callback_abort chat _ Hchat).
  split; [reflexivity|]. split; [|reflexivity].
  unfold after_interrupts. cbn [interrupts omap list_omap fold_left].
  rewrite <- Hpid. by apply WatchdogMore.interrupt_first_some.
Qed.

Lemma abort_button_interrupts_the_job_of_its_message_witness :
  Handlers.query_callback 77
    (Some (BotHandler.callback_data (BotHandler.Button "Abort" "abort_4321")))
  = [Handlers.InterruptProcess (Relay.pid (Examples.relay 4000 Examples.api_ok))] /\
  after_interrupts all_alive
    (Handlers.query_callback 77
       (Some (BotHandler.callback_data (BotHandler.Button "Abort" "abort_4321"))))
    one_job
  = Watchdog.set_event (Watchdog.interrupt_event (Watchdog.Entry 0 4321 9)) one_job /\
  Handlers.build_menu [Some (BotHandler.Button "Abort" "abort_4321")] 1 None None
  = Return [[BotHandler.Button "Abort" "abort_4321"]].
Proof.
  apply (abort_button_interrupts_the_job_of_its_message
           (Examples.relay 4000 Examples.api_ok) [None]
           (Relay.Send "log_message"
              (BotHandler.ApiCall (BotHandler.TokenBot "token")
                 (BotHandler.send_message None) 77
                 (BotHandler.unescape_whitespace
                    (BotHandler.escape_markdown "log_message "))
                 (Some [[BotHandler.Button "Abort" "abort_4321"]])
                 (Some "MarkdownV2"))
              (Return (Some 7)))).
  - lia.
  - vm_compute. apply list_elem_of_here.
  - vm_compute. apply list_elem_of_here.
  - apply list_elem_of_here.
  - reflexivity.
  - intros job' Hin _ _. by apply list_elem_of_singleton in Hin.
  - reflexivity.
Defined.




End Composition.
